(** * Guild Bank bot: extraction and canonicalisation core

    A shallow embedding of the text parsers ([bot/utils/parsing.py]), the
    preview renderer ([bot/utils/formatting.py]), the OCR word-stream
    segmenter and colour classifier ([bot/services/ocr_service.py]), the
    two-pass OCR pipeline of [bot/cogs/ocr_listener.py], the message
    chunkers, the key normalisation and the donation and priority tables
    of [bot/services/sheets_service.py], the audit display of
    [bot/cogs/audit.py] and the review modal of [bot/ui/views.py],
    followed by the properties established about them.

    Conventions of the embedding.
    - A Python [str] is a list of Unicode code points ([N]).  String
      literals of the source that are plain ASCII are written with [lit];
      the few other characters get a named code point.
    - The character database ([isspace], [isdigit], [isdecimal], [\w],
      [lower], [title]) follows CPython 3.11 on U+0000..U+00FF; white space
      is listed for the whole code space.  Code points above U+00FF other
      than white space are treated as caseless symbols that are neither
      digits nor word characters, which is what the symbols printed by the
      program (coloured circles, bullet) are.  Text in other scripts is
      outside the model.
    - A Python exception is a [Raise] result; [None] is [None] of [option].
    - Floating point hue, saturation and value are idealised as rationals. *)

From Stdlib Require Import String Ascii List NArith ZArith QArith Bool Lia.
Import ListNotations.
Open Scope N_scope.

(* ------------------------------------------------------------------ *)
(** * Python strings and builtins *)

Module Py.

(** A character is its code point, a string the list of its characters. *)
Abbreviation char := N (only parsing).
Abbreviation str := (list N) (only parsing).

(** ASCII literal of the source as a code-point list. *)
Definition lit (s : string) : str := map N_of_ascii (list_ascii_of_string s).

(** Exceptions: [ValueError], and the errors of the OCR engine, told apart
    by a code. *)
Inductive exn :=
| ValueError
| TesseractError (code : N).

Inductive result (A : Type) :=
| Ok (a : A)
| Raise (e : exn).
Arguments Ok {A} a.
Arguments Raise {A} e.

Definition bind {A B} (m : result A) (f : A -> result B) : result B :=
  match m with
  | Ok a => f a
  | Raise e => Raise e
  end.

Fixpoint str_eqb (a b : str) : bool :=
  match a, b with
  | [], [] => true
  | x :: a', y :: b' => (x =? y) && str_eqb a' b'
  | _, _ => false
  end.

Definition between (lo hi c : N) : bool := (lo <=? c) && (c <=? hi).

(** [str.isspace] on one character (also [\s] of [re]). *)
Definition isspace (c : char) : bool :=
  between 9 13 c || between 28 32 c || (c =? 133) || (c =? 160)
  || (c =? 5760) || between 8192 8202 c || between 8232 8233 c
  || (c =? 8239) || (c =? 8287) || (c =? 12288).

(** [str.isdecimal] ([\d] of [re]): the characters [int] accepts. *)
Definition isdecimal (c : char) : bool := between 48 57 c.

(** [str.isdigit]: additionally superscript two, three and one. *)
Definition isdigit (c : char) : bool :=
  isdecimal c || (c =? 178) || (c =? 179) || (c =? 185).

Definition isalnum (c : char) : bool :=
  between 48 57 c || between 65 90 c || between 97 122 c
  || (c =? 170) || between 178 179 c || (c =? 181) || between 185 186 c
  || between 188 190 c || between 192 214 c || between 216 246 c
  || between 248 255 c.

(** [\w] of [re] on [str] patterns. *)
Definition isword (c : char) : bool := isalnum c || (c =? 95).

(** Characters with the Cased property. *)
Definition iscased (c : char) : bool :=
  between 65 90 c || between 97 122 c || (c =? 170) || (c =? 181)
  || (c =? 186) || between 192 214 c || between 216 246 c
  || between 248 255 c.

Definition lower_char (c : char) : char :=
  if between 65 90 c || between 192 214 c || between 216 222 c
  then c + 32 else c.

(** Full title-case mapping of one character. *)
Definition title_char (c : char) : str :=
  if between 97 122 c || between 224 246 c || between 248 254 c then [c - 32]
  else if c =? 181 then [924]
  else if c =? 223 then [83; 115]
  else if c =? 255 then [376]
  else [c].

Definition lower (s : str) : str := map lower_char s.

Fixpoint title_from (previous_is_cased : bool) (s : str) : str :=
  match s with
  | [] => []
  | c :: s' =>
      (if previous_is_cased then [lower_char c] else title_char c)
        ++ title_from (iscased c) s'
  end.

Definition title (s : str) : str := title_from false s.

Fixpoint lstrip_by (p : char -> bool) (s : str) : str :=
  match s with
  | [] => []
  | c :: s' => if p c then lstrip_by p s' else s
  end.

Definition rstrip_by (p : char -> bool) (s : str) : str :=
  rev (lstrip_by p (rev s)).

Definition strip_by (p : char -> bool) (s : str) : str :=
  rstrip_by p (lstrip_by p s).

Definition strip (s : str) : str := strip_by isspace s.

Definition mem_char (chars : str) (c : char) : bool :=
  existsb (N.eqb c) chars.

(** [s.rstrip(chars)] and [s.strip(chars)]. *)
Definition rstrip_chars (chars s : str) : str := rstrip_by (mem_char chars) s.
Definition strip_chars (chars s : str) : str := strip_by (mem_char chars) s.

(** Pieces of [s] between the characters satisfying [sep]; empty pieces
    are kept ([re.split] with a one-character class). *)
Fixpoint split_at (sep : char -> bool) (s : str) : list str :=
  match s with
  | [] => [[]]
  | c :: s' =>
      match split_at sep s' with
      | piece :: pieces =>
          if sep c then [] :: piece :: pieces else (c :: piece) :: pieces
      | [] => [[]]
      end
  end.

Definition nonempty (s : str) : bool :=
  match s with [] => false | _ => true end.

(** [s.split()]: the maximal runs of non-space characters. *)
Definition split (s : str) : list str := filter nonempty (split_at isspace s).

Fixpoint join (sep : str) (parts : list str) : str :=
  match parts with
  | [] => []
  | [p] => p
  | p :: ps => p ++ sep ++ join sep ps
  end.

Definition str_isdigit (s : str) : bool := nonempty s && forallb isdigit s.

(** Value of a string of decimal digits, most significant first. *)
Definition digits_value (s : str) : Z :=
  fold_left (fun acc c => (10 * acc + Z.of_N (c - 48))%Z) s 0%Z.

(** [int(s)] for the arguments that reach it here: strings made of
    characters passing [isdigit] or [\d].  Digits that are not decimal
    make [int] raise [ValueError]. *)
Definition int (s : str) : result Z :=
  if nonempty s && forallb isdecimal s then Ok (digits_value s)
  else Raise ValueError.

Fixpoint digits_of (fuel : nat) (n : N) (acc : str) : str :=
  match fuel with
  | O => acc
  | S fuel' =>
      if n <? 10 then (48 + n) :: acc
      else digits_of fuel' (n / 10) ((48 + n mod 10) :: acc)
  end.

(** [str(n)] for an [int]. *)
Definition str_of_int (n : Z) : str :=
  match n with
  | Zneg p => 45 :: digits_of (S (N.to_nat (N.log2 (Npos p)))) (Npos p) []
  | _ => let m := Z.to_N n in digits_of (S (N.to_nat (N.log2 m))) m []
  end.

(** [s.splitlines()]. *)
Definition islinebreak (c : char) : bool :=
  between 10 13 c || between 28 30 c || (c =? 133) || between 8232 8233 c.

Fixpoint splitlines_from (cur : str) (s : str) : list str :=
  match s with
  | [] => match cur with [] => [] | _ => [rev cur] end
  | c :: s' =>
      if islinebreak c then
        rev cur ::
          match c, s' with
          | 13, 10 :: s'' => splitlines_from [] s''
          | _, _ => splitlines_from [] s'
          end
      else splitlines_from (c :: cur) s'
  end.

End Py.

Import Py.

Declare Scope py_scope.
Delimit Scope py_scope with py.
Notation "x <- m ;; k" := (bind m (fun x => k))
  (at level 61, m at next level, right associativity) : py_scope.
Open Scope py_scope.

(** Sequential loop whose body appends to one result list; an exception in
    any iteration aborts the loop. *)
Fixpoint for_each {A B} (body : A -> result (list B)) (xs : list A)
  : result (list B) :=
  match xs with
  | [] => Ok []
  | x :: xs' =>
      ys <- body x ;;
      zs <- for_each body xs' ;;
      Ok (ys ++ zs)
  end.

(* ------------------------------------------------------------------ *)
(** * The fragment of [re] used by the parsers *)

Module Re.

(** Pattern syntax.  [Star true r] is the greedy [r*], [Star false r] the
    lazy [r*?]; [Group i r] is the [i]-th capturing group. *)
Inductive regex :=
| Eps
| Chr (p : char -> bool)
| Seq (a b : regex)
| Alt (a b : regex)
| Star (greedy : bool) (r : regex)
| Group (i : nat) (r : regex)
| Bol
| Eol.

Definition Plus (greedy : bool) (r : regex) : regex := Seq r (Star greedy r).

Fixpoint Cat (rs : list regex) : regex :=
  match rs with
  | [] => Eps
  | [r] => r
  | r :: rs' => Seq r (Cat rs')
  end.

(** Captured groups of a match, latest binding first. *)
Definition groups := list (nat * str).

Fixpoint group (i : nat) (g : groups) : str :=
  match g with
  | [] => []
  | (j, s) :: g' => if Nat.eqb i j then s else group i g'
  end.

Definition orelse {A} (a : option A) (b : unit -> option A) : option A :=
  match a with
  | Some x => Some x
  | None => b tt
  end.

(** [$]: at the end of the subject, or just before a final newline. *)
Definition at_end (s : str) : bool :=
  match s with
  | [] => true
  | [c] => c =? 10
  | _ => false
  end.

(** A matching step: consume a prefix of the input and pass the rest on. *)
Definition step : Type :=
  str -> groups -> (str -> groups -> option groups) -> option groups.

(** The repetition of a step, greedy ([r*]: one more round before trying
    to go on) or lazy ([r*?]: go on before trying one more round).  A round
    must consume input; [fuel] bounds the number of rounds. *)
Fixpoint star_loop (greedy : bool) (round : step)
    (k : str -> groups -> option groups) (fuel : nat) (s : str) (g : groups)
  : option groups :=
  match fuel with
  | O => k s g
  | S fuel' =>
      let again (_ : unit) :=
        round s g
          (fun s' g' =>
             if (length s' <? length s)%nat
             then star_loop greedy round k fuel' s' g'
             else None) in
      if greedy then orelse (again tt) (fun _ => k s g)
      else orelse (k s g) again
  end.

(** Backtracking matcher in continuation-passing style: [run r total s g k]
    matches [r] at the front of the remaining input [s] and hands the rest
    to [k]; alternatives are explored in the priority order of [re].
    [total] is the length of the whole subject, for [^]. *)
Fixpoint run (r : regex) (total : nat) (s : str) (g : groups)
    (k : str -> groups -> option groups) {struct r} : option groups :=
  match r with
  | Eps => k s g
  | Chr p =>
      match s with
      | c :: s' => if p c then k s' g else None
      | [] => None
      end
  | Seq a b => run a total s g (fun s' g' => run b total s' g' k)
  | Alt a b => orelse (run a total s g k) (fun _ => run b total s g k)
  | Star greedy r0 => star_loop greedy (run r0 total) k (length s) s g
  | Group i r0 =>
      run r0 total s g
        (fun s' g' => k s' ((i, firstn (length s - length s') s) :: g'))
  | Bol => if (length s =? total)%nat then k s g else None
  | Eol => if at_end s then k s g else None
  end.

(** [re.match(pattern, subject)]. *)
Definition rmatch (r : regex) (subject : str) : option groups :=
  run r (length subject) subject [] (fun _ g => Some g).

(** Character classes. *)
Definition any_but_newline (c : char) : bool := negb (c =? 10).
Definition one (x : char) (c : char) : bool := c =? x.
(** A literal letter under [re.IGNORECASE]. *)
Definition one_ci (x : char) (c : char) : bool := lower_char c =? lower_char x.

Definition word_ci (w : str) : regex := Cat (map (fun x => Chr (one_ci x)) w).

(** [re.sub(r"^[^\w\d]+", "", s)]. *)
Definition sub_leading_nonword (s : str) : str :=
  lstrip_by (fun c => negb (isword c || isdecimal c)) s.

(** [re.sub(r"[^\w]", "", s)]. *)
Definition sub_nonword (s : str) : str := filter isword s.

(** [re.split(r"\s+", s)]. *)
Fixpoint split_spaces_from (cur : str) (in_gap : bool) (s : str) : list str :=
  match s with
  | [] => if in_gap then [[]] else [rev cur]
  | c :: s' =>
      if isspace c then
        if in_gap then split_spaces_from cur true s'
        else rev cur :: split_spaces_from [] true s'
      else split_spaces_from (c :: cur) false s'
  end.

Definition split_spaces (s : str) : list str := split_spaces_from [] false s.

End Re.

(** Python dictionaries with string keys, in insertion order. *)
Definition dict (V : Type) := list (str * V).

Fixpoint dict_find {V} (d : dict V) (key : str) : option V :=
  match d with
  | [] => None
  | (k, v) :: d' => if str_eqb key k then Some v else dict_find d' key
  end.

Definition dict_get {V} (d : dict V) (key : str) (default : V) : V :=
  match dict_find d key with
  | Some v => v
  | None => default
  end.

Definition dict_has {V} (d : dict V) (key : str) : bool :=
  match dict_find d key with
  | Some _ => true
  | None => false
  end.

Definition str_in (s : str) (l : list str) : bool := existsb (str_eqb s) l.

(** The canonical item tuple [(item name, quality, amount)].  The quality
    component is [None] where the Python value is [None]. *)
Definition ItemTuple : Type := str * option str * Z.

Definition item_name (t : ItemTuple) : str := fst (fst t).
Definition item_quality (t : ItemTuple) : option str := snd (fst t).
Definition item_amount (t : ItemTuple) : Z := snd t.

(* ------------------------------------------------------------------ *)
(** * bot/utils/formatting.py *)

Module Formatting.

Definition white_circle : char := 9898.
Definition green_circle : char := 128994.
Definition blue_circle : char := 128309.
Definition yellow_circle : char := 128993.
Definition purple_circle : char := 128995.
Definition orange_circle : char := 128992.
Definition bullet : char := 8226.
Definition multiplication_sign : char := 215.

Definition QUALITY_EMOJIS : dict str :=
  [ (lit "Common", [white_circle]);
    (lit "Uncommon", [green_circle]);
    (lit "Rare", [blue_circle]);
    (lit "Heroic", [yellow_circle]);
    (lit "Epic", [purple_circle]);
    (lit "Legendary", [orange_circle]) ].

Definition QUALITY_SHORTCUTS : dict str :=
  [ (lit "c", lit "Common");
    (lit "u", lit "Uncommon");
    (lit "r", lit "Rare");
    (lit "h", lit "Heroic");
    (lit "e", lit "Epic");
    (lit "l", lit "Legendary") ].

(** [quality or "Common"]. *)
Definition quality_label (quality : option str) : str :=
  match quality with
  | Some (c :: q) => c :: q
  | _ => lit "Common"
  end.

(** One iteration of the loop of [format_preview]: the appended line. *)
Definition preview_line (t : ItemTuple) : str :=
  let '(item, quality, amount) := t in
  let q := quality_label quality in
  dict_get QUALITY_EMOJIS q [bullet] ++ lit " " ++ str_of_int amount
    ++ [32; multiplication_sign; 32] ++ item ++ lit " (" ++ q ++ lit ")".

(** The list [lines] built by [format_preview]. *)
Definition preview_lines (items : list ItemTuple) : list str :=
  map preview_line items.

Definition format_preview (items : list ItemTuple) : str :=
  join [10] (preview_lines items).

End Formatting.

(* ------------------------------------------------------------------ *)
(** * bot/utils/parsing.py *)

Module Parsing.
Import Formatting Re.

Definition parse_quality (token : str) : str :=
  let q := lower (strip token) in
  match q with
  | [] => lit "Common"
  | q0 :: _ =>
      match dict_find QUALITY_SHORTCUTS [q0] with
      | Some name => name
      | None => title q
      end
  end.

Definition FULL_NAMES : list str :=
  [ lit "common"; lit "uncommon"; lit "rare"; lit "heroic"; lit "epic";
    lit "legendary" ].

Definition x_or_times (c : char) : bool :=
  one_ci 120 c || one_ci multiplication_sign c.

(** [^(\d+)\s*[x×]\s*(.+?)\s*\((.+?)\)$] with [re.IGNORECASE]. *)
Definition USER_STRICT : regex :=
  Cat [ Bol;
        Group 1 (Plus true (Chr isdecimal));
        Star true (Chr isspace);
        Chr x_or_times;
        Star true (Chr isspace);
        Group 2 (Plus false (Chr any_but_newline));
        Star true (Chr isspace);
        Chr (one 40);
        Group 3 (Plus false (Chr any_but_newline));
        Chr (one 41);
        Eol ].

(** [^(\d+)\s*[x×]\s*(.+?)\s*\((Common|Uncommon|Rare|Heroic|Epic|Legendary)\)$]
    with [re.IGNORECASE]. *)
Definition AUDIT_STRICT : regex :=
  Cat [ Bol;
        Group 1 (Plus true (Chr isdecimal));
        Star true (Chr isspace);
        Chr x_or_times;
        Star true (Chr isspace);
        Group 2 (Plus false (Chr any_but_newline));
        Star true (Chr isspace);
        Chr (one 40);
        Group 3
          (Alt (word_ci (lit "Common"))
          (Alt (word_ci (lit "Uncommon"))
          (Alt (word_ci (lit "Rare"))
          (Alt (word_ci (lit "Heroic"))
          (Alt (word_ci (lit "Epic"))
               (word_ci (lit "Legendary")))))));
        Chr (one 41);
        Eol ].

(** The token-splitting fallback of [parse_user_lines], from
    [tokens = segment.split()] on. *)
Definition user_fallback (segment : str) : result (list ItemTuple) :=
  let tokens := split segment in
  match tokens with
  | [] => Ok []
  | t0 :: tokens' =>
      amount_rest <-
        (if str_isdigit t0
         then (amount <- int t0 ;; Ok (amount, tokens'))
         else Ok (1%Z, tokens)) ;;
      let '(amount, rest) := amount_rest in
      match rest with
      | [] => Ok []
      | _ :: _ =>
          let quality_candidate := lower (last rest []) in
          let quality_items :=
            if nonempty quality_candidate
               && (dict_has QUALITY_SHORTCUTS (firstn 1 quality_candidate)
                   || str_in quality_candidate FULL_NAMES)
            then (parse_quality quality_candidate, removelast rest)
            else (lit "Common", rest) in
          let '(quality, item_tokens) := quality_items in
          let item := title (strip (join (lit " ") item_tokens)) in
          if nonempty item then Ok [(item, Some quality, amount)] else Ok []
      end
  end.

(** Body of the inner loop of [parse_user_lines] for one [part]. *)
Definition user_segment (part : str) : result (list ItemTuple) :=
  let segment := strip part in
  if negb (nonempty segment) then Ok []
  else
    let segment := sub_leading_nonword segment in
    match rmatch USER_STRICT segment with
    | Some m =>
        amount <- int (group 1 m) ;;
        let item := title (strip (group 2 m)) in
        let quality := parse_quality (sub_nonword (group 3 m)) in
        Ok [(item, Some quality, amount)]
    | None => user_fallback segment
    end.

Definition is_delimiter (c : char) : bool :=
  (c =? 44) || (c =? 43) || (c =? 59).

Definition user_line (line : str) : result (list ItemTuple) :=
  for_each user_segment (split_at is_delimiter (strip line)).

Definition parse_user_lines (lines : list str) : result (list ItemTuple) :=
  for_each user_line lines.

(** Body of the loop of [parse_audit_lines] for one [line]. *)
Definition audit_line (line : str) : result (list ItemTuple) :=
  let line := sub_leading_nonword (strip line) in
  if negb (nonempty line) then Ok []
  else
    match rmatch AUDIT_STRICT line with
    | Some strict =>
        amt <- int (group 1 strict) ;;
        let item := title (strip (group 2 strict)) in
        let quality := title (group 3 strict) in
        Ok [(item, Some quality, amt)]
    | None =>
        let tokens := split_spaces line in
        if (length tokens <? 2)%nat then Ok []
        else
          let amt_token :=
            rstrip_chars [120; multiplication_sign] (hd [] tokens) in
          if negb (str_isdigit amt_token) then Ok []
          else
            amt <- int amt_token ;;
            let last := lower (last tokens []) in
            let quality_items :=
              if dict_has QUALITY_SHORTCUTS last || str_in last FULL_NAMES
              then (parse_quality last, removelast (tl tokens))
              else (lit "Common", tl tokens) in
            let '(quality, item_tokens) := quality_items in
            let item := title (strip (join (lit " ") item_tokens)) in
            if nonempty item then Ok [(item, Some quality, amt)] else Ok []
    end.

Definition parse_audit_lines (lines : list str) : result (list ItemTuple) :=
  for_each audit_line lines.

End Parsing.

(* ------------------------------------------------------------------ *)
(** * bot/services/ocr_service.py *)

Module OcrService.
Import Formatting.

(** One pixel after [rgb2hsv]: hue, saturation and value, each in [0,1]. *)
Definition HSV : Type := Q * Q * Q.

(** What [rgb2hsv(np.array(region) / 255)] gives for a cropped region: the
    pixels in reading order, or the [ValueError] raised for an array that
    does not have three colour channels. *)
Definition Region : Type := result (list HSV).

(** A PIL image, as far as the segmenter looks at it: its size and the
    region cut out by [image.crop((left, upper, right, lower))]. *)
Record Image := {
  image_width : Z;
  image_height : Z;
  crop : Z * Z * Z * Z -> Region
}.

Definition QUALITY_HUE_RANGES : dict (option (Z * Z)) :=
  [ (lit "Common", None);
    (lit "Uncommon", Some (95, 140)%Z);
    (lit "Rare", Some (190, 240)%Z);
    (lit "Heroic", Some (40, 70)%Z);
    (lit "Epic", Some (260, 310)%Z);
    (lit "Legendary", Some (20, 50)%Z) ].

Definition Qgt_bool (a b : Q) : bool := negb (Qle_bool a b).

Fixpoint insert_sorted (x : Q) (l : list Q) : list Q :=
  match l with
  | [] => [x]
  | y :: l' => if Qle_bool x y then x :: l else y :: insert_sorted x l'
  end.

Definition sort (l : list Q) : list Q := fold_right insert_sorted [] l.

(** [np.median] of a non-empty one-dimensional array. *)
Definition median (l : list Q) : Q :=
  let s := sort l in
  let n := length s in
  if Nat.even n
  then ((nth (n / 2 - 1) s 0 + nth (n / 2) s 0) / 2)%Q
  else nth (n / 2) s 0%Q.

(** The loop over [QUALITY_HUE_RANGES.items()], with its final
    [return "Common"]. *)
Fixpoint match_hue (ranges : dict (option (Z * Z))) (hue_mode : Q) : str :=
  match ranges with
  | [] => lit "Common"
  | (qual, hrange) :: ranges' =>
      match hrange with
      | None => match_hue ranges' hue_mode
      | Some (lo, hi) =>
          if (lo <=? hi)%Z then
            if Qle_bool (inject_Z lo) hue_mode && Qle_bool hue_mode (inject_Z hi)
            then qual else match_hue ranges' hue_mode
          else
            if Qle_bool (inject_Z lo) hue_mode || Qle_bool hue_mode (inject_Z hi)
            then qual else match_hue ranges' hue_mode
      end
  end.

Definition hue_degrees (p : HSV) : Q := (fst (fst p) * 360)%Q.
Definition saturation (p : HSV) : Q := snd (fst p).
Definition value (p : HSV) : Q := snd p.

(** [mask = (s > sat_thresh) & (v > val_thresh)] at one pixel. *)
Definition mask (sat_thresh val_thresh : Q) (p : HSV) : bool :=
  Qgt_bool (saturation p) sat_thresh && Qgt_bool (value p) val_thresh.

Definition detect_quality_hsv_with (ranges : dict (option (Z * Z)))
    (region : Region) (sat_thresh val_thresh : Q) : result str :=
  hsv <- region ;;
  let kept := filter (mask sat_thresh val_thresh) hsv in
  match kept with
  | [] => Ok (lit "Common")
  | _ :: _ =>
      let hue_mode := median (map hue_degrees kept) in
      Ok (match_hue ranges hue_mode)
  end.

Definition detect_quality_hsv (region : Region) (sat_thresh val_thresh : Q)
  : result str :=
  detect_quality_hsv_with QUALITY_HUE_RANGES region sat_thresh val_thresh.

Definition default_sat_thresh : Q := 3 # 10.
Definition default_val_thresh : Q := 2 # 10.

(** One word of [pytesseract.image_to_data]: the entries at one index of
    its columns [text], [left], [top], [width] and [height], which the
    engine returns with equal lengths. *)
Record WordToken := {
  text : str;
  left : Z;
  top : Z;
  width : Z;
  height : Z
}.

(** The dictionary appended to [boxes]. *)
Definition Box : Type := Z * Z * Z * Z.

Definition box_of (t : WordToken) : Box := (left t, top t, width t, height t).
Definition box_left (b : Box) : Z := fst (fst (fst b)).
Definition box_top (b : Box) : Z := snd (fst (fst b)).
Definition box_width (b : Box) : Z := snd (fst b).
Definition box_height (b : Box) : Z := snd b.

Definition is_marker (word : str) : bool :=
  str_in word [lit "acquired"; lit "removed"].

(** [w.startswith("x") and w[1:].isdigit()]. *)
Definition is_quantity (w : str) : bool :=
  match w with
  | c :: w' => (c =? 120) && str_isdigit w'
  | [] => false
  end.

(** The inner [while j < num_words] loop, from position [j] on: the item
    words, the amount, the boxes, and the tokens from the final [j] on. *)
Fixpoint collect (tokens : list WordToken) (item_words : list str)
    (boxes : list Box)
  : result (list str * Z * list Box * list WordToken) :=
  match tokens with
  | [] => Ok (item_words, 1%Z, boxes, [])
  | t :: tokens' =>
      let w := strip (text t) in
      if negb (nonempty w)
         || is_marker (rstrip_chars (lit ":") (strip (lower w)))
      then Ok (item_words, 1%Z, boxes, tokens)
      else if is_quantity w then
        amount <- int (tl w) ;;
        Ok (item_words, amount, boxes, tokens')
      else collect tokens' (item_words ++ [w]) (boxes ++ [box_of t])
  end.

(** [re.sub(r"^[^\w\d\(\)]+|[^\w\d\(\)]+$", "", raw_name)]. *)
Definition trim_name (raw_name : str) : str :=
  strip_by (fun c => negb (isword c || isdecimal c || (c =? 40) || (c =? 41)))
    raw_name.

Definition minimum (l : list Z) : Z := fold_right Z.min (hd 0%Z l) l.
Definition maximum (l : list Z) : Z := fold_right Z.max (hd 0%Z l) l.

(** The crop rectangle around the collected boxes. *)
Definition crop_box (image : Image) (boxes : list Box) : Z * Z * Z * Z :=
  (Z.max (minimum (map box_left boxes) - 4) 0,
   Z.max (minimum (map box_top boxes) - 2) 0,
   Z.min (maximum (map (fun b => box_left b + box_width b) boxes) + 4)
     (image_width image),
   Z.min (maximum (map (fun b => box_top b + box_height b) boxes) + 2)
     (image_height image))%Z.

(** The outer [while i < num_words] loop from position [i] on; [fuel]
    bounds the number of iterations. *)
Fixpoint scan_from (fuel : nat) (image : Image) (tokens : list WordToken)
  : result (list ItemTuple) :=
  match fuel, tokens with
  | O, _ => Ok []
  | _, [] => Ok []
  | S fuel', t :: tokens' =>
      let word := rstrip_chars (lit ":") (lower (strip (text t))) in
      if negb (is_marker word) then scan_from fuel' image tokens'
      else
        collected <- collect tokens' [] [] ;;
        let '(item_words, amount, boxes, rest) := collected in
        match item_words with
        | [] => scan_from fuel' image rest
        | _ :: _ =>
            let raw_name := strip (join (lit " ") item_words) in
            let item_name := strip_chars (lit "[](){}") (trim_name raw_name) in
            if negb (nonempty item_name) then scan_from fuel' image rest
            else
              let boxes :=
                match boxes with
                | [] => [(0, 0, image_width image, image_height image)%Z]
                | _ :: _ => boxes
                end in
              let region := crop image (crop_box image boxes) in
              quality <-
                detect_quality_hsv region default_sat_thresh
                  default_val_thresh ;;
              more <- scan_from fuel' image rest ;;
              Ok ((title item_name, Some quality, amount) :: more)
        end
  end.

(** Every iteration advances by at least one word. *)
Definition scan_items (image : Image) (data : list WordToken)
  : result (list ItemTuple) :=
  scan_from (length data) image data.

End OcrService.

(* ------------------------------------------------------------------ *)
(** * bot/cogs/ocr_listener.py: the two OCR passes of [on_message] *)

Module OcrListener.
Import OcrService.

(** The two calls of [pytesseract.image_to_data]. *)
Inductive ocr_pass := RawPass | PreprocessedPass.

(** Computations that may raise and that record the OCR passes they
    start. *)
Definition Traced (A : Type) : Type :=
  list ocr_pass -> list ocr_pass * result A.

Definition ret {A} (a : A) : Traced A := fun log => (log, Ok a).

Definition lift {A} (r : result A) : Traced A := fun log => (log, r).

Definition tbind {A B} (m : Traced A) (f : A -> Traced B) : Traced B :=
  fun log =>
    match m log with
    | (log', Ok a) => f a log'
    | (log', Raise e) => (log', Raise e)
    end.

Notation "x <~ m ;; k" := (tbind m (fun x => k))
  (at level 61, m at next level, right associativity) : py_scope.

Section Pipeline.

(** The OCR engine and the binarisation of [preprocess_image] (grey scale,
    then threshold 150) work on pixel data that [Image] does not expose;
    the pipeline is stated for any such pair. *)
Variable image_to_data : Image -> result (list WordToken).
Variable preprocess_image : Image -> Image.

Definition run_ocr (pass : ocr_pass) (image : Image)
  : Traced (list WordToken) :=
  fun log => (log ++ [pass], image_to_data image).

(** Steps 7 and 8 of [on_message]: the value of [detected_items] after
    them. *)
Definition detect_items (image : Image) : Traced (list ItemTuple) :=
  data_raw <~ run_ocr RawPass image ;;
  detected_items <~ lift (scan_items image data_raw) ;;
  match detected_items with
  | [] =>
      let processed := preprocess_image image in
      data_processed <~ run_ocr PreprocessedPass processed ;;
      lift (scan_items processed data_processed)
  | _ :: _ => ret detected_items
  end.

End Pipeline.

End OcrListener.

Import Formatting Parsing OcrService OcrListener.

(* ------------------------------------------------------------------ *)
(** * Specification-side definitions *)

(** A word of the OCR stream with the given text and box. *)
Definition word (s : str) (b : Box) : WordToken :=
  {| text := s; left := box_left b; top := box_top b;
     width := box_width b; height := box_height b |}.

(** A token that ends the record being collected without being consumed:
    blank text or a boundary marker. *)
Definition ends_record (t : WordToken) : bool :=
  let w := strip (text t) in
  negb (nonempty w) || is_marker (rstrip_chars (lit ":") (strip (lower w))).

(** A quantity token [x<digits>]. *)
Definition quantity_token (t : WordToken) : bool :=
  negb (ends_record t) && is_quantity (strip (text t)).

(** A token that is accumulated into the item name. *)
Definition name_word (t : WordToken) : bool :=
  negb (ends_record t) && negb (is_quantity (strip (text t))).

(** Every record of a result has an amount of at least [lo]. *)
Definition amounts_at_least (lo : Z) (r : result (list ItemTuple)) : Prop :=
  match r with
  | Ok items => Forall (fun t => (lo <= item_amount t)%Z) items
  | Raise _ => True
  end.



(** The six canonical tier names. *)
Definition TIERS : list str :=
  [ lit "Common"; lit "Uncommon"; lit "Rare"; lit "Heroic"; lit "Epic";
    lit "Legendary" ].

(** The superscript two: a digit for [isdigit], not a decimal for [int]. *)
Definition superscript_two : char := 178.

(** An image none of whose pixels passes the colour thresholds. *)
Definition grey_image : Image :=
  {| image_width := 200; image_height := 40; crop := fun _ => Ok [] |}.


(** One step of reading a decimal number. *)
Definition digit_step (acc : Z) (c : char) : Z :=
  (10 * acc + Z.of_N (c - 48))%Z.

(** The class [p] cannot consume the first character of [rest]. *)
Definition stops_at (p : char -> bool) (rest : str) : Prop :=
  match rest with
  | [] => True
  | c :: _ => p c = false
  end.

(** The step of a one-character class; [Re.run (Re.Chr p) total] unfolds
    to it. *)
Definition class_step (p : char -> bool) : Re.step :=
  fun s g k =>
    match s with
    | c :: s' => if p c then k s' g else None
    | [] => None
    end.

(** After any number of leading spaces, the next character is not an
    opening parenthesis. *)
Definition no_lparen_ahead (s : str) : Prop :=
  match lstrip_by isspace s with
  | c :: _ => c <> 40
  | [] => True
  end.

(** The continuation at the end of a pattern: the match is found. *)
Definition final : str -> Re.groups -> option Re.groups := fun _ g => Some g.

(** Any character but [x]. *)
Definition not_char (x : char) (c : char) : bool := negb (c =? x).

(** Characters a name may contain for its rendered line to parse back: no
    separator of the lenient grammar, no opening parenthesis, no line
    break, and within the code points whose case mapping is modelled. *)
Definition name_char_ok (c : char) : bool :=
  negb (is_delimiter c) && not_char 40 c && negb (islinebreak c)
  && (c <? 256).

(** Records that survive the round trip: a non-empty name in stripped
    title case made of such characters, one of the six tiers, and a
    non-negative amount. *)
Definition round_trip_record (t : ItemTuple) : Prop :=
  let '(name, quality, amount) := t in
  name <> []
  /\ strip name = name
  /\ title name = name
  /\ forallb name_char_ok name = true
  /\ (exists q, quality = Some q /\ In q TIERS)
  /\ (0 <= amount)%Z.

(** Characters that are neutral for the line structure. *)
Definition plain_char (c : char) : bool :=
  negb (is_delimiter c) && negb (islinebreak c).

(** A character that [int] accepts whenever [isdigit] does. *)
Definition safe_digit (c : char) : bool := negb (isdigit c) || isdecimal c.

(** The pattern contains the capturing group [i]. *)
Fixpoint mentions_group (i : nat) (r : Re.regex) : bool :=
  match r with
  | Re.Seq a b | Re.Alt a b => mentions_group i a || mentions_group i b
  | Re.Star _ r0 => mentions_group i r0
  | Re.Group j r0 => Nat.eqb i j || mentions_group i r0
  | _ => false
  end.

(* ------------------------------------------------------------------ *)
(** * Further code: message chunking *)

(** [chunk_message_blocks] of bot/utils/formatting.py (the copy used by
    the audit command and the views). *)
Module Chunking.

(** The [for b in blocks] loop and the final [if current]. *)
Fixpoint chunk_loop (max_chars : Z) (blocks : list str)
    (chunks current : list str) (current_len : Z) : list str :=
  match blocks with
  | [] =>
      match current with
      | [] => chunks
      | _ :: _ => chunks ++ [join [10] current]
      end
  | b :: blocks' =>
      let blen := (Z.of_nat (length b) + 1)%Z in
      if (current_len + blen >? max_chars)%Z
      then chunk_loop max_chars blocks' (chunks ++ [join [10] current]) [b] blen
      else chunk_loop max_chars blocks' chunks (current ++ [b])
             (current_len + blen)%Z
  end.

Definition chunk_message_blocks (blocks : list str) (max_chars : Z)
  : list str :=
  chunk_loop max_chars blocks [] [] 0%Z.

End Chunking.

(** bot/services/sheets_service.py: the module-level helpers and the pure
    steps of [SheetsService]. *)
Module SheetsService.

(** The copy of [chunk_message_blocks] in this module closes a chunk only
    when [current] is not empty. *)
Fixpoint chunk_loop (max_chars : Z) (blocks : list str)
    (chunks current : list str) (current_len : Z) : list str :=
  match blocks with
  | [] =>
      match current with
      | [] => chunks
      | _ :: _ => chunks ++ [join [10] current]
      end
  | b :: blocks' =>
      let blen := (Z.of_nat (length b) + 1)%Z in
      if match current with [] => false | _ :: _ => true end
         && (current_len + blen >? max_chars)%Z
      then chunk_loop max_chars blocks' (chunks ++ [join [10] current]) [b] blen
      else chunk_loop max_chars blocks' chunks (current ++ [b])
             (current_len + blen)%Z
  end.

Definition chunk_message_blocks (blocks : list str) (max_chars : Z)
  : list str :=
  chunk_loop max_chars blocks [] [] 0%Z.

(** [str(s)] for a cell that holds text or [None]. *)
Definition text_of (s : option str) : str :=
  match s with
  | Some text => text
  | None => lit "None"
  end.

(** [re.sub(r"[^\w\s]", "", str(s)).strip().lower()]. *)
Definition _norm_text (s : str) : str :=
  lower (strip (filter (fun c => isword c || isspace c) s)).

Definition BankerKey : Type := str * str * str.

Definition _norm_banker_key (item quality banker : str) : BankerKey :=
  (_norm_text item, _norm_text quality, _norm_text banker).

Definition key_eqb (k1 k2 : BankerKey) : bool :=
  let '(i1, q1, b1) := k1 in
  let '(i2, q2, b2) := k2 in
  str_eqb i1 i2 && str_eqb q1 q2 && str_eqb b1 b2.

(** [stacked[key] += amount] on a [defaultdict(int)], kept in insertion
    order. *)
Fixpoint add_amount (stacked : list (BankerKey * Z)) (key : BankerKey)
    (amount : Z) : list (BankerKey * Z) :=
  match stacked with
  | [] => [(key, (0 + amount)%Z)]
  | (k, v) :: stacked' =>
      if key_eqb key k then (k, (v + amount)%Z) :: stacked'
      else (k, v) :: add_amount stacked' key amount
  end.

(** The key under which [apply_donation] stacks an item. *)
Definition stack_key (banker_name : str) (t : ItemTuple) : BankerKey :=
  _norm_banker_key (item_name t) (text_of (item_quality t)) banker_name.

(** The first loop of [apply_donation]: [stacked] after it. *)
Definition stack_items (items : list ItemTuple) (banker_name : str)
  : list (BankerKey * Z) :=
  fold_left
    (fun stacked t => add_amount stacked (stack_key banker_name t)
                        (item_amount t))
    items [].

(** The [current] dictionary of [modify_priorities], keyed by lower-cased
    item and quality, in insertion order. *)
Definition PriorityKey : Type := str * str.
Definition Priorities : Type := list (PriorityKey * Z).

(** An entry of [add] or [remove] as annotated, [Tuple[str, str, int]]. *)
Definition Target : Type := str * str * Z.

Definition priority_eqb (k1 k2 : PriorityKey) : bool :=
  str_eqb (fst k1) (fst k2) && str_eqb (snd k1) (snd k2).

(** [current.get(key)], [current[key] = v] and [del current[key]]. *)
Fixpoint priority_get (current : Priorities) (key : PriorityKey)
  : option Z :=
  match current with
  | [] => None
  | (k, v) :: current' =>
      if priority_eqb key k then Some v else priority_get current' key
  end.

Fixpoint priority_set (current : Priorities) (key : PriorityKey) (v : Z)
  : Priorities :=
  match current with
  | [] => [(key, v)]
  | (k, v0) :: current' =>
      if priority_eqb key k then (k, v) :: current'
      else (k, v0) :: priority_set current' key v
  end.

Fixpoint priority_del (current : Priorities) (key : PriorityKey)
  : Priorities :=
  match current with
  | [] => []
  | (k, v) :: current' =>
      if priority_eqb key k then current'
      else (k, v) :: priority_del current' key
  end.

Definition priority_key (t : Target) : PriorityKey :=
  let '(item, quality, _) := t in (lower item, lower quality).

Definition target_amount (t : Target) : Z := snd t.

(** One round of [for item, quality, amount in add]. *)
Definition add_target (current : Priorities) (t : Target) : Priorities :=
  let key := priority_key t in
  priority_set current key
    (match priority_get current key with
     | Some v => v
     | None => 0
     end + target_amount t)%Z.

(** One round of [for item, quality, amount in remove]. *)
Definition remove_target (current : Priorities) (t : Target) : Priorities :=
  let key := priority_key t in
  match priority_get current key with
  | Some v =>
      let v' := Z.max (v - target_amount t) 0 in
      let current' := priority_set current key v' in
      if (v' =? 0)%Z then priority_del current' key else current'
  | None => current
  end.

(** The two loops of [modify_priorities] on the table read from the
    sheet; the result is what is written back. *)
Definition modify_priorities (current : Priorities) (add remove : list Target)
  : Priorities :=
  fold_left remove_target remove (fold_left add_target add current).

(** [stacked.get(key)]. *)
Fixpoint stacked_amount (stacked : list (BankerKey * Z)) (key : BankerKey)
  : option Z :=
  match stacked with
  | [] => None
  | (k, v) :: stacked' =>
      if key_eqb key k then Some v else stacked_amount stacked' key
  end.

End SheetsService.

(** The chunks as groups of blocks: the same loop as
    [SheetsService.chunk_loop], before the blocks of a chunk are joined. *)
Fixpoint group_loop (max_chars : Z) (blocks : list str)
    (groups : list (list str)) (current : list str) (current_len : Z)
  : list (list str) :=
  match blocks with
  | [] =>
      match current with
      | [] => groups
      | _ :: _ => groups ++ [current]
      end
  | b :: blocks' =>
      let blen := (Z.of_nat (length b) + 1)%Z in
      if match current with [] => false | _ :: _ => true end
         && (current_len + blen >? max_chars)%Z
      then group_loop max_chars blocks' (groups ++ [current]) [b] blen
      else group_loop max_chars blocks' groups (current ++ [b])
             (current_len + blen)%Z
  end.

(** The length that the loop keeps in [current_len]: every block and one
    newline for each. *)
Definition joined_len (current : list str) : Z :=
  fold_right (fun b acc => (Z.of_nat (length b) + 1 + acc)%Z) 0%Z current.

(** The first block alone exceeds the limit. *)
Definition first_block_oversize (blocks : list str) (max_chars : Z) : bool :=
  match blocks with
  | [] => false
  | b :: _ => (Z.of_nat (length b) + 1 >? max_chars)%Z
  end.

(** A group is within the limit, or is one block alone. *)
Definition group_ok (max_chars : Z) (g : list str) : Prop :=
  g <> [] /\ ((joined_len g <= max_chars)%Z \/ exists b, g = [b]).

(* ------------------------------------------------------------------ *)
(** * Further code: the audit command and the OCR review modal *)

(** bot/cogs/audit.py, [AuditCog.audit] from the formatting of the owned
    items on. *)
Module AuditCog.
Import Formatting Parsing.

(** Rows of the banker inventory as the command reads them:
    [(r["Item"], r["Quality"], int(r["Amount"]))], with text cells. *)
Definition Owned : Type := str * str * Z.

(** [a < b] on strings: by code points, a proper prefix first. *)
Fixpoint str_ltb (a b : str) : bool :=
  match a, b with
  | _, [] => false
  | [], _ :: _ => true
  | x :: a', y :: b' =>
      if x <? y then true else if y <? x then false else str_ltb a' b'
  end.

(** [t1 < t2] on the tuples. *)
Definition owned_ltb (t1 t2 : Owned) : bool :=
  let '(item1, q1, amt1) := t1 in
  let '(item2, q2, amt2) := t2 in
  if str_ltb item1 item2 then true
  else if str_ltb item2 item1 then false
  else if str_ltb q1 q2 then true
  else if str_ltb q2 q1 then false
  else (amt1 <? amt2)%Z.

Fixpoint insert_owned (t : Owned) (l : list Owned) : list Owned :=
  match l with
  | [] => [t]
  | u :: l' => if owned_ltb t u then t :: l else u :: insert_owned t l'
  end.

(** [sorted(owned)]. *)
Definition sorted (owned : list Owned) : list Owned :=
  fold_right insert_owned [] owned.

(** [f"{QUALITY_EMOJIS.get(q, '•')} {amt} × {item} ({q})"]. *)
Definition display_line (t : Owned) : str :=
  let '(item, q, amt) := t in
  dict_get QUALITY_EMOJIS q [bullet] ++ lit " " ++ str_of_int amt
    ++ [32; multiplication_sign; 32] ++ item ++ lit " (" ++ q ++ lit ")".

(** The chunks sent by the command, each with the [parsed_items] handed to
    its view. *)
Definition audit_chunks (owned : list Owned)
  : list (str * result (list ItemTuple)) :=
  let lines := map display_line (sorted owned) in
  let chunks := Chunking.chunk_message_blocks lines 1800 in
  map (fun chunk => (chunk, parse_audit_lines (splitlines_from [] chunk)))
    chunks.

End AuditCog.

(** bot/ui/views.py, [OCRReviewModal]. *)
Module Views.
Import Formatting Parsing.

(** [f"{q}"] for a quality that may be [None]. *)
Definition format_quality (q : option str) : str :=
  match q with
  | Some s => s
  | None => lit "None"
  end.

(** The text the modal is opened with. *)
Definition default_text (ocr_items : list ItemTuple) : str :=
  join [10]
    (map (fun t : ItemTuple =>
            let '(name, q, amt) := t in
            str_of_int amt ++ [32; multiplication_sign; 32] ++ name
              ++ lit " (" ++ format_quality q ++ lit ")")
       ocr_items).

(** The loop that builds [parsed_clean] (and [cleaned] in
    [OCRReviewButton.confirm]). *)
Definition clean (items : list ItemTuple) : list ItemTuple :=
  map (fun t : ItemTuple =>
         let '(item, quality, amount) := t in
         match quality with
         | Some (c :: q) => (item, Some (c :: q), amount)
         | _ => (item, Some (lit "Common"), amount)
         end)
    items.

(** [on_submit] up to [parsed_clean], for the text [value] of the input. *)
Definition on_submit (value : str) : result (list ItemTuple) :=
  let lines := splitlines_from [] (strip value) in
  parsed <- parse_user_lines lines ;;
  Ok (clean parsed).

End Views.

(** An owned row as a canonical item tuple. *)
Definition owned_item (t : AuditCog.Owned) : ItemTuple :=
  let '(item, q, amt) := t in (item, Some q, amt).

(** The text ["<digits> × <name> (<q>)"] shared by the rendered lines. *)
Definition core_line (digits name q : str) : str :=
  digits ++ 32 :: 215 :: 32 :: name ++ 32 :: 40 :: q ++ [41].

(** The part of [AUDIT_STRICT] after the opening parenthesis. *)
Definition audit_tail : Re.regex :=
  Re.Seq
    (Re.Group 3
       (Re.Alt (Re.word_ci (lit "Common"))
       (Re.Alt (Re.word_ci (lit "Uncommon"))
       (Re.Alt (Re.word_ci (lit "Rare"))
       (Re.Alt (Re.word_ci (lit "Heroic"))
       (Re.Alt (Re.word_ci (lit "Epic"))
               (Re.word_ci (lit "Legendary"))))))))
    (Re.Seq (Re.Chr (Re.one 41)) Re.Eol).

(** What makes a line parse as the record [(name, q, amount)]: it is
    stripped, and cleaning its front leaves the text
    ["<amount> × <name> (<q>)"]. *)
Definition renders (line name q : str) (amount : Z) : Prop :=
  line <> []
  /\ strip line = line
  /\ Re.sub_leading_nonword line = core_line (str_of_int amount) name q
  /\ forallb plain_char line = true.

(** The record carries a non-empty quality. *)
Definition has_quality (t : ItemTuple) : Prop :=
  exists c q, item_quality t = Some (c :: q).

(** A line and the owned row it displays. *)
Definition displays (line : str) (t : ItemTuple) : Prop :=
  exists name q amount,
    t = (name, Some q, amount)
    /\ round_trip_record t /\ renders line name q amount.

(** The token is a boundary marker, as the outer loop of [scan_items]
    tests it. *)
Definition starts_record (t : WordToken) : bool :=
  is_marker (rstrip_chars (lit ":") (lower (strip (text t)))).

(** The name the segmenter makes of the collected words, before title
    case. *)
Definition trimmed_name (item_words : list str) : str :=
  strip_chars (lit "[](){}") (trim_name (strip (join (lit " ") item_words))).

(** The record has a non-empty name and one of the six tiers. *)
Definition well_formed_record (t : ItemTuple) : Prop :=
  item_name t <> [] /\ exists q, item_quality t = Some q /\ In q TIERS.


(** CPython 3.11 converts between [int] and [str] up to 4300 digits
    ([sys.int_info.default_max_str_digits]) and raises [ValueError]
    beyond; [int] and [str_of_int] describe the conversions within that
    limit.  A text this short holds no longer run of digits. *)
Definition within_int_limit (s : str) : Prop := (length s <= 4300)%nat.

(** The amount is written with at most 4300 digits. *)
Definition convertible (t : ItemTuple) : Prop :=
  within_int_limit (str_of_int (item_amount t)).

(** The text fits the [max_length=4000] of the review modal's input. *)
Definition fits_input (value : str) : Prop := (length value <= 4000)%nat.
(** Sum of a list of integers. *)
Definition sum_Z (l : list Z) : Z := fold_right Z.add 0%Z l.

(** The amounts of the items stacked under [key]. *)
Definition amounts_for (banker_name : str) (key : SheetsService.BankerKey)
    (items : list ItemTuple) : list Z :=
  map item_amount
    (filter (fun t => SheetsService.key_eqb
                        (SheetsService.stack_key banker_name t) key)
       items).

(** The facts about lower-casing one character that normalisation relies
    on. *)
Definition lower_char_facts (c : char) : bool :=
  Bool.eqb (isword (lower_char c)) (isword c)
  && Bool.eqb (isspace (lower_char c)) (isspace c)
  && Bool.eqb (iscased (lower_char c)) (iscased c)
  && (lower_char (lower_char c) =? lower_char c)
  && str_eqb (title_char (lower_char c)) (title_char c).

(** The characters kept by [_norm_text]. *)
Definition norm_keeps (c : char) : bool := isword c || isspace c.


(** The amount the priorities table asks for under [key]; nothing when the
    key is absent. *)
Definition needed (current : SheetsService.Priorities)
    (key : SheetsService.PriorityKey) : Z :=
  match SheetsService.priority_get current key with
  | Some v => v
  | None => 0%Z
  end.

(** The total amount of the targets that fall under [key]. *)
Definition targets_for (key : SheetsService.PriorityKey)
    (targets : list SheetsService.Target) : Z :=
  sum_Z
    (map SheetsService.target_amount
       (filter (fun t => SheetsService.priority_eqb
                           (SheetsService.priority_key t) key)
          targets)).

(* ------------------------------------------------------------------ *)
(** * Quality normalisation and the lenient fallback *)

(** [parse_quality] looks at the first character only. *)
Lemma parse_quality_first_letter (token : str) (q0 : char) (q : str) :
  lower (strip token) = q0 :: q ->
  parse_quality token =
    match dict_find QUALITY_SHORTCUTS [q0] with
    | Some name => name
    | None => title (q0 :: q)
    end.
Proof.
  intros H. unfold parse_quality. rewrite H. reflexivity.
Qed.

(** C1, evaluated on the code: the token "ruby" is not a shortcut letter,
    yet [parse_quality] sends it through the shortcut table by its first
    letter and answers "Rare" instead of the title-cased "Ruby". *)
Theorem parse_quality_ruby :
  parse_quality (lit "ruby") = lit "Rare"
  /\ parse_quality (lit "ruby") <> title (lit "ruby").
Proof.
  split; [reflexivity | discriminate].
Qed.

(** C2, evaluated on the code: in the segment "copper ring" the last token
    is neither a shortcut letter nor a tier name, yet the fallback pops it
    as the quality "Rare" and keeps only "Copper" as the name. *)
Theorem user_fallback_copper_ring :
  parse_user_lines [lit "copper ring"]
    = Ok [(lit "Copper", Some (lit "Rare"), 1%Z)]
  /\ dict_has QUALITY_SHORTCUTS (lit "ring") = false
  /\ str_in (lit "ring") FULL_NAMES = false.
Proof.
  repeat split; vm_compute; reflexivity.
Qed.

(* ------------------------------------------------------------------ *)
(** * The strict audit parser *)

(** C7, evaluated on the code: the first token of the line "² Oak Wood"
    passes [isdigit], and [int] then raises [ValueError], so
    [parse_audit_lines] raises instead of omitting the line. *)
Theorem parse_audit_lines_raises :
  str_isdigit [superscript_two] = true
  /\ parse_audit_lines [superscript_two :: lit " Oak Wood"; lit "10 Oak Wood Heroic"]
     = Raise ValueError.
Proof.
  split; vm_compute; reflexivity.
Qed.

(* ------------------------------------------------------------------ *)
(** * The preview renderer *)

Lemma quality_label_nonempty (quality : option str) :
  quality_label quality <> [].
Proof.
  destruct quality as [[|c q]|]; discriminate.
Qed.

(** C10: a record whose quality is [None] or the empty string is rendered
    with the Common emoji and the label "(Common)"; whatever the quality,
    the label between the parentheses is never empty. *)
Theorem format_preview_empty_quality
    (items : list ItemTuple) (i : nat) (item : str) (quality : option str)
    (amount : Z) :
  nth_error items i = Some (item, quality, amount) ->
  quality = None \/ quality = Some [] ->
  nth_error (preview_lines items) i
    = Some ([white_circle] ++ lit " " ++ str_of_int amount
              ++ [32; multiplication_sign; 32] ++ item ++ lit " (Common)")
  /\ format_preview items = join [10] (preview_lines items)
  /\ Forall (fun t => quality_label (item_quality t) <> []) items.
Proof.
  intros Hnth Hq. split; [|split].
  - unfold preview_lines. rewrite nth_error_map, Hnth. simpl.
    destruct Hq as [-> | ->]; reflexivity.
  - reflexivity.
  - apply Forall_forall. intros t _. apply quality_label_nonempty.
Qed.

Lemma format_preview_empty_quality_witness :
  let items := [(lit "Oak Wood", Some (lit "Epic"), 10%Z);
                (lit "Tin", None, 3%Z)] in
  nth_error items 1 = Some (lit "Tin", None, 3%Z)
  /\ (nth_error (preview_lines items) 1
        = Some ([white_circle] ++ lit " " ++ str_of_int 3
                  ++ [32; multiplication_sign; 32] ++ lit "Tin"
                  ++ lit " (Common)")
      /\ format_preview items = join [10] (preview_lines items)
      /\ Forall (fun t => quality_label (item_quality t) <> []) items).
Proof.
  intros items. split; [reflexivity|].
  exact (format_preview_empty_quality items 1 (lit "Tin") None 3%Z
           eq_refl (or_introl eq_refl)).
Defined.

(* ------------------------------------------------------------------ *)
(** * The word-stream segmenter: name accumulation *)

Lemma collect_name_words (pre rest : list WordToken) :
  forall (words : list str) (boxes : list Box),
    Forall (fun t => name_word t = true) pre ->
    collect (pre ++ rest) words boxes
      = collect rest (words ++ map (fun t => strip (text t)) pre)
          (boxes ++ map box_of pre).
Proof.
  induction pre as [|t pre IH]; intros words boxes Hpre; simpl.
  - now rewrite !app_nil_r.
  - inversion Hpre as [|? ? Ht Hpre']; subst.
    unfold name_word, ends_record in Ht.
    apply andb_true_iff in Ht. destruct Ht as [Hend Hqty].
    apply negb_true_iff in Hend. apply negb_true_iff in Hqty.
    rewrite Hend, Hqty. rewrite IH by assumption.
    now rewrite <- !app_assoc.
Qed.

Lemma C3_stream_counterexample :
  let oak := word (lit "Oak") (10, 5, 30, 12)%Z in
  let blank := word (lit "") (44, 5, 0, 12)%Z in
  let wood := word (lit "Wood") (48, 5, 40, 12)%Z in
  let x5 := word (lit "x5") (92, 5, 16, 12)%Z in
  (ends_record blank = true
   /\ is_marker (rstrip_chars (lit ":") (strip (lower (strip (text blank)))))
      = false
   /\ quantity_token blank = false)
  /\ collect [oak; blank; wood; x5] [] []
     = Ok ([lit "Oak"], 1%Z, [box_of oak], [blank; wood; x5])
  /\ collect [oak; blank; wood; x5] [] []
     <> Ok ([lit "Oak"; lit ""; lit "Wood"], 5%Z,
            [box_of oak; box_of blank; box_of wood], []).
Proof.
  repeat split; try reflexivity. discriminate.
Qed.

(** C3, as the code has it: after a boundary marker, the tokens that are
    neither blank, nor a boundary marker, nor a quantity token are
    accumulated into the item name, in order and with their boxes, until
    the first token that is not such a name word.  The stream ending there
    ends the record with quantity 1; a blank token or a boundary marker
    ends it with quantity 1 and is left unconsumed; a quantity token
    [x<digits>] is consumed and sets the quantity. *)
Theorem collect_until_stop (pre rest : list WordToken) :
  Forall (fun t => name_word t = true) pre ->
  let words := map (fun t => strip (text t)) pre in
  let boxes := map box_of pre in
  (rest = [] ->
     collect (pre ++ rest) [] [] = Ok (words, 1%Z, boxes, []))
  /\ (forall t rest', rest = t :: rest' -> ends_record t = true ->
        collect (pre ++ rest) [] [] = Ok (words, 1%Z, boxes, t :: rest'))
  /\ (forall t rest', rest = t :: rest' -> quantity_token t = true ->
        collect (pre ++ rest) [] []
          = (amount <- int (tl (strip (text t))) ;;
             Ok (words, amount, boxes, rest'))).
Proof.
  intros Hpre words boxes.
  repeat split; intros; subst rest; rewrite collect_name_words by assumption;
    simpl.
  - reflexivity.
  - match goal with H : ends_record _ = true |- _ =>
      unfold ends_record in H; rewrite H end.
    reflexivity.
  - match goal with H : quantity_token _ = true |- _ =>
      unfold quantity_token, ends_record in H;
      apply andb_true_iff in H; destruct H as [Hend Hqty];
      apply negb_true_iff in Hend; rewrite Hend, Hqty end.
    reflexivity.
Qed.

Lemma collect_until_stop_witness :
  let oak := word (lit "Oak") (10, 5, 30, 12)%Z in
  let wood := word (lit "Wood") (48, 5, 40, 12)%Z in
  let x5 := word (lit "x5") (92, 5, 16, 12)%Z in
  let removed := word (lit "Removed:") (10, 25, 60, 12)%Z in
  Forall (fun t => name_word t = true) [oak; wood]
  /\ quantity_token x5 = true
  /\ collect [oak; wood; x5; removed] [] []
     = Ok ([lit "Oak"; lit "Wood"], 5%Z, [box_of oak; box_of wood], [removed]).
Proof.
  intros oak wood x5 removed.
  assert (Hpre : Forall (fun t => name_word t = true) [oak; wood])
    by (repeat constructor).
  split; [exact Hpre|]. split; [reflexivity|].
  destruct (collect_until_stop [oak; wood] [x5; removed] Hpre) as (_ & _ & H).
  exact (H x5 [removed] eq_refl eq_refl).
Defined.

(* ------------------------------------------------------------------ *)
(** * Amounts *)

Lemma digits_value_from_nonneg (s : str) :
  forall acc : Z,
    (0 <= acc)%Z ->
    (0 <= fold_left (fun a c => 10 * a + Z.of_N (c - 48)) s acc)%Z.
Proof.
  induction s as [|c s IH]; intros acc Hacc; cbn [fold_left].
  - assumption.
  - apply IH. lia.
Qed.

Lemma int_nonneg (s : str) (z : Z) : int s = Ok z -> (0 <= z)%Z.
Proof.
  unfold int. destruct (nonempty s && forallb isdecimal s); [|discriminate].
  intros [= <-]. now apply digits_value_from_nonneg.
Qed.

Lemma amounts_at_least_for_each {A} (lo : Z)
    (body : A -> result (list ItemTuple)) (xs : list A) :
  (forall x, amounts_at_least lo (body x)) ->
  amounts_at_least lo (for_each body xs).
Proof.
  intros Hbody. induction xs as [|x xs IH]; simpl.
  - constructor.
  - specialize (Hbody x). destruct (body x) as [ys|e]; simpl; [|exact I].
    destruct (for_each body xs) as [zs|e]; simpl; [|exact I].
    apply Forall_app. split; assumption.
Qed.

Lemma amounts_at_least_single (lo : Z) (item : str) (quality : option str)
    (amount : Z) :
  (lo <= amount)%Z -> amounts_at_least lo (Ok [(item, quality, amount)]).
Proof.
  intros H. repeat constructor. exact H.
Qed.

Lemma amounts_at_least_none (lo : Z) : amounts_at_least lo (Ok []).
Proof.
  constructor.
Qed.

Create HintDb amounts.

#[local] Hint Resolve amounts_at_least_single amounts_at_least_none : amounts.

Lemma user_fallback_amounts (segment : str) :
  amounts_at_least 0 (user_fallback segment).
Proof.
  unfold user_fallback.
  destruct (split segment) as [|t0 tokens']; [auto with amounts|].
  destruct (str_isdigit t0).
  - destruct (int t0) as [amount|e] eqn:Hint; simpl; [|exact I].
    apply int_nonneg in Hint.
    destruct tokens'; [auto with amounts|].
    match goal with |- context [if ?c then _ else _] => destruct c end;
      match goal with |- context [nonempty ?i] => destruct (nonempty i) end;
      auto with amounts.
  - simpl.
    match goal with |- context [if ?c then _ else _] => destruct c end;
      match goal with |- context [nonempty ?i] => destruct (nonempty i) end;
      auto with amounts; apply amounts_at_least_single; lia.
Qed.

Lemma user_segment_amounts (part : str) :
  amounts_at_least 0 (user_segment part).
Proof.
  unfold user_segment.
  destruct (negb (nonempty (strip part))); [auto with amounts|].
  destruct (Re.rmatch USER_STRICT _) as [m|].
  - destruct (int (Re.group 1 m)) as [amount|e] eqn:Hint; simpl; [|exact I].
    apply int_nonneg in Hint. auto with amounts.
  - apply user_fallback_amounts.
Qed.

Lemma audit_line_amounts (line : str) :
  amounts_at_least 0 (audit_line line).
Proof.
  unfold audit_line.
  destruct (negb (nonempty _)); [auto with amounts|].
  destruct (Re.rmatch AUDIT_STRICT _) as [m|].
  - destruct (int (Re.group 1 m)) as [amount|e] eqn:Hint; simpl; [|exact I].
    apply int_nonneg in Hint. auto with amounts.
  - destruct (_ <? 2)%nat; [auto with amounts|].
    destruct (negb (str_isdigit _)); [auto with amounts|].
    destruct (int _) as [amount|e] eqn:Hint; simpl; [|exact I].
    apply int_nonneg in Hint.
    match goal with |- context [if ?c then _ else _] => destruct c end;
      match goal with |- context [nonempty ?i] => destruct (nonempty i) end;
      auto with amounts.
Qed.

Lemma collect_amount (tokens : list WordToken) :
  forall words boxes words' amount boxes' rest,
    collect tokens words boxes = Ok (words', amount, boxes', rest) ->
    (0 <= amount)%Z.
Proof.
  induction tokens as [|t tokens IH]; intros words boxes words' amount boxes'
    rest; simpl.
  - intros [= _ <- _ _]. lia.
  - destruct (_ || _).
    + intros [= _ <- _ _]. lia.
    + destruct (is_quantity _).
      * destruct (int _) as [a|e] eqn:Hint; simpl; [|discriminate].
        intros [= _ <- _ _]. now apply int_nonneg in Hint.
      * apply IH.
Qed.

Lemma scan_from_amounts (image : Image) (fuel : nat) :
  forall tokens, amounts_at_least 0 (scan_from fuel image tokens).
Proof.
  induction fuel as [|fuel IH]; intros tokens; simpl.
  - destruct tokens; constructor.
  - destruct tokens as [|t tokens]; [constructor|].
    destruct (negb (is_marker _)); [apply IH|].
    destruct (collect tokens [] []) as [[[[words amount] boxes] rest]|e]
      eqn:Hc; simpl; [|exact I].
    apply collect_amount in Hc.
    destruct words as [|w words]; [apply IH|].
    destruct (negb (nonempty _)); [apply IH|].
    destruct (detect_quality_hsv _ _ _) as [quality|e]; simpl; [|exact I].
    specialize (IH rest).
    destruct (scan_from fuel image rest) as [more|e]; simpl; [|exact I].
    constructor; assumption.
Qed.

Lemma C4_zero_amount_counterexample :
  parse_user_lines [lit "0 copper ore"]
    = Ok [(lit "Copper Ore", Some (lit "Common"), 0%Z)]
  /\ ~ amounts_at_least 1 (parse_user_lines [lit "0 copper ore"]).
Proof.
  split; [vm_compute; reflexivity|].
  intros H. vm_compute in H. inversion H as [|? ? Hle _]; subst.
  apply Hle. reflexivity.
Qed.

(** C4, as the code has it: every record produced by the lenient parser,
    the strict audit parser or the word-stream segmenter has a quantity of
    at least 0; nothing excludes an explicit amount of zero. *)
Theorem produced_amounts_nonnegative
    (lines : list str) (image : Image) (data : list WordToken) :
  amounts_at_least 0 (parse_user_lines lines)
  /\ amounts_at_least 0 (parse_audit_lines lines)
  /\ amounts_at_least 0 (scan_items image data).
Proof.
  split; [|split].
  - apply amounts_at_least_for_each. intros line.
    apply amounts_at_least_for_each, user_segment_amounts.
  - apply amounts_at_least_for_each, audit_line_amounts.
  - apply scan_from_amounts.
Qed.

(* ------------------------------------------------------------------ *)
(** * The segmenter on the Oak Wood / Iron Ore stream *)

Lemma C8_quality_is_set_counterexample :
  let data :=
    [ word (lit "Acquired") (0, 0, 50, 10)%Z;
      word (lit "Oak") (54, 0, 20, 10)%Z;
      word (lit "Wood") (78, 0, 28, 10)%Z;
      word (lit "x5") (110, 0, 12, 10)%Z;
      word (lit "Removed") (0, 14, 50, 10)%Z;
      word (lit "Iron") (54, 14, 24, 10)%Z;
      word (lit "Ore") (82, 14, 20, 10)%Z ] in
  scan_items grey_image data
    = Ok [ (lit "Oak Wood", Some (lit "Common"), 5%Z);
           (lit "Iron Ore", Some (lit "Common"), 1%Z) ]
  /\ scan_items grey_image data
     <> Ok [ (lit "Oak Wood", None, 5%Z); (lit "Iron Ore", None, 1%Z) ].
Proof.
  split; [vm_compute; reflexivity | vm_compute; discriminate].
Qed.

(** C8, as the code has it: on the stream Acquired, Oak, Wood, x5, Removed,
    Iron, Ore the segmenter yields exactly two records in order, "Oak Wood"
    with quantity 5 and "Iron Ore" with quantity 1, whatever the boxes of
    the words; the quality of each record is already set, to the tier the
    colour classifier finds in the region around the record's name words. *)
Theorem scan_items_oak_iron (image : Image) (b0 b1 b2 b3 b4 b5 b6 : Box) :
  scan_items image
    [ word (lit "Acquired") b0; word (lit "Oak") b1; word (lit "Wood") b2;
      word (lit "x5") b3; word (lit "Removed") b4; word (lit "Iron") b5;
      word (lit "Ore") b6 ]
  = (oak_quality <-
       detect_quality_hsv (crop image (crop_box image [b1; b2]))
         default_sat_thresh default_val_thresh ;;
     iron_quality <-
       detect_quality_hsv (crop image (crop_box image [b5; b6]))
         default_sat_thresh default_val_thresh ;;
     Ok [ (lit "Oak Wood", Some oak_quality, 5%Z);
          (lit "Iron Ore", Some iron_quality, 1%Z) ]).
Proof.
  destruct b1 as [[[l1 t1] w1] h1], b2 as [[[l2 t2] w2] h2],
    b5 as [[[l5 t5] w5] h5], b6 as [[[l6 t6] w6] h6].
  unfold scan_items. cbn -[detect_quality_hsv crop_box].
  destruct (detect_quality_hsv _ _ _) as [oak_quality|e]; [|reflexivity].
  cbn -[detect_quality_hsv crop_box].
  destruct (detect_quality_hsv _ _ _) as [iron_quality|e]; reflexivity.
Qed.

(* ------------------------------------------------------------------ *)
(** * The region colour classifier *)







(* ------------------------------------------------------------------ *)
(** * The two OCR passes *)

(** C9: the OCR pass over the preprocessed image is started exactly when
    the segmenter returns an empty list for the first pass; a non-empty
    first result is returned after the first pass alone; an error of the
    OCR engine, in either pass, ends the pipeline with that same error and
    no further pass. *)
Theorem fallback_only_on_empty
    (image_to_data : Image -> result (list WordToken))
    (preprocess_image : Image -> Image) (image : Image) :
  let run := detect_items image_to_data preprocess_image image [] in
  (In PreprocessedPass (fst run)
   <-> exists data,
         image_to_data image = Ok data /\ scan_items image data = Ok [])
  /\ (forall data item items,
        image_to_data image = Ok data ->
        scan_items image data = Ok (item :: items) ->
        run = ([RawPass], Ok (item :: items)))
  /\ (forall e, image_to_data image = Raise e -> run = ([RawPass], Raise e))
  /\ (forall data e,
        image_to_data image = Ok data ->
        scan_items image data = Ok [] ->
        image_to_data (preprocess_image image) = Raise e ->
        run = ([RawPass; PreprocessedPass], Raise e))
  /\ (forall data data',
        image_to_data image = Ok data ->
        scan_items image data = Ok [] ->
        image_to_data (preprocess_image image) = Ok data' ->
        run = ([RawPass; PreprocessedPass],
               scan_items (preprocess_image image) data')).
Proof.
  unfold detect_items, tbind, run_ocr, lift, ret; simpl.
  destruct (image_to_data image) as [data|e] eqn:Hraw; simpl;
    [destruct (scan_items image data) as [[|item items]|e] eqn:Hscan; simpl;
     [destruct (image_to_data (preprocess_image image)) as [data'|e] eqn:Hpre;
      simpl| |] |].
  all: repeat split; intros.
  all: repeat match goal with
         | H : Ok _ = Ok _ |- _ => injection H as H; subst
         | H : _ \/ _ |- _ => destruct H
         | H : exists _, _ |- _ => destruct H
         | H : _ /\ _ |- _ => destruct H
         | H : False |- _ => destruct H
         end.
  all: try congruence; try discriminate; eauto.
Qed.

(* ------------------------------------------------------------------ *)
(** * Strings: stripping, splitting, printing and reading integers *)

Lemma firstn_app_length {A} (a b : list A) :
  firstn (length (a ++ b) - length b) (a ++ b) = a.
Proof.
  rewrite length_app.
  replace (length a + length b - length b)%nat with (length a + 0)%nat by lia.
  rewrite firstn_app_2. simpl. apply app_nil_r.
Qed.

Lemma lstrip_by_length (p : char -> bool) (s : str) :
  (length (lstrip_by p s) <= length s)%nat.
Proof.
  induction s as [|c s IH]; simpl; [lia|].
  destruct (p c); simpl; lia.
Qed.

Lemma rstrip_by_length (p : char -> bool) (s : str) :
  (length (rstrip_by p s) <= length s)%nat.
Proof.
  unfold rstrip_by. rewrite length_rev.
  etransitivity; [apply lstrip_by_length|]. now rewrite length_rev.
Qed.

Lemma rstrip_by_last (p : char -> bool) (s : str) (z : char) :
  p z = false -> rstrip_by p (s ++ [z]) = s ++ [z].
Proof.
  intros Hz. unfold rstrip_by. rewrite rev_app_distr. simpl. rewrite Hz.
  change (z :: rev s) with (rev [z] ++ rev s).
  now rewrite <- rev_app_distr, rev_involutive.
Qed.

Lemma strip_by_fixed (p : char -> bool) (c z : char) (s : str) :
  p c = false -> p z = false ->
  strip_by p (c :: s ++ [z]) = c :: s ++ [z].
Proof.
  intros Hc Hz. unfold strip_by. simpl. rewrite Hc.
  change (c :: s ++ [z]) with ((c :: s) ++ [z]). now apply rstrip_by_last.
Qed.

(** A non-empty string left unchanged by stripping starts and ends with a
    character that is not stripped. *)
Lemma strip_by_fixed_ends (p : char -> bool) (s : str) :
  s <> [] -> strip_by p s = s ->
  (exists c s', s = c :: s' /\ p c = false)
  /\ (exists b z, s = b ++ [z] /\ p z = false).
Proof.
  intros Hne Hfix.
  assert (Hl : lstrip_by p s = s).
  { destruct s as [|c s']; [congruence|]. simpl in *.
    destruct (p c) eqn:Hc; [|reflexivity].
    exfalso. unfold strip_by in Hfix. simpl in Hfix. rewrite Hc in Hfix.
    pose proof (rstrip_by_length p (lstrip_by p s')) as H1.
    pose proof (lstrip_by_length p s') as H2.
    rewrite Hfix in H1. simpl in H1. lia. }
  split.
  - destruct s as [|c s']; [congruence|]. exists c, s'. split; [reflexivity|].
    simpl in Hl. destruct (p c) eqn:Hc; [|reflexivity].
    exfalso. pose proof (lstrip_by_length p s') as H. rewrite Hl in H.
    simpl in H. lia.
  - unfold strip_by in Hfix. rewrite Hl in Hfix. unfold rstrip_by in Hfix.
    destruct (exists_last Hne) as (b & z & ->). exists b, z.
    split; [reflexivity|].
    rewrite rev_app_distr in Hfix. simpl in Hfix.
    destruct (p z) eqn:Hz; [|reflexivity].
    exfalso. apply (f_equal (@length N)) in Hfix.
    rewrite length_rev, length_app in Hfix. simpl in Hfix.
    pose proof (lstrip_by_length p (rev b)) as H. rewrite length_rev in H. lia.
Qed.

Lemma split_at_no_separator (sep : char -> bool) (s : str) :
  forallb (fun c => negb (sep c)) s = true -> split_at sep s = [s].
Proof.
  induction s as [|c s IH]; simpl; [reflexivity|].
  intros H. apply andb_true_iff in H. destruct H as [Hc Hs].
  rewrite (IH Hs). apply negb_true_iff in Hc. now rewrite Hc.
Qed.

Lemma digits_of_spec (fuel : nat) :
  forall (n : N) (acc : str),
    n < 2 ^ N.of_nat (S fuel) ->
    exists ds,
      digits_of (S fuel) n acc = ds ++ acc
      /\ ds <> []
      /\ forallb isdecimal ds = true
      /\ forall z0,
           fold_left digit_step ds z0
           = (z0 * 10 ^ Z.of_nat (length ds) + Z.of_N n)%Z.
Proof.
  induction fuel as [|fuel IH]; intros n acc Hn.
  - assert (Hlt : n < 10) by (change (2 ^ N.of_nat 1) with 2 in Hn; lia).
    cbn [digits_of]. apply N.ltb_lt in Hlt as Hb. rewrite Hb.
    exists [48 + n]. repeat split.
    + discriminate.
    + cbn [forallb]. unfold isdecimal, between.
      rewrite andb_true_r, andb_true_iff, !N.leb_le. lia.
    + intros z0. cbn [fold_left length]. unfold digit_step.
      change (10 ^ Z.of_nat 1)%Z with 10%Z. lia.
  - cbn [digits_of]. destruct (n <? 10) eqn:Hb.
    + apply N.ltb_lt in Hb. exists [48 + n]. repeat split.
      * discriminate.
      * cbn [forallb]. unfold isdecimal, between.
        rewrite andb_true_r, andb_true_iff, !N.leb_le. lia.
      * intros z0. cbn [fold_left length]. unfold digit_step.
        change (10 ^ Z.of_nat 1)%Z with 10%Z. lia.
    + apply N.ltb_ge in Hb.
      assert (Hdiv : n / 10 < 2 ^ N.of_nat (S fuel)).
      { rewrite Nat2N.inj_succ, N.pow_succ_r' in Hn.
        apply N.Div0.div_lt_upper_bound. lia. }
      assert (Hsplit : n = 10 * (n / 10) + n mod 10)
        by (apply N.div_mod; discriminate).
      assert (Hmod : n mod 10 < 10)
        by (apply N.mod_upper_bound; discriminate).
      revert Hdiv Hsplit Hmod.
      generalize (n / 10) (n mod 10). intros q m Hdiv Hsplit Hmod.
      destruct (IH q ((48 + m) :: acc) Hdiv)
        as (ds & Heq & Hne & Hdec & Hval).
      exists (ds ++ [48 + m]). repeat split.
      * cbn [digits_of] in Heq |- *. rewrite Heq. now rewrite <- app_assoc.
      * destruct ds; discriminate.
      * rewrite forallb_app. apply andb_true_iff. split; [exact Hdec|].
        cbn [forallb]. unfold isdecimal, between.
        rewrite andb_true_r, andb_true_iff, !N.leb_le. lia.
      * intros z0. rewrite fold_left_app, Hval. cbn [fold_left].
        unfold digit_step. rewrite length_app. cbn [length].
        rewrite Nat.add_1_r, Nat2Z.inj_succ, Z.pow_succ_r by lia.
        replace (48 + m - 48) with m by lia. lia.
Qed.

(** Printing a non-negative integer gives decimal digits that [int] reads
    back. *)
Lemma str_of_int_digits (n : Z) :
  (0 <= n)%Z ->
  str_of_int n <> []
  /\ forallb isdecimal (str_of_int n) = true
  /\ int (str_of_int n) = Ok n.
Proof.
  intros Hn.
  assert (Hfuel : Z.to_N n < 2 ^ N.of_nat (S (N.to_nat (N.log2 (Z.to_N n))))).
  { rewrite Nat2N.inj_succ, N2Nat.id.
    destruct (N.eq_dec (Z.to_N n) 0) as [->|Hpos]; [reflexivity|].
    apply N.log2_spec. lia. }
  destruct (digits_of_spec _ _ [] Hfuel) as (ds & Heq & Hne & Hdec & Hval).
  rewrite app_nil_r in Heq.
  assert (Hstr : str_of_int n = ds).
  { unfold str_of_int. destruct n; try exact Heq. lia. }
  rewrite Hstr. split; [exact Hne|]. split; [exact Hdec|].
  unfold int. rewrite Hdec.
  destruct ds as [|d ds]; [congruence|]. cbn [nonempty andb].
  unfold digits_value. change (fun acc c => (10 * acc + Z.of_N (c - 48))%Z)
    with digit_step.
  rewrite Hval. f_equal. lia.
Qed.

(* ------------------------------------------------------------------ *)
(** * Matching: repetitions over a character class *)

Section Repetition.
Import Re.

Lemma class_step_cons (p : char -> bool) (c : char) (s : str) (g : groups)
    (k : str -> groups -> option groups) :
  class_step p (c :: s) g k = if p c then k s g else None.
Proof.
  reflexivity.
Qed.

Lemma class_step_nil (p : char -> bool) (g : groups)
    (k : str -> groups -> option groups) :
  class_step p [] g k = None.
Proof.
  reflexivity.
Qed.

(** A greedy repetition takes the whole run when the rest of the pattern
    matches after it. *)
Lemma star_loop_greedy_run (p : char -> bool) (xs : str) :
  forall (fuel : nat) (rest : str) (g : groups)
         (k : str -> groups -> option groups) (r : groups),
    forallb p xs = true ->
    stops_at p rest ->
    (length xs <= fuel)%nat ->
    k rest g = Some r ->
    star_loop true (class_step p) k fuel (xs ++ rest) g = Some r.
Proof.
  induction xs as [|x xs IH]; intros fuel rest g k r Hxs Hstop Hfuel Hk.
  - cbn [app]. destruct fuel as [|fuel]; cbn [star_loop]; [exact Hk|].
    destruct rest as [|c rest].
    + rewrite class_step_nil. exact Hk.
    + rewrite class_step_cons. cbn [stops_at] in Hstop. rewrite Hstop.
      exact Hk.
  - destruct fuel as [|fuel]; [cbn [length] in Hfuel; lia|].
    cbn [forallb] in Hxs. apply andb_true_iff in Hxs. destruct Hxs as [Hx Hxs].
    cbn [app star_loop]. rewrite class_step_cons, Hx.
    replace (length (xs ++ rest) <? length (x :: xs ++ rest))%nat with true
      by (symmetry; apply Nat.ltb_lt; cbn [length]; lia).
    rewrite (IH fuel rest g k r Hxs Hstop); [reflexivity | | exact Hk].
    cbn [length] in Hfuel. lia.
Qed.

(** A lazy repetition stops at the first position from which the rest of
    the pattern matches. *)
Lemma star_loop_lazy_run (p : char -> bool) (xs : str) :
  forall (fuel : nat) (rest : str) (g : groups)
         (k : str -> groups -> option groups) (r : groups),
    forallb p xs = true ->
    (length xs <= fuel)%nat ->
    (forall pre suf, xs = pre ++ suf -> suf <> [] ->
                     k (suf ++ rest) g = None) ->
    k rest g = Some r ->
    star_loop false (class_step p) k fuel (xs ++ rest) g = Some r.
Proof.
  induction xs as [|x xs IH]; intros fuel rest g k r Hxs Hfuel Hfail Hk.
  - cbn [app]. destruct fuel as [|fuel]; cbn [star_loop]; [exact Hk|].
    rewrite Hk. reflexivity.
  - destruct fuel as [|fuel]; [cbn [length] in Hfuel; lia|].
    cbn [forallb] in Hxs. apply andb_true_iff in Hxs. destruct Hxs as [Hx Hxs].
    cbn [star_loop].
    rewrite (Hfail [] (x :: xs) eq_refl) by discriminate.
    cbn [orelse app]. rewrite class_step_cons, Hx.
    replace (length (xs ++ rest) <? length (x :: xs ++ rest))%nat with true
      by (symmetry; apply Nat.ltb_lt; cbn [length]; lia).
    apply IH; [exact Hxs | cbn [length] in Hfuel; lia | | exact Hk].
    intros pre suf -> Hsuf. apply (Hfail (x :: pre) suf); [reflexivity|].
    exact Hsuf.
Qed.

Lemma no_lparen_ahead_head (s : str) :
  no_lparen_ahead s -> forall t, s <> 40 :: t.
Proof.
  intros H t ->. unfold no_lparen_ahead in H. cbn in H. now apply H.
Qed.

(** White space followed by an opening parenthesis does not match where no
    parenthesis lies ahead. *)
Lemma star_loop_spaces_blocked (k : str -> groups -> option groups) :
  (forall s g, (forall t, s <> 40 :: t) -> k s g = None) ->
  forall (fuel : nat) (s : str) (g : groups),
    no_lparen_ahead s ->
    star_loop true (class_step isspace) k fuel s g = None.
Proof.
  intros Hk fuel. induction fuel as [|fuel IH]; intros s g Hs; cbn [star_loop].
  - apply Hk. now apply no_lparen_ahead_head.
  - assert (Hhere : k s g = None) by (apply Hk; now apply no_lparen_ahead_head).
    destruct s as [|c s].
    + rewrite class_step_nil. exact Hhere.
    + rewrite class_step_cons.
      destruct (isspace c) eqn:Hc; [|exact Hhere].
      destruct (length s <? length (c :: s))%nat; [|exact Hhere].
      rewrite IH; [exact Hhere|].
      unfold no_lparen_ahead in Hs |- *. cbn [lstrip_by] in Hs.
      now rewrite Hc in Hs.
Qed.

Lemma no_lparen_ahead_inside (suf : str) (z : char) (tail : str) :
  Forall (fun c => c <> 40) suf ->
  isspace z = false -> z <> 40 ->
  no_lparen_ahead (suf ++ z :: tail).
Proof.
  intros Hsuf Hz Hz'. unfold no_lparen_ahead.
  induction Hsuf as [|c suf Hc Hsuf IH]; cbn [app lstrip_by].
  - rewrite Hz. exact Hz'.
  - destruct (isspace c); [exact IH | exact Hc].
Qed.

End Repetition.

(* ------------------------------------------------------------------ *)
(** * Matching a rendered line against the strict pattern *)

Section UserStrict.
Import Re.

Lemma not_char_neq (x c : char) : not_char x c = true -> c <> x.
Proof.
  unfold not_char. intros H. apply negb_true_iff in H. now apply N.eqb_neq.
Qed.

Lemma forallb_and_split (p1 p2 : char -> bool) (s : str) :
  forallb (fun c => p1 c && p2 c) s = true ->
  forallb p1 s = true /\ forallb p2 s = true.
Proof.
  induction s as [|c s IH]; cbn [forallb]; [auto|].
  rewrite !andb_true_iff. intros [[H1 H2] Hs]. destruct (IH Hs). auto.
Qed.

Lemma length_le_app (a b : str) : (length a <= length (a ++ b))%nat.
Proof.
  rewrite length_app. apply Nat.le_add_r.
Qed.

Lemma run_seq (a b : regex) (total : nat) (s : str) (g : groups)
    (k : str -> groups -> option groups) :
  run (Seq a b) total s g k
  = run a total s g (fun s' g' => run b total s' g' k).
Proof.
  reflexivity.
Qed.

Lemma run_star_class (greedy : bool) (p : char -> bool) (total : nat)
    (s : str) (g : groups) (k : str -> groups -> option groups) :
  run (Star greedy (Chr p)) total s g k
  = star_loop greedy (class_step p) k (length s) s g.
Proof.
  reflexivity.
Qed.

Lemma run_chr (p : char -> bool) (total : nat) (s : str) (g : groups)
    (k : str -> groups -> option groups) :
  run (Chr p) total s g k = class_step p s g k.
Proof.
  reflexivity.
Qed.

Lemma run_group (i : nat) (r : regex) (total : nat) (s : str) (g : groups)
    (k : str -> groups -> option groups) :
  run (Group i r) total s g k
  = run r total s g
      (fun s' g' => k s' ((i, firstn (length s - length s') s) :: g')).
Proof.
  reflexivity.
Qed.

Lemma run_bol (total : nat) (s : str) (g : groups)
    (k : str -> groups -> option groups) :
  run Bol total s g k = if (length s =? total)%nat then k s g else None.
Proof.
  reflexivity.
Qed.

(** The closing part of both strict patterns on ["q)"]. *)
Lemma match_quality_tail (total : nat) (q : str) (g : groups) :
  q <> [] ->
  forallb (fun c => not_char 41 c && not_char 10 c) q = true ->
  run (Cat [Group 3 (Plus false (Chr any_but_newline)); Chr (one 41); Eol])
    total (q ++ [41]) g final
  = Some ((3%nat, q) :: g).
Proof.
  intros Hne Hq. destruct q as [|q0 qs]; [congruence|].
  cbn [forallb] in Hq. apply andb_true_iff in Hq. destruct Hq as [Hq0 Hqs].
  apply andb_true_iff in Hq0. destruct Hq0 as [Hq0 Hq0'].
  apply forallb_and_split in Hqs. destruct Hqs as [Hqs Hqs'].
  cbn [Cat app]. unfold Plus. rewrite run_seq, run_group, run_seq, run_chr.
  rewrite class_step_cons.
  change (any_but_newline q0) with (not_char 10 q0). rewrite Hq0'.
  rewrite run_star_class.
  apply (star_loop_lazy_run any_but_newline qs).
  - exact Hqs'.
  - apply length_le_app.
  - intros pre suf -> Hsuf. destruct suf as [|c suf]; [congruence|].
    cbn [app]. rewrite forallb_app in Hqs. apply andb_true_iff in Hqs.
    destruct Hqs as [_ Hc]. cbn [forallb] in Hc.
    apply andb_true_iff in Hc. destruct Hc as [Hc _].
    apply not_char_neq, N.eqb_neq in Hc. cbv beta.
    rewrite run_seq, run_chr, class_step_cons. unfold one. now rewrite Hc.
  - cbv beta. rewrite run_seq, run_chr, class_step_cons.
    cbn [one N.eqb Pos.eqb run at_end]. unfold final. do 2 f_equal. f_equal.
    change (q0 :: qs ++ [41]) with ((q0 :: qs) ++ [41]).
    apply firstn_app_length.
Qed.

(** The part of the pattern after the item name, on [" (q)"]. *)
Lemma match_after_name (total : nat) (q : str) (g : groups) :
  q <> [] ->
  forallb (fun c => not_char 41 c && not_char 10 c) q = true ->
  run (Cat [Star true (Chr isspace); Chr (one 40);
            Group 3 (Plus false (Chr any_but_newline)); Chr (one 41); Eol])
    total (32 :: 40 :: q ++ [41]) g final
  = Some ((3%nat, q) :: g).
Proof.
  intros Hne Hq.
  change (Cat [Star true (Chr isspace); Chr (one 40);
               Group 3 (Plus false (Chr any_but_newline)); Chr (one 41); Eol])
    with (Seq (Star true (Chr isspace))
            (Seq (Chr (one 40))
               (Cat [Group 3 (Plus false (Chr any_but_newline));
                     Chr (one 41); Eol]))).
  rewrite run_seq, run_star_class.
  apply (star_loop_greedy_run isspace [32] _ (40 :: q ++ [41])).
  - reflexivity.
  - reflexivity.
  - apply (length_le_app [32]).
  - cbv beta. rewrite run_seq, run_chr, class_step_cons.
    cbn [one N.eqb Pos.eqb]. now apply match_quality_tail.
Qed.

(** The same part fails in front of any text with no parenthesis ahead. *)
Lemma no_match_inside_name (total : nat) (s : str) (g : groups) :
  no_lparen_ahead s ->
  run (Cat [Star true (Chr isspace); Chr (one 40);
            Group 3 (Plus false (Chr any_but_newline)); Chr (one 41); Eol])
    total s g final
  = None.
Proof.
  intros Hs.
  change (Cat [Star true (Chr isspace); Chr (one 40);
               Group 3 (Plus false (Chr any_but_newline)); Chr (one 41); Eol])
    with (Seq (Star true (Chr isspace))
            (Seq (Chr (one 40))
               (Cat [Group 3 (Plus false (Chr any_but_newline));
                     Chr (one 41); Eol]))).
  rewrite run_seq, run_star_class.
  apply star_loop_spaces_blocked; [|exact Hs].
  intros s' g' Hhead. cbv beta. rewrite run_seq, run_chr.
  destruct s' as [|c s']; [reflexivity|]. rewrite class_step_cons.
  unfold one. destruct (c =? 40) eqn:Hc; [|reflexivity].
  apply N.eqb_eq in Hc. subst c. now destruct (Hhead s').
Qed.

(** The strict pattern of the lenient parser on ["<digits> × <name> (<q>)"]:
    the groups are the digits, the name and the quality. *)
Lemma user_strict_match (d0 : char) (ds : str) (n0 : char) (ns body : str)
    (z : char) (q : str) :
  forallb isdecimal (d0 :: ds) = true ->
  isspace n0 = false ->
  n0 :: ns = body ++ [z] ->
  isspace z = false ->
  forallb (fun c => not_char 40 c && not_char 10 c) (n0 :: ns) = true ->
  q <> [] ->
  forallb (fun c => not_char 41 c && not_char 10 c) q = true ->
  rmatch USER_STRICT
    ((d0 :: ds) ++ 32 :: 215 :: 32 :: (n0 :: ns) ++ 32 :: 40 :: q ++ [41])
  = Some [(3%nat, q); (2%nat, n0 :: ns); (1%nat, d0 :: ds)].
Proof.
  intros Hdigits Hn0 Hlast Hz Hname Hq Hqchars.
  cbn [forallb] in Hdigits. apply andb_true_iff in Hdigits.
  destruct Hdigits as [Hd0 Hds].
  apply forallb_and_split in Hname. destruct Hname as [Hparen Hnewline].
  set (after_name := 32 :: 40 :: q ++ [41]).
  set (from_name := (n0 :: ns) ++ after_name).
  unfold rmatch. set (total := length _).
  change USER_STRICT with
    (Seq Bol
       (Seq (Group 1 (Seq (Chr isdecimal) (Star true (Chr isdecimal))))
          (Seq (Star true (Chr isspace))
             (Seq (Chr x_or_times)
                (Seq (Star true (Chr isspace))
                   (Seq (Group 2 (Seq (Chr any_but_newline)
                                    (Star false (Chr any_but_newline))))
                      (Cat [Star true (Chr isspace); Chr (one 40);
                            Group 3 (Plus false (Chr any_but_newline));
                            Chr (one 41); Eol]))))))).
  (* ^ *)
  rewrite run_seq, run_bol. unfold total at 1. rewrite Nat.eqb_refl.
  (* (\d+) *)
  rewrite run_seq, run_group, run_seq, run_chr. cbn [app].
  rewrite class_step_cons, Hd0, run_star_class.
  apply (star_loop_greedy_run isdecimal ds _ (32 :: 215 :: 32 :: from_name));
    [exact Hds | reflexivity | apply length_le_app |].
  cbv beta.
  change (d0 :: ds ++ 32 :: 215 :: 32 :: from_name)
    with ((d0 :: ds) ++ 32 :: 215 :: 32 :: from_name).
  rewrite firstn_app_length.
  (* \s*[x×]\s* *)
  rewrite run_seq, run_star_class.
  apply (star_loop_greedy_run isspace [32] _ (215 :: 32 :: from_name));
    [reflexivity | reflexivity | apply (length_le_app [32]) |].
  cbv beta. rewrite run_seq, run_chr, class_step_cons.
  change (x_or_times 215) with true. cbv iota.
  rewrite run_seq, run_star_class.
  apply (star_loop_greedy_run isspace [32] _ from_name);
    [reflexivity | exact Hn0 | apply (length_le_app [32]) |].
  cbv beta.
  (* (.+?) *)
  rewrite run_seq, run_group, run_seq, run_chr.
  unfold from_name at 1. cbn [app]. rewrite class_step_cons.
  cbn [forallb] in Hnewline. apply andb_true_iff in Hnewline.
  destruct Hnewline as [Hn0' Hns'].
  change (any_but_newline n0) with (not_char 10 n0). rewrite Hn0'.
  rewrite run_star_class.
  apply (star_loop_lazy_run any_but_newline ns);
    [exact Hns' | apply length_le_app | |].
  - intros pre suf Hns Hsuf. cbv beta.
    apply no_match_inside_name.
    destruct (exists_last Hsuf) as (suf' & z' & ->).
    assert (Hz' : z' = z /\ n0 :: pre ++ suf' = body).
    { rewrite Hns in Hlast.
      change (n0 :: pre ++ suf' ++ [z']) with ((n0 :: pre) ++ suf' ++ [z'])
        in Hlast.
      rewrite app_assoc in Hlast. apply app_inj_tail in Hlast.
      destruct Hlast as [<- <-]. split; reflexivity. }
    destruct Hz' as [-> _].
    rewrite <- app_assoc. cbn [app].
    apply no_lparen_ahead_inside; [| exact Hz |].
    + apply Forall_forall. intros c Hc.
      assert (Hin : In c (n0 :: ns)).
      { right. rewrite Hns. apply in_or_app. right. apply in_or_app.
        now left. }
      rewrite forallb_forall in Hparen. now apply not_char_neq, Hparen.
    + assert (Hin : In z (n0 :: ns))
        by (rewrite Hlast; apply in_or_app; right; now left).
      rewrite forallb_forall in Hparen. now apply not_char_neq, Hparen.
  - cbv beta. fold from_name.
    unfold from_name. rewrite firstn_app_length.
    unfold after_name. now apply match_after_name.
Qed.

End UserStrict.

(* ------------------------------------------------------------------ *)
(** * The strict audit parser on lines without superscript digits *)

Section AuditTotal.
Import Re.

Lemma lstrip_by_incl (p : char -> bool) (s : str) (c : char) :
  In c (lstrip_by p s) -> In c s.
Proof.
  induction s as [|x s IH]; cbn [lstrip_by]; [auto|].
  destruct (p x); [intros H; right; auto | auto].
Qed.

Lemma rstrip_by_incl (p : char -> bool) (s : str) (c : char) :
  In c (rstrip_by p s) -> In c s.
Proof.
  unfold rstrip_by. intros H. apply in_rev in H.
  apply lstrip_by_incl in H. now apply in_rev.
Qed.

Lemma strip_by_incl (p : char -> bool) (s : str) (c : char) :
  In c (strip_by p s) -> In c s.
Proof.
  unfold strip_by. intros H. now apply rstrip_by_incl, lstrip_by_incl in H.
Qed.

Lemma split_spaces_from_incl (s : str) :
  forall (cur : str) (in_gap : bool) (t : str) (c : char),
    In t (split_spaces_from cur in_gap s) -> In c t ->
    In c s \/ In c cur.
Proof.
  induction s as [|x s IH]; intros cur in_gap t c Ht Hc;
    cbn [split_spaces_from] in Ht.
  - destruct in_gap; destruct Ht as [<-|[]]; [destruct Hc|].
    right. now apply in_rev.
  - destruct (isspace x).
    + destruct in_gap.
      * destruct (IH _ _ _ _ Ht Hc); [left; now right | now right].
      * destruct Ht as [<-|Ht]; [right; now apply in_rev|].
        destruct (IH _ _ _ _ Ht Hc) as [H|[]]. left; now right.
    + destruct (IH _ _ _ _ Ht Hc) as [H|[<-|H]];
        [left; now right | left; now left | now right].
Qed.

Lemma safe_digits_decimal (t : str) :
  str_isdigit t = true ->
  (forall c, In c t -> safe_digit c = true) ->
  nonempty t && forallb isdecimal t = true.
Proof.
  unfold str_isdigit. rewrite !andb_true_iff. intros [Hne Hdigit] Hsafe.
  split; [exact Hne|]. apply forallb_forall. intros c Hc.
  rewrite forallb_forall in Hdigit. specialize (Hdigit c Hc).
  specialize (Hsafe c Hc). unfold safe_digit in Hsafe.
  now rewrite Hdigit in Hsafe.
Qed.

(** A repetition over a class consumes characters of the class only. *)
Lemma star_loop_class_inv (greedy : bool) (p : char -> bool)
    (k : str -> groups -> option groups) (res : groups) :
  forall (fuel : nat) (s : str) (g : groups),
    star_loop greedy (class_step p) k fuel s g = Some res ->
    exists xs rest,
      s = xs ++ rest /\ forallb p xs = true /\ k rest g = Some res.
Proof.
  induction fuel as [|fuel IH]; intros s g; cbn [star_loop].
  - intros H. now exists [], s.
  - assert (Hagain :
      class_step p s g
        (fun s' g' =>
           if (length s' <? length s)%nat
           then star_loop greedy (class_step p) k fuel s' g' else None)
      = Some res ->
      exists xs rest,
        s = xs ++ rest /\ forallb p xs = true /\ k rest g = Some res).
    { destruct s as [|c s]; [discriminate|]. rewrite class_step_cons.
      destruct (p c) eqn:Hc; [|discriminate].
      destruct (length s <? length (c :: s))%nat; [|discriminate].
      intros H. destruct (IH _ _ H) as (xs & rest & -> & Hxs & Hk).
      exists (c :: xs), rest. cbn [forallb app]. now rewrite Hc, Hxs. }
    destruct greedy; cbn [orelse].
    + destruct (class_step p s g _) eqn:Hstep; cbn [orelse].
      * intros [= <-]. now apply Hagain.
      * intros H. now exists [], s.
    + destruct (k s g) eqn:Hk; cbn [orelse].
      * intros [= <-]. now exists [], s.
      * exact Hagain.
Qed.

(** A pattern without the group [i] leaves the binding of [i] alone. *)
Lemma run_keeps_group (i : nat) (value : str) (res : groups) (r : regex) :
  mentions_group i r = false ->
  forall (total : nat) (s : str) (g : groups)
         (k : str -> groups -> option groups),
    (forall s' g', group i g' = value -> k s' g' = Some res ->
                   group i res = value) ->
    group i g = value ->
    run r total s g k = Some res ->
    group i res = value.
Proof.
  induction r as [|p|a IHa b IHb|a IHa b IHb|greedy r0 IH|j r0 IH| |];
    cbn [mentions_group]; intros Hno total s g k Hk Hg; cbn [run].
  - now apply Hk.
  - destruct s as [|c s]; [discriminate|]. destruct (p c); [|discriminate].
    now apply Hk.
  - apply orb_false_iff in Hno. destruct Hno as [Ha Hb].
    apply (IHa Ha); [|exact Hg]. intros s' g' Hg'. now apply (IHb Hb).
  - apply orb_false_iff in Hno. destruct Hno as [Ha Hb].
    destruct (run a total s g k) eqn:Hrun; cbn [orelse].
    + intros [= <-]. now apply (IHa Ha total s g k).
    + now apply (IHb Hb).
  - generalize (length s) at 1. intros fuel. revert s g Hg.
    induction fuel as [|fuel IHfuel]; intros s g Hg; cbn [star_loop].
    + now apply Hk.
    + assert (Hagain :
        run r0 total s g
          (fun s' g' =>
             if (length s' <? length s)%nat
             then star_loop greedy (run r0 total) k fuel s' g' else None)
        = Some res -> group i res = value).
      { apply (IH Hno); [|exact Hg]. intros s' g' Hg'.
        destruct (length s' <? length s)%nat; [|discriminate].
        now apply IHfuel. }
      destruct greedy; cbn [orelse].
      * destruct (run r0 total s g _) eqn:Hrun; cbn [orelse].
        -- intros [= <-]. now apply Hagain.
        -- now apply Hk.
      * destruct (k s g) eqn:Hks; cbn [orelse].
        -- intros [= <-]. now apply (Hk s g).
        -- exact Hagain.
  - apply orb_false_iff in Hno. destruct Hno as [Hij Hr0].
    apply (IH Hr0); [|exact Hg]. intros s' g' Hg'. apply Hk.
    cbn [group]. now rewrite Hij.
  - destruct (length s =? total)%nat; [|discriminate]. now apply Hk.
  - destruct (at_end s); [|discriminate]. now apply Hk.
Qed.

(** In a match of a pattern that starts with [^(\d+)] and has no other
    group 1, group 1 is a non-empty string of decimal digits. *)
Lemma leading_amount_is_decimal (rest : regex) (subject : str) (m : groups) :
  mentions_group 1 rest = false ->
  rmatch
    (Seq Bol (Seq (Group 1 (Plus true (Chr isdecimal))) rest)) subject
  = Some m ->
  nonempty (group 1 m) && forallb isdecimal (group 1 m) = true.
Proof.
  intros Hno. unfold rmatch, Plus.
  rewrite run_seq, run_bol, Nat.eqb_refl.
  rewrite run_seq, run_group, run_seq, run_chr.
  destruct subject as [|c s]; [discriminate|]. rewrite class_step_cons.
  destruct (isdecimal c) eqn:Hc; [|discriminate].
  rewrite run_star_class. intros H.
  apply star_loop_class_inv in H. destruct H as (xs & tail & -> & Hxs & H).
  cbv beta in H.
  change (c :: xs ++ tail) with ((c :: xs) ++ tail) in H.
  rewrite firstn_app_length in H.
  assert (Hgroup : group 1 m = c :: xs).
  { eapply (run_keeps_group 1 (c :: xs) m rest Hno); [| |exact H].
    - intros s' g' Hg' [= <-]. exact Hg'.
    - reflexivity. }
  rewrite Hgroup. cbn [nonempty forallb]. now rewrite Hc, Hxs.
Qed.

Lemma int_of_decimal (s : str) :
  nonempty s && forallb isdecimal s = true -> exists z, int s = Ok z.
Proof.
  intros H. unfold int. rewrite H. eauto.
Qed.

(** On a line in which every character accepted by [isdigit] is a decimal
    digit, the body of the audit loop does not raise. *)
Lemma audit_line_does_not_raise (line : str) :
  forallb safe_digit line = true ->
  exists items, audit_line line = Ok items.
Proof.
  intros Hsafe. unfold audit_line.
  set (cleaned := sub_leading_nonword (strip line)).
  assert (Hincl : forall c, In c cleaned -> safe_digit c = true).
  { intros c Hc. unfold cleaned, sub_leading_nonword in Hc.
    apply lstrip_by_incl, strip_by_incl in Hc.
    rewrite forallb_forall in Hsafe. now apply Hsafe. }
  destruct (negb (nonempty cleaned)); [eauto|].
  destruct (rmatch AUDIT_STRICT cleaned) as [m|] eqn:Hm.
  - apply leading_amount_is_decimal in Hm; [|reflexivity].
    destruct (int_of_decimal _ Hm) as (z & ->). cbn [bind]. eauto.
  - destruct (length (split_spaces cleaned) <? 2)%nat; [eauto|].
    destruct (str_isdigit _) eqn:Hdigit; cbn [negb]; [|eauto].
    apply safe_digits_decimal in Hdigit.
    + destruct (int_of_decimal _ Hdigit) as (z & ->). cbn [bind].
      match goal with |- context [if ?c then _ else _] => destruct c end;
        match goal with |- context [nonempty ?i] => destruct (nonempty i) end;
        eauto.
    + intros c Hc. apply rstrip_by_incl in Hc. apply Hincl.
      destruct (split_spaces cleaned) as [|t ts] eqn:Hts; [destruct Hc|].
      cbn [hd] in Hc.
      assert (Ht : In t (split_spaces_from [] false cleaned))
        by (unfold split_spaces in Hts; rewrite Hts; now left).
      destruct (split_spaces_from_incl _ _ _ _ _ Ht Hc) as [H|[]]. exact H.
Qed.

Lemma for_each_ok {A B} (body : A -> result (list B)) (xs : list A) :
  (forall x, In x xs -> exists ys, body x = Ok ys) ->
  exists zs, for_each body xs = Ok zs.
Proof.
  induction xs as [|x xs IH]; intros Hbody; cbn [for_each]; [eauto|].
  destruct (Hbody x (or_introl eq_refl)) as (ys & ->).
  destruct IH as (zs & ->); [intros x' Hx'; apply Hbody; now right|].
  cbn [bind]. eauto.
Qed.

Lemma for_each_nil_iff {A B} (body : A -> result (list B)) (xs : list A) :
  for_each body xs = Ok [] <-> Forall (fun x => body x = Ok []) xs.
Proof.
  induction xs as [|x xs IH]; cbn [for_each].
  - split; [constructor | reflexivity].
  - split.
    + destruct (body x) as [ys|e] eqn:Hx; cbn [bind]; [|discriminate].
      destruct (for_each body xs) as [zs|e]; cbn [bind]; [|discriminate].
      intros [= H]. apply app_eq_nil in H. destruct H as [-> ->].
      constructor; [exact Hx | now apply IH].
    + intros H. inversion H as [|? ? Hx Hxs]; subst.
      apply IH in Hxs. now rewrite Hx, Hxs.
Qed.

(** What holds of the strict audit parser when no line contains a
    superscript digit: it returns a list, a line with fewer than two
    tokens or without a leading number contributes nothing, and the list
    is empty exactly when every line contributes nothing. *)
Lemma parse_audit_lines_without_superscripts (lines : list str) :
  Forall (fun line => forallb safe_digit line = true) lines ->
  (exists items, parse_audit_lines lines = Ok items)
  /\ (parse_audit_lines lines = Ok []
      <-> Forall (fun line => audit_line line = Ok []) lines).
Proof.
  intros Hlines. split.
  - apply for_each_ok. intros line Hline. apply audit_line_does_not_raise.
    rewrite Forall_forall in Hlines. now apply Hlines.
  - apply for_each_nil_iff.
Qed.

End AuditTotal.

(* ------------------------------------------------------------------ *)
(** * Rendering a record list and parsing it back *)

Lemma name_char_ok_plain (name : str) :
  forallb name_char_ok name = true ->
  forallb plain_char name = true
  /\ forallb (fun c => not_char 40 c && not_char 10 c) name = true.
Proof.
  intros H. split; apply forallb_forall; intros c Hc;
    rewrite forallb_forall in H; specialize (H c Hc);
    unfold name_char_ok in H; rewrite !andb_true_iff in H;
    destruct H as [[[Hdelim Hparen] Hbreak] _].
  - unfold plain_char. now rewrite Hdelim, Hbreak.
  - rewrite Hparen. cbn [andb]. unfold not_char.
    destruct (c =? 10) eqn:Hnl; [|reflexivity].
    apply N.eqb_eq in Hnl. subst c. discriminate.
Qed.

Lemma decimal_plain (ds : str) :
  forallb isdecimal ds = true -> forallb plain_char ds = true.
Proof.
  intros H. apply forallb_forall. intros c Hc.
  rewrite forallb_forall in H. specialize (H c Hc).
  unfold isdecimal, between in H. rewrite andb_true_iff, !N.leb_le in H.
  unfold plain_char, is_delimiter, islinebreak, between.
  repeat match goal with
         | |- context [(?a =? ?b)] =>
             destruct (N.eqb_spec a b); [lia|]
         | |- context [(?a <=? ?b)] =>
             destruct (N.leb_spec a b); try lia
         end; reflexivity.
Qed.

(** What the tables give for the six tiers. *)
Lemma tier_facts (q : str) :
  In q TIERS ->
  exists e,
    dict_get QUALITY_EMOJIS (quality_label (Some q)) [bullet] = [e]
    /\ quality_label (Some q) = q
    /\ isspace e = false
    /\ plain_char e = true
    /\ isword e || isdecimal e = false
    /\ q <> []
    /\ forallb (fun c => not_char 41 c && not_char 10 c) q = true
    /\ forallb plain_char q = true
    /\ parse_quality (Re.sub_nonword q) = q.
Proof.
  intros Hq. cbn [TIERS In] in Hq.
  repeat destruct Hq as [<- | Hq]; try contradiction;
    eexists; (split; [vm_compute; reflexivity|]);
    repeat split; try discriminate; vm_compute; reflexivity.
Qed.

(** The rendered line of a record of the round trip. *)
Lemma preview_line_shape (name q : str) (amount : Z) (e : char) :
  dict_get QUALITY_EMOJIS (quality_label (Some q)) [bullet] = [e] ->
  quality_label (Some q) = q ->
  preview_line (name, Some q, amount)
  = e :: (32 :: str_of_int amount ++ 32 :: 215 :: 32 :: name ++ 32 :: 40 :: q)
      ++ [41].
Proof.
  intros He Hq. unfold preview_line. rewrite He, Hq.
  change (lit " ") with [32]. change (lit " (") with [32; 40].
  change (lit ")") with [41]. change multiplication_sign with 215.
  cbn [app]. f_equal. f_equal. rewrite <- !app_assoc. cbn [app].
  f_equal. rewrite <- !app_assoc. reflexivity.
Qed.



Lemma splitlines_from_plain (l : str) :
  forall (cur rest : str),
    forallb (fun c => negb (islinebreak c)) l = true ->
    splitlines_from cur (l ++ rest) = splitlines_from (rev l ++ cur) rest.
Proof.
  induction l as [|c l IH]; intros cur rest Hl; [reflexivity|].
  cbn [forallb] in Hl. apply andb_true_iff in Hl. destruct Hl as [Hc Hl].
  apply negb_true_iff in Hc. cbn [app splitlines_from]. rewrite Hc.
  rewrite IH by exact Hl. cbn [rev]. now rewrite <- app_assoc.
Qed.

Lemma splitlines_join (lines : list str) :
  Forall (fun l => l <> []
                   /\ forallb (fun c => negb (islinebreak c)) l = true)
    lines ->
  splitlines_from [] (join [10] lines) = lines.
Proof.
  induction 1 as [|l lines [Hne Hl] Hlines IH]; [reflexivity|].
  destruct lines as [|l' lines].
  - cbn [join]. rewrite <- (app_nil_r l) at 1.
    rewrite splitlines_from_plain by exact Hl.
    cbn [splitlines_from]. rewrite app_nil_r.
    destruct (rev l) eqn:Hrev.
    + apply (f_equal (@rev N)) in Hrev. rewrite rev_involutive in Hrev.
      now destruct Hne.
    + now rewrite <- Hrev, rev_involutive.
  - change (join [10] (l :: l' :: lines))
      with (l ++ 10 :: join [10] (l' :: lines)).
    rewrite splitlines_from_plain by exact Hl.
    rewrite app_nil_r. cbn [splitlines_from].
    change (islinebreak 10) with true. cbv iota.
    rewrite rev_involutive. f_equal. exact IH.
Qed.




(* ------------------------------------------------------------------ *)
(** * Message chunking *)

Lemma sheets_chunk_loop_groups (max_chars : Z) (blocks : list str) :
  forall (groups : list (list str)) (current : list str) (current_len : Z),
    SheetsService.chunk_loop max_chars blocks (map (join [10]) groups)
      current current_len
    = map (join [10]) (group_loop max_chars blocks groups current current_len).
Proof.
  induction blocks as [|b blocks IH]; intros groups current current_len;
    cbn [SheetsService.chunk_loop group_loop].
  - destruct current; [reflexivity|]. now rewrite map_app.
  - destruct (_ && _).
    + rewrite <- IH. now rewrite map_app.
    + apply IH.
Qed.

Lemma group_loop_concat (max_chars : Z) (blocks : list str) :
  forall (groups : list (list str)) (current : list str) (current_len : Z),
    concat (group_loop max_chars blocks groups current current_len)
    = concat groups ++ current ++ blocks.
Proof.
  induction blocks as [|b blocks IH]; intros groups current current_len;
    cbn [group_loop].
  - destruct current as [|c current].
    + now rewrite app_nil_r.
    + rewrite concat_app. cbn [concat]. now rewrite !app_nil_r.
  - destruct (_ && _); rewrite IH.
    + rewrite concat_app. cbn [concat]. rewrite app_nil_r.
      now rewrite <- app_assoc.
    + now rewrite <- app_assoc.
Qed.

Lemma joined_len_app (a b : list str) :
  joined_len (a ++ b) = (joined_len a + joined_len b)%Z.
Proof.
  induction a as [|x a IH]; cbn [app joined_len fold_right]; [reflexivity|].
  fold (joined_len (a ++ b)). fold (joined_len a). rewrite IH. ring.
Qed.

Lemma joined_len_join (current : list str) :
  current <> [] ->
  (Z.of_nat (length (join [10%N] current)) + 1 = joined_len current)%Z.
Proof.
  induction current as [|b current IH]; [congruence|]. intros _.
  destruct current as [|b' current].
  - cbn [join joined_len fold_right]. ring.
  - change (join [10] (b :: b' :: current))
      with (b ++ [10] ++ join [10] (b' :: current)).
    rewrite !length_app. cbn [length]. rewrite !Nat2Z.inj_add.
    change (joined_len (b :: b' :: current))
      with (Z.of_nat (length b) + 1 + joined_len (b' :: current))%Z.
    rewrite <- IH by discriminate. change (Z.of_nat 1) with 1%Z. ring.
Qed.

Lemma group_loop_ok (max_chars : Z) (blocks : list str) :
  forall (groups : list (list str)) (current : list str),
    Forall (group_ok max_chars) groups ->
    (current = [] \/ group_ok max_chars current) ->
    Forall (group_ok max_chars)
      (group_loop max_chars blocks groups current (joined_len current)).
Proof.
  induction blocks as [|b blocks IH]; intros groups current Hgroups Hcur;
    cbn [group_loop].
  - destruct current as [|c current]; [exact Hgroups|].
    apply Forall_app. split; [exact Hgroups|]. constructor; [|constructor].
    destruct Hcur as [Hnil|Hok]; [discriminate | exact Hok].
  - destruct current as [|c current]; cbn [andb].
    + cbn [app]. replace (joined_len [] + (Z.of_nat (length b) + 1))%Z
        with (joined_len [b]) by (cbn; ring).
      apply IH; [exact Hgroups|]. right. split; [discriminate|]. right.
      now exists b.
    + destruct (_ >? _)%Z eqn:Hcmp.
      * replace (Z.of_nat (length b) + 1)%Z with (joined_len [b])
          by (cbn; ring).
        apply IH.
        -- apply Forall_app. split; [exact Hgroups|].
           constructor; [|constructor].
           destruct Hcur as [Hnil|Hok]; [discriminate | exact Hok].
        -- right. split; [discriminate|]. right. now exists b.
      * replace (joined_len (c :: current) + (Z.of_nat (length b) + 1))%Z
          with (joined_len ((c :: current) ++ [b]))
          by (rewrite joined_len_app; cbn; ring).
        apply IH; [exact Hgroups|]. right. split; [discriminate|]. left.
        rewrite joined_len_app.
        replace (joined_len [b]) with (Z.of_nat (length b) + 1)%Z
          by (cbn; ring).
        rewrite Z.gtb_ltb, Z.ltb_ge in Hcmp. exact Hcmp.
Qed.

Lemma join_concat_groups (groups : list (list str)) :
  Forall (fun g => g <> []) groups ->
  join [10] (map (join [10]) groups) = join [10] (concat groups).
Proof.
  assert (Hjoin_app : forall a b : list str,
             a <> [] -> b <> [] ->
             join [10] (a ++ b) = join [10] a ++ [10] ++ join [10] b).
  { induction a as [|x a IHa]; intros b Ha Hb; [congruence|].
    destruct a as [|x' a].
    - destruct b; [congruence | reflexivity].
    - change (join [10] ((x :: x' :: a) ++ b))
        with (x ++ [10] ++ join [10] ((x' :: a) ++ b)).
      rewrite IHa by (discriminate || assumption).
      change (join [10] (x :: x' :: a))
        with (x ++ [10] ++ join [10] (x' :: a)).
      now rewrite <- !app_assoc. }
  induction 1 as [|g groups Hg Hgroups IH]; [reflexivity|].
  destruct groups as [|g' groups].
  - cbn [map join concat]. now rewrite app_nil_r.
  - change (map (join [10]) (g :: g' :: groups))
      with (join [10] g :: map (join [10]) (g' :: groups)).
    change (join [10] (join [10] g :: map (join [10]) (g' :: groups)))
      with (join [10] g ++ [10]
              ++ join [10] (map (join [10]) (g' :: groups))).
    rewrite IH.
    change (concat (g :: g' :: groups)) with (g ++ concat (g' :: groups)).
    rewrite Hjoin_app; [reflexivity | exact Hg |].
    inversion Hgroups as [|? ? Hg' _]; subst. cbn [concat].
    destruct g'; [congruence | discriminate].
Qed.

(** X1: the chunks of the sheets-service chunker, joined by newlines, are
    the blocks joined by newlines, and there are no chunks exactly when
    there are no blocks: nothing is lost, added or reordered. *)
Theorem sheets_chunks_preserve_text (blocks : list str) (max_chars : Z) :
  join [10] (SheetsService.chunk_message_blocks blocks max_chars)
    = join [10] blocks
  /\ (SheetsService.chunk_message_blocks blocks max_chars = []
      <-> blocks = []).
Proof.
  unfold SheetsService.chunk_message_blocks.
  change (@nil (list N)) with (map (join [10]) []) at 1 3.
  rewrite sheets_chunk_loop_groups.
  pose proof (group_loop_concat max_chars blocks [] [] 0%Z) as Hconcat.
  pose proof (group_loop_ok max_chars blocks [] [] (Forall_nil _)
                (or_introl eq_refl)) as Hok.
  change (joined_len []) with 0%Z in Hok. cbn [concat app] in Hconcat.
  set (groups := group_loop max_chars blocks [] [] 0%Z) in *.
  assert (Hne : Forall (fun g => g <> []) groups)
    by (eapply Forall_impl; [|exact Hok]; intros g Hg; apply Hg).
  split.
  - rewrite join_concat_groups by exact Hne. now rewrite Hconcat.
  - split.
    + intros Hnil. apply map_eq_nil in Hnil. rewrite Hnil in Hconcat.
      now rewrite <- Hconcat.
    + intros ->. destruct groups as [|g groups]; [reflexivity|].
      inversion Hne as [|? ? Hg _]; subst. cbn [concat] in Hconcat.
      destruct g; [congruence | discriminate].
Qed.

(** X2: every chunk of the sheets-service chunker either leaves room for
    its final newline within [max_chars], or is one of the blocks on its
    own (a block is never split, so a longer block makes a longer chunk). *)
Theorem sheets_chunks_within_limit (blocks : list str) (max_chars : Z)
    (chunk : str) :
  In chunk (SheetsService.chunk_message_blocks blocks max_chars) ->
  (Z.of_nat (length chunk) + 1 <= max_chars)%Z \/ In chunk blocks.
Proof.
  unfold SheetsService.chunk_message_blocks.
  change (@nil (list N)) with (map (join [10]) []) at 1.
  rewrite sheets_chunk_loop_groups.
  pose proof (group_loop_concat max_chars blocks [] [] 0%Z) as Hconcat.
  pose proof (group_loop_ok max_chars blocks [] [] (Forall_nil _)
                (or_introl eq_refl)) as Hok.
  change (joined_len []) with 0%Z in Hok. cbn [concat app] in Hconcat.
  intros Hin. apply in_map_iff in Hin. destruct Hin as (g & <- & Hg).
  rewrite Forall_forall in Hok. destruct (Hok g Hg) as [Hne [Hlen|[b ->]]].
  - left. now rewrite joined_len_join.
  - right. cbn [join]. rewrite <- Hconcat. apply in_concat.
    exists [b]. split; [exact Hg | now left].
Qed.

Lemma sheets_chunks_within_limit_witness :
  let blocks := [lit "alpha"; lit "beta"; lit "gamma delta epsilon"] in
  let chunk := lit "alpha" ++ [10] ++ lit "beta" in
  In chunk (SheetsService.chunk_message_blocks blocks 12)
  /\ ((Z.of_nat (length chunk) + 1 <= 12)%Z \/ In chunk blocks).
Proof.
  intros blocks chunk.
  assert (H : In chunk (SheetsService.chunk_message_blocks blocks 12))
    by (now left).
  split; [exact H|].
  exact (sheets_chunks_within_limit blocks 12 chunk H).
Defined.

Lemma chunk_loops_agree (max_chars : Z) (blocks : list str) :
  forall (chunks current : list str) (current_len : Z),
    current <> [] ->
    Chunking.chunk_loop max_chars blocks chunks current current_len
    = SheetsService.chunk_loop max_chars blocks chunks current current_len.
Proof.
  induction blocks as [|b blocks IH]; intros chunks current current_len Hne;
    cbn [Chunking.chunk_loop SheetsService.chunk_loop]; [reflexivity|].
  destruct current as [|c current]; [congruence|]. cbn [andb].
  destruct (_ >? _)%Z; apply IH; discriminate.
Qed.

Lemma sheets_chunk_loop_prefix (max_chars : Z) (blocks : list str) :
  forall (pre chunks current : list str) (current_len : Z),
    SheetsService.chunk_loop max_chars blocks (pre ++ chunks) current
      current_len
    = pre ++ SheetsService.chunk_loop max_chars blocks chunks current
               current_len.
Proof.
  induction blocks as [|b blocks IH]; intros pre chunks current current_len;
    cbn [SheetsService.chunk_loop].
  - destruct current; [reflexivity | now rewrite app_assoc].
  - destruct (_ && _); [|apply IH]. rewrite <- app_assoc. apply IH.
Qed.

(** The chunks of the formatting chunker as groups of blocks. *)
Lemma formatting_chunks_groups (blocks : list str) (max_chars : Z) :
  Chunking.chunk_message_blocks blocks max_chars
  = (if first_block_oversize blocks max_chars then [[]] else [])
      ++ map (join [10]) (group_loop max_chars blocks [] [] 0%Z).
Proof.
  rewrite <- sheets_chunk_loop_groups. cbn [map].
  unfold Chunking.chunk_message_blocks.
  destruct blocks as [|b blocks]; [reflexivity|].
  cbn [Chunking.chunk_loop SheetsService.chunk_loop first_block_oversize andb].
  change (0 + (Z.of_nat (length b) + 1))%Z with (Z.of_nat (length b) + 1)%Z.
  destruct (_ >? _)%Z.
  - cbn [join app]. rewrite chunk_loops_agree by discriminate.
    apply (sheets_chunk_loop_prefix max_chars blocks [[]] []).
  - apply chunk_loops_agree. discriminate.
Qed.

(** X3: the chunker of bot/utils/formatting.py differs from the one of the
    sheets service in one case only: when the first block alone exceeds
    the limit it first emits an empty chunk; the chunks that follow are
    the same. *)
Theorem formatting_chunks_leading_empty (blocks : list str) (max_chars : Z) :
  Chunking.chunk_message_blocks blocks max_chars
  = (if first_block_oversize blocks max_chars then [[]] else [])
      ++ SheetsService.chunk_message_blocks blocks max_chars.
Proof.
  unfold Chunking.chunk_message_blocks, SheetsService.chunk_message_blocks.
  destruct blocks as [|b blocks]; [reflexivity|].
  cbn [Chunking.chunk_loop SheetsService.chunk_loop first_block_oversize andb].
  change (0 + (Z.of_nat (length b) + 1))%Z with (Z.of_nat (length b) + 1)%Z.
  destruct (_ >? _)%Z.
  - cbn [join app]. rewrite chunk_loops_agree by discriminate.
    apply (sheets_chunk_loop_prefix max_chars blocks [[]] []).
  - apply chunk_loops_agree. discriminate.
Qed.

(* ------------------------------------------------------------------ *)
(** * Rendered lines in the strict audit grammar *)

Section StrictForm.
Import Re.

(** Both strict patterns on ["<digits> × <name> (<q>)"], for any closing
    part [tail] that matches ["<q>)"] with [q] as group 3. *)
Lemma strict_form_match (tail : regex) (d0 : char) (ds : str) (n0 : char)
    (ns body : str) (z : char) (q : str) :
  (forall total g, run tail total (q ++ [41]) g final = Some ((3%nat, q) :: g)) ->
  forallb isdecimal (d0 :: ds) = true ->
  isspace n0 = false ->
  n0 :: ns = body ++ [z] ->
  isspace z = false ->
  forallb (fun c => not_char 40 c && not_char 10 c) (n0 :: ns) = true ->
  rmatch
    (Cat [ Bol;
           Group 1 (Plus true (Chr isdecimal));
           Star true (Chr isspace);
           Chr x_or_times;
           Star true (Chr isspace);
           Group 2 (Plus false (Chr any_but_newline));
           Star true (Chr isspace);
           Chr (one 40);
           tail ])
    (core_line (d0 :: ds) (n0 :: ns) q)
  = Some [(3%nat, q); (2%nat, n0 :: ns); (1%nat, d0 :: ds)].
Proof.
  intros Htail Hdigits Hn0 Hlast Hz Hname.
  cbn [forallb] in Hdigits. apply andb_true_iff in Hdigits.
  destruct Hdigits as [Hd0 Hds].
  apply forallb_and_split in Hname. destruct Hname as [Hparen Hnewline].
  unfold core_line.
  set (after_name := 32 :: 40 :: q ++ [41]).
  set (from_name := (n0 :: ns) ++ after_name).
  unfold rmatch. set (total := length _).
  set (closing := Seq (Star true (Chr isspace)) (Seq (Chr (one 40)) tail)).
  change (Cat _) with
    (Seq Bol
       (Seq (Group 1 (Seq (Chr isdecimal) (Star true (Chr isdecimal))))
          (Seq (Star true (Chr isspace))
             (Seq (Chr x_or_times)
                (Seq (Star true (Chr isspace))
                   (Seq (Group 2 (Seq (Chr any_but_newline)
                                    (Star false (Chr any_but_newline))))
                      closing)))))).
  rewrite run_seq, run_bol. unfold total at 1. rewrite Nat.eqb_refl.
  rewrite run_seq, run_group, run_seq, run_chr. cbn [app].
  rewrite class_step_cons, Hd0, run_star_class.
  apply (star_loop_greedy_run isdecimal ds _ (32 :: 215 :: 32 :: from_name));
    [exact Hds | reflexivity | apply length_le_app |].
  cbv beta.
  change (d0 :: ds ++ 32 :: 215 :: 32 :: from_name)
    with ((d0 :: ds) ++ 32 :: 215 :: 32 :: from_name).
  rewrite firstn_app_length.
  rewrite run_seq, run_star_class.
  apply (star_loop_greedy_run isspace [32] _ (215 :: 32 :: from_name));
    [reflexivity | reflexivity | apply (length_le_app [32]) |].
  cbv beta. rewrite run_seq, run_chr, class_step_cons.
  change (x_or_times 215) with true. cbv iota.
  rewrite run_seq, run_star_class.
  apply (star_loop_greedy_run isspace [32] _ from_name);
    [reflexivity | exact Hn0 | apply (length_le_app [32]) |].
  cbv beta.
  rewrite run_seq, run_group, run_seq, run_chr.
  unfold from_name at 1. cbn [app]. rewrite class_step_cons.
  cbn [forallb] in Hnewline. apply andb_true_iff in Hnewline.
  destruct Hnewline as [Hn0' Hns'].
  change (any_but_newline n0) with (not_char 10 n0). rewrite Hn0'.
  rewrite run_star_class.
  apply (star_loop_lazy_run any_but_newline ns);
    [exact Hns' | apply length_le_app | |].
  - intros pre suf Hns Hsuf. cbv beta.
    unfold closing. rewrite run_seq, run_star_class.
    apply star_loop_spaces_blocked.
    + intros s' g' Hhead. cbv beta. rewrite run_seq, run_chr.
      destruct s' as [|c s']; [reflexivity|]. rewrite class_step_cons.
      unfold one. destruct (c =? 40) eqn:Hc; [|reflexivity].
      apply N.eqb_eq in Hc. subst c. now destruct (Hhead s').
    + destruct (exists_last Hsuf) as (suf' & z' & ->).
      assert (Hz' : z' = z).
      { rewrite Hns in Hlast.
        change (n0 :: pre ++ suf' ++ [z']) with ((n0 :: pre) ++ suf' ++ [z'])
          in Hlast.
        rewrite app_assoc in Hlast. apply app_inj_tail in Hlast.
        now destruct Hlast. }
      subst z'. rewrite <- app_assoc. cbn [app].
      apply no_lparen_ahead_inside; [| exact Hz |].
      * apply Forall_forall. intros c Hc.
        assert (Hin : In c (n0 :: ns)).
        { right. rewrite Hns. apply in_or_app. right. apply in_or_app.
          now left. }
        rewrite forallb_forall in Hparen. now apply not_char_neq, Hparen.
      * assert (Hin : In z (n0 :: ns))
          by (rewrite Hlast; apply in_or_app; right; now left).
        rewrite forallb_forall in Hparen. now apply not_char_neq, Hparen.
  - cbv beta. fold from_name.
    unfold from_name. rewrite firstn_app_length.
    unfold closing, after_name. rewrite run_seq, run_star_class.
    apply (star_loop_greedy_run isspace [32] _ (40 :: q ++ [41]));
      [reflexivity | reflexivity | apply (length_le_app [32]) |].
    cbv beta. rewrite run_seq, run_chr, class_step_cons.
    cbn [one N.eqb Pos.eqb]. apply Htail.
Qed.

Lemma audit_tail_matches (q : str) :
  In q TIERS ->
  forall total g,
    run audit_tail total (q ++ [41]) g final = Some ((3%nat, q) :: g).
Proof.
  intros Hq total g. cbn [TIERS In] in Hq.
  repeat destruct Hq as [<- | Hq]; try contradiction; reflexivity.
Qed.

End StrictForm.

(* ------------------------------------------------------------------ *)
(** * Parsing a rendered line, with or without its emoji *)

Lemma decimal_not_space (c : char) : isdecimal c = true -> isspace c = false.
Proof.
  unfold isdecimal, between. rewrite andb_true_iff, !N.leb_le. intros H.
  unfold isspace, between.
  repeat match goal with
         | |- context [(?a =? ?b)] =>
             destruct (N.eqb_spec a b); [lia|]
         | |- context [(?a <=? ?b)] =>
             destruct (N.leb_spec a b); try lia
         end; reflexivity.
Qed.

Lemma core_line_plain (digits name q : str) :
  forallb isdecimal digits = true ->
  forallb plain_char name = true ->
  forallb plain_char q = true ->
  forallb plain_char (core_line digits name q) = true.
Proof.
  intros Hd Hn Hq. unfold core_line.
  rewrite forallb_app. cbn [forallb]. rewrite forallb_app. cbn [forallb].
  rewrite forallb_app. cbn [forallb].
  now rewrite (decimal_plain _ Hd), Hn, Hq.
Qed.

(** The line without emoji, as the modals prefill it. *)
Lemma core_line_renders (name q : str) (amount : Z) :
  round_trip_record (name, Some q, amount) ->
  renders (core_line (str_of_int amount) name q) name q amount.
Proof.
  intros (Hne & Hstrip & Htitle & Hchars & (q' & [= <-] & Hq) & Hamount).
  unfold renders.
  destruct (tier_facts q Hq) as (e & _ & _ & _ & _ & _ & _ & _ & Hqplain & _).
  destruct (str_of_int_digits amount Hamount) as (Hdne & Hdec & _).
  destruct (name_char_ok_plain name Hchars) as [Hplain _].
  destruct (str_of_int amount) as [|d0 ds] eqn:Hdigits; [congruence|].
  assert (Hd0 : isdecimal d0 = true)
    by (cbn [forallb] in Hdec; apply andb_true_iff in Hdec; tauto).
  repeat split.
  - discriminate.
  - unfold core_line. cbn [app].
    replace (ds ++ 32 :: 215 :: 32 :: name ++ 32 :: 40 :: q ++ [41])
      with ((ds ++ 32 :: 215 :: 32 :: name ++ 32 :: 40 :: q) ++ [41]).
    + apply strip_by_fixed; [now apply decimal_not_space | reflexivity].
    + rewrite <- !app_assoc. cbn [app]. do 4 f_equal.
      now rewrite <- app_assoc.
  - unfold Re.sub_leading_nonword, core_line. cbn [app lstrip_by].
    now rewrite Hd0, orb_true_r.
  - now apply core_line_plain.
Qed.

(** The line with the emoji of its tier in front. *)
Lemma emoji_line_renders (name q : str) (amount : Z) (e : char) :
  round_trip_record (name, Some q, amount) ->
  isspace e = false ->
  plain_char e = true ->
  isword e || isdecimal e = false ->
  renders (e :: 32 :: core_line (str_of_int amount) name q) name q amount.
Proof.
  intros Hrec He Heplain Heword.
  destruct (core_line_renders name q amount Hrec)
    as (Hne & Hstrip & Hclean & Hplain).
  repeat split.
  - discriminate.
  - destruct (exists_last Hne) as (body & z & Hbody).
    destruct (strip_by_fixed_ends isspace _ Hne Hstrip)
      as [_ (b' & z' & Hb' & Hz')].
    rewrite Hb'.
    change (e :: 32 :: b' ++ [z']) with (e :: (32 :: b') ++ [z']).
    now apply strip_by_fixed.
  - unfold Re.sub_leading_nonword. cbn [lstrip_by]. rewrite Heword.
    cbn [negb]. change (negb (isword 32 || isdecimal 32)) with true.
    cbv iota. exact Hclean.
  - cbn [forallb]. now rewrite Heplain, Hplain.
Qed.

Lemma preview_line_renders (name q : str) (amount : Z) :
  round_trip_record (name, Some q, amount) ->
  renders (preview_line (name, Some q, amount)) name q amount
  /\ AuditCog.display_line (name, q, amount)
     = preview_line (name, Some q, amount).
Proof.
  intros Hrec.
  assert (Hq : In q TIERS).
  { destruct Hrec as (_ & _ & _ & _ & (q' & [= <-] & Hq) & _). exact Hq. }
  destruct (tier_facts q Hq)
    as (e & He & Hlabel & Hespace & Heplain & Heword & _).
  assert (Hshape : preview_line (name, Some q, amount)
                   = e :: 32 :: core_line (str_of_int amount) name q).
  { rewrite (preview_line_shape name q amount e He Hlabel).
    unfold core_line. cbn [app]. do 2 f_equal.
    rewrite <- !app_assoc. cbn [app]. do 4 f_equal.
    now rewrite <- app_assoc. }
  split.
  - rewrite Hshape. now apply emoji_line_renders.
  - unfold AuditCog.display_line, preview_line. now rewrite Hlabel.
Qed.

Lemma audit_line_of_rendered (line name q : str) (amount : Z) :
  round_trip_record (name, Some q, amount) ->
  renders line name q amount ->
  audit_line line = Ok [(name, Some q, amount)].
Proof.
  intros (Hne & Hstrip & Htitle & Hchars & (q' & [= <-] & Hq) & Hamount)
         (Hlne & Hlstrip & Hclean & _).
  destruct (str_of_int_digits amount Hamount) as (Hdne & Hdec & Hint).
  destruct (name_char_ok_plain name Hchars) as [_ Hnamechars].
  destruct (strip_by_fixed_ends isspace name Hne Hstrip)
    as [(n0 & ns & Hname & Hn0) (body & z & Hlast & Hz)].
  unfold audit_line. rewrite Hlstrip, Hclean.
  destruct (str_of_int amount) as [|d0 ds] eqn:Hdigits; [congruence|].
  replace (nonempty (core_line (d0 :: ds) name q)) with true by reflexivity.
  cbn [negb]. subst name.
  change AUDIT_STRICT with
    (Re.Cat [ Re.Bol;
              Re.Group 1 (Re.Plus true (Re.Chr isdecimal));
              Re.Star true (Re.Chr isspace);
              Re.Chr x_or_times;
              Re.Star true (Re.Chr isspace);
              Re.Group 2 (Re.Plus false (Re.Chr Re.any_but_newline));
              Re.Star true (Re.Chr isspace);
              Re.Chr (Re.one 40);
              audit_tail ]).
  rewrite (strict_form_match audit_tail d0 ds n0 ns body z q
             (audit_tail_matches q Hq) Hdec Hn0 Hlast Hz Hnamechars).
  cbn [Re.group Nat.eqb]. rewrite Hint. cbn [bind].
  rewrite Hstrip, Htitle.
  assert (Htier : title q = q).
  { cbn [TIERS In] in Hq.
    repeat destruct Hq as [<- | Hq]; try contradiction; reflexivity. }
  now rewrite Htier.
Qed.

Lemma user_line_of_rendered (line name q : str) (amount : Z) :
  round_trip_record (name, Some q, amount) ->
  renders line name q amount ->
  user_line line = Ok [(name, Some q, amount)].
Proof.
  intros (Hne & Hstrip & Htitle & Hchars & (q' & [= <-] & Hq) & Hamount)
         (Hlne & Hlstrip & Hclean & Hlplain).
  destruct (tier_facts q Hq)
    as (e & _ & _ & _ & _ & _ & Hqne & Hqchars & _ & Hquality).
  destruct (str_of_int_digits amount Hamount) as (Hdne & Hdec & Hint).
  destruct (name_char_ok_plain name Hchars) as [_ Hnamechars].
  destruct (strip_by_fixed_ends isspace name Hne Hstrip)
    as [(n0 & ns & Hname & Hn0) (body & z & Hlast & Hz)].
  assert (Hsingle : split_at is_delimiter line = [line]).
  { apply split_at_no_separator. apply forallb_forall. intros c Hc.
    rewrite forallb_forall in Hlplain. specialize (Hlplain c Hc).
    unfold plain_char in Hlplain. apply andb_true_iff in Hlplain. tauto. }
  unfold user_line. rewrite Hlstrip, Hsingle. cbn [for_each].
  unfold user_segment. rewrite Hlstrip.
  destruct line as [|l0 line]; [congruence|]. cbn [nonempty negb].
  rewrite Hclean.
  destruct (str_of_int amount) as [|d0 ds] eqn:Hdigits; [congruence|].
  subst name. unfold core_line.
  rewrite (user_strict_match d0 ds n0 ns body z q Hdec Hn0 Hlast Hz
             Hnamechars Hqne Hqchars).
  cbn [Re.group Nat.eqb]. rewrite Hint. cbn [bind].
  rewrite Hstrip, Htitle, Hquality. reflexivity.
Qed.

Lemma for_each_singletons {A B} (body : A -> result (list B))
    (xs : list A) (ys : list B) :
  Forall2 (fun x y => body x = Ok [y]) xs ys ->
  for_each body xs = Ok ys.
Proof.
  induction 1 as [|x y xs ys Hxy _ IH]; [reflexivity|].
  cbn [for_each]. now rewrite Hxy, IH.
Qed.

Lemma rendered_lines_plain (lines : list str) (items : list ItemTuple) :
  Forall2 (fun line t =>
             exists name q amount,
               t = (name, Some q, amount)
               /\ round_trip_record t /\ renders line name q amount)
    lines items ->
  Forall (fun l => l <> []
                   /\ forallb (fun c => negb (islinebreak c)) l = true)
    lines.
Proof.
  induction 1 as [|line t lines items (name & q & amount & _ & _ & Hr) _ IH];
    constructor; [|exact IH].
  destruct Hr as (Hne & _ & _ & Hplain). split; [exact Hne|].
  apply forallb_forall. intros c Hc. rewrite forallb_forall in Hplain.
  specialize (Hplain c Hc). unfold plain_char in Hplain.
  apply andb_true_iff in Hplain. tauto.
Qed.

(** X4: the strict audit grammar parses the lines of the standard preview
    back to the records they show, exactly as the lenient grammar does,
    for records whose names are stripped, title-cased, within U+00FF and
    free of [,] [+] [;] [(] and line breaks, with one of the six tiers and
    a non-negative amount of at most 4300 digits. *)
Theorem audit_grammar_round_trip (items : list ItemTuple) :
  Forall round_trip_record items ->
  Forall convertible items ->
  parse_audit_lines (preview_lines items) = Ok items
  /\ parse_audit_lines (splitlines_from [] (format_preview items)) = Ok items
  /\ parse_audit_lines (preview_lines items)
     = parse_user_lines (preview_lines items).
Proof.
  intros Hitems _.
  assert (Hrendered :
    Forall2 (fun line t =>
               exists name q amount,
                 t = (name, Some q, amount)
                 /\ round_trip_record t /\ renders line name q amount)
      (preview_lines items) items).
  { unfold preview_lines.
    induction Hitems as [|t items Ht _ IH]; cbn [map]; constructor;
      [|exact IH].
    destruct t as [[name quality] amount].
    assert (Hq : exists q, quality = Some q)
      by (destruct Ht as (_ & _ & _ & _ & (q & -> & _) & _); eauto).
    destruct Hq as (q & ->). exists name, q, amount.
    split; [reflexivity|]. split; [exact Ht|].
    now apply preview_line_renders. }
  assert (Haudit : parse_audit_lines (preview_lines items) = Ok items).
  { apply for_each_singletons.
    eapply Forall2_impl; [|exact Hrendered].
    intros line t (name & q & amount & -> & Hrec & Hr).
    now apply audit_line_of_rendered. }
  assert (Huser : parse_user_lines (preview_lines items) = Ok items).
  { apply for_each_singletons.
    eapply Forall2_impl; [|exact Hrendered].
    intros line t (name & q & amount & -> & Hrec & Hr).
    now apply user_line_of_rendered. }
  split; [exact Haudit|]. split; [|now rewrite Haudit, Huser].
  unfold format_preview. rewrite splitlines_join; [exact Haudit|].
  eapply rendered_lines_plain. exact Hrendered.
Qed.

Lemma audit_grammar_round_trip_witness :
  let items :=
    [ (lit "Oak Wood", Some (lit "Epic"), 10%Z);
      (lit "Tin", Some (lit "Common"), 3%Z) ] in
  Forall round_trip_record items
  /\ Forall convertible items
  /\ (parse_audit_lines (preview_lines items) = Ok items
      /\ parse_audit_lines (splitlines_from [] (format_preview items))
         = Ok items
      /\ parse_audit_lines (preview_lines items)
         = parse_user_lines (preview_lines items)).
Proof.
  intros items.
  assert (H : Forall round_trip_record items).
  { repeat constructor; try discriminate; try (cbn; lia).
    - exists (lit "Epic"). split; [reflexivity|]. cbn. tauto.
    - exists (lit "Common"). split; [reflexivity|]. cbn. tauto. }
  assert (Hc : Forall convertible items)
    by (repeat constructor; apply Nat.leb_le; reflexivity).
  split; [exact H|]. split; [exact Hc|].
  exact (audit_grammar_round_trip items H Hc).
Defined.

(* ------------------------------------------------------------------ *)
(** * The audit command and the review modal *)

Lemma for_each_Forall {A B} (P : B -> Prop) (body : A -> result (list B))
    (xs : list A) :
  (forall x ys, body x = Ok ys -> Forall P ys) ->
  forall zs, for_each body xs = Ok zs -> Forall P zs.
Proof.
  intros Hbody. induction xs as [|x xs IH]; cbn [for_each]; intros zs.
  - intros [= <-]. constructor.
  - destruct (body x) as [ys|e] eqn:Hx; cbn [bind]; [|discriminate].
    destruct (for_each body xs) as [zs'|e]; cbn [bind]; [|discriminate].
    intros [= <-]. apply Forall_app. split; [now apply (Hbody x) | now apply IH].
Qed.

Lemma title_from_nonempty (cased : bool) (c : char) (s : str) :
  title_from cased (c :: s) <> [].
Proof.
  cbn [title_from]. destruct cased; [discriminate|].
  unfold title_char.
  repeat match goal with
         | |- context [if ?b then _ else _] => destruct b
         end; discriminate.
Qed.

Lemma parse_quality_nonempty (token : str) : parse_quality token <> [].
Proof.
  unfold parse_quality. destruct (lower (strip token)) as [|q0 q];
    [discriminate|].
  destruct (dict_find QUALITY_SHORTCUTS [q0]) as [name|] eqn:Hfind.
  - cbn in Hfind.
    repeat match type of Hfind with
           | (if ?b then _ else _) = _ => destruct b
           end;
      try discriminate; injection Hfind as <-; discriminate.
  - apply title_from_nonempty.
Qed.

Lemma user_segment_has_quality (part : str) (items : list ItemTuple) :
  user_segment part = Ok items -> Forall has_quality items.
Proof.
  assert (Hq : forall item token amount,
             Forall has_quality [(item, Some (parse_quality token), amount)]).
  { intros item token amount. constructor; [|constructor].
    pose proof (parse_quality_nonempty token) as Hne.
    destruct (parse_quality token) as [|c q]; [congruence|].
    now exists c, q. }
  assert (Hc : forall item amount,
             Forall has_quality [(item, Some (lit "Common"), amount)]).
  { intros item amount. constructor; [|constructor].
    now exists 67, (lit "ommon"). }
  unfold user_segment.
  destruct (negb (nonempty (strip part))); [intros [= <-]; constructor|].
  destruct (Re.rmatch USER_STRICT _) as [m|].
  - destruct (int _) as [amount|e]; cbn [bind]; [|discriminate].
    intros [= <-]. apply Hq.
  - unfold user_fallback.
    destruct (split _) as [|t0 tokens']; [intros [= <-]; constructor|].
    destruct (str_isdigit t0).
    + destruct (int t0) as [amount|e]; cbn [bind]; [|discriminate].
      destruct tokens'; [intros [= <-]; constructor|].
      match goal with |- context [if ?c then _ else _] => destruct c end;
        match goal with |- context [nonempty ?i] => destruct (nonempty i) end;
        intros [= <-];
        first [apply Forall_nil | apply Hq | apply Hc].
    + cbn [bind].
      match goal with |- context [if ?c then _ else _] => destruct c end;
        match goal with |- context [nonempty ?i] => destruct (nonempty i) end;
        intros [= <-];
        first [apply Forall_nil | apply Hq | apply Hc].
Qed.

Lemma clean_has_quality (items : list ItemTuple) :
  Forall has_quality items -> Views.clean items = items.
Proof.
  induction 1 as [|[[item quality] amount] items (c & q & Hq) _ IH];
    [reflexivity|].
  cbn [Views.clean map]. fold (Views.clean items). rewrite IH.
  cbn in Hq. now rewrite Hq.
Qed.

(** X7: the loop of the review modal that fills in missing qualities never
    changes anything: every record the lenient parser returns already has
    a non-empty quality, so [on_submit] hands on exactly what
    [parse_user_lines] returned. *)
Theorem review_cleaning_is_identity (value : str) :
  Views.on_submit value
  = parse_user_lines (splitlines_from [] (strip value)).
Proof.
  unfold Views.on_submit.
  destruct (parse_user_lines _) as [parsed|e] eqn:Hparse; [|reflexivity].
  cbn [bind]. f_equal. apply clean_has_quality.
  revert parsed Hparse. apply for_each_Forall. intros line.
  apply for_each_Forall. apply user_segment_has_quality.
Qed.

Lemma strip_fixed_of_ends (s s' b : str) (c z : char) :
  s = c :: s' -> s = b ++ [z] -> isspace c = false -> isspace z = false ->
  strip s = s.
Proof.
  intros Hhead Hlast Hc Hz. unfold strip, strip_by.
  rewrite Hhead. cbn [lstrip_by]. rewrite Hc. rewrite <- Hhead, Hlast.
  now apply rstrip_by_last.
Qed.

Lemma join_lines_ends (lines : list str) :
  lines <> [] ->
  Forall (fun l => l <> [] /\ strip l = l) lines ->
  (exists c s, join [10] lines = c :: s /\ isspace c = false)
  /\ (exists b z, join [10] lines = b ++ [z] /\ isspace z = false).
Proof.
  intros Hne Hlines.
  induction Hlines as [|l lines [Hl Hstrip] Hlines IH]; [congruence|].
  destruct (strip_by_fixed_ends isspace l Hl Hstrip)
    as [(c & s & Hhead & Hc) (b & z & Hlast & Hz)].
  destruct lines as [|l' lines].
  - cbn [join]. split; [now exists c, s | now exists b, z].
  - change (join [10] (l :: l' :: lines))
      with (l ++ [10] ++ join [10] (l' :: lines)).
    destruct IH as [_ (b' & z' & Hlast' & Hz')]; [discriminate|].
    split.
    + exists c, (s ++ [10] ++ join [10] (l' :: lines)).
      now rewrite Hhead.
    + exists (l ++ [10] ++ b'), z'. rewrite Hlast'.
      now rewrite <- !app_assoc.
Qed.

Lemma strip_join_lines (lines : list str) :
  Forall (fun l => l <> [] /\ strip l = l) lines ->
  strip (join [10] lines) = join [10] lines.
Proof.
  intros Hlines. destruct lines as [|l lines]; [reflexivity|].
  destruct (join_lines_ends (l :: lines)) as
    [(c & s & Hhead & Hc) (b & z & Hlast & Hz)];
    [discriminate | exact Hlines |].
  now apply (strip_fixed_of_ends _ s b c z).
Qed.

Lemma displays_lines (lines : list str) (items : list ItemTuple) :
  Forall2 displays lines items ->
  Forall (fun l => l <> [] /\ strip l = l) lines
  /\ Forall (fun l => l <> []
                      /\ forallb (fun c => negb (islinebreak c)) l = true)
       lines
  /\ parse_audit_lines lines = Ok items
  /\ parse_user_lines lines = Ok items.
Proof.
  intros H. repeat split.
  - induction H as [|line t lines items (n & q & a & _ & _ & Hr) _ IH];
      constructor; [|exact IH].
    destruct Hr as (Hne & Hstrip & _). now split.
  - now apply (rendered_lines_plain lines items).
  - apply for_each_singletons. eapply Forall2_impl; [|exact H].
    intros line t (name & q & amount & -> & Hrec & Hr).
    now apply audit_line_of_rendered.
  - apply for_each_singletons. eapply Forall2_impl; [|exact H].
    intros line t (name & q & amount & -> & Hrec & Hr).
    now apply user_line_of_rendered.
Qed.

Lemma default_text_displays (items : list ItemTuple) :
  Forall round_trip_record items ->
  exists lines,
    Views.default_text items = join [10] lines
    /\ Forall2 displays lines items.
Proof.
  intros Hitems. unfold Views.default_text.
  eexists. split; [reflexivity|].
  induction Hitems as [|t items Ht _ IH]; cbn [map]; constructor;
    [|exact IH].
  destruct t as [[name quality] amount].
  assert (Hq : exists q, quality = Some q)
    by (destruct Ht as (_ & _ & _ & _ & (q & -> & _) & _); eauto).
  destruct Hq as (q & ->). exists name, q, amount.
  split; [reflexivity|]. split; [exact Ht|].
  replace (str_of_int amount ++ [32; multiplication_sign; 32] ++ name
             ++ lit " (" ++ Views.format_quality (Some q) ++ lit ")")
    with (core_line (str_of_int amount) name q).
  - now apply core_line_renders.
  - unfold core_line. reflexivity.
Qed.

(** X6: in the OCR review modal, submitting the prefilled text unchanged
    gives back the detected items, for items whose names are stripped,
    title-cased, within U+00FF and free of [,] [+] [;] [(] and line
    breaks, with one of the six tiers and a non-negative amount, when the
    prefilled text fits the 4000 characters of the input. *)
Theorem review_modal_round_trip (ocr_items : list ItemTuple) :
  Forall round_trip_record ocr_items ->
  fits_input (Views.default_text ocr_items) ->
  Views.on_submit (Views.default_text ocr_items) = Ok ocr_items.
Proof.
  intros Hitems _. unfold Views.on_submit.
  destruct (default_text_displays ocr_items Hitems) as (lines & -> & Hlines).
  destruct (displays_lines lines ocr_items Hlines)
    as (Hstripped & Hplain & _ & Huser).
  rewrite strip_join_lines by exact Hstripped.
  rewrite splitlines_join by exact Hplain. rewrite Huser. cbn [bind].
  f_equal. apply clean_has_quality.
  eapply Forall_impl; [|exact Hitems].
  intros [[name quality] amount] (_ & _ & _ & _ & (q & -> & Hq) & _).
  destruct q as [|c q]; [|now exists c, q].
  cbn in Hq. repeat destruct Hq as [Hq|Hq]; try discriminate Hq.
  contradiction.
Qed.

Lemma review_modal_round_trip_witness :
  let items :=
    [ (lit "Oak Wood", Some (lit "Epic"), 10%Z);
      (lit "Tin", Some (lit "Common"), 3%Z) ] in
  Forall round_trip_record items
  /\ fits_input (Views.default_text items)
  /\ Views.on_submit (Views.default_text items) = Ok items.
Proof.
  intros items.
  assert (H : Forall round_trip_record items).
  { repeat constructor; try discriminate; try (cbn; lia).
    - exists (lit "Epic"). split; [reflexivity|]. cbn. tauto.
    - exists (lit "Common"). split; [reflexivity|]. cbn. tauto. }
  assert (Hc : fits_input (Views.default_text items))
    by (apply Nat.leb_le; reflexivity).
  split; [exact H|]. split; [exact Hc|].
  exact (review_modal_round_trip items H Hc).
Defined.

Lemma insert_owned_Forall (P : AuditCog.Owned -> Prop) (t : AuditCog.Owned)
    (l : list AuditCog.Owned) :
  P t -> Forall P l -> Forall P (AuditCog.insert_owned t l).
Proof.
  intros Ht Hl. induction Hl as [|u l Hu Hl IH]; cbn [AuditCog.insert_owned].
  - now constructor.
  - destruct (AuditCog.owned_ltb t u); repeat constructor; assumption.
Qed.

Lemma sorted_Forall (P : AuditCog.Owned -> Prop) (l : list AuditCog.Owned) :
  Forall P l -> Forall P (AuditCog.sorted l).
Proof.
  unfold AuditCog.sorted. induction 1; cbn [fold_right]; [constructor|].
  now apply insert_owned_Forall.
Qed.

Lemma Forall2_concat_split {A B} (R : A -> B -> Prop)
    (groups : list (list A)) :
  forall items,
    Forall2 R (concat groups) items ->
    exists parts,
      concat parts = items /\ Forall2 (Forall2 R) groups parts.
Proof.
  induction groups as [|g groups IH]; intros items H; cbn [concat] in H.
  - inversion H; subst. exists []. split; [reflexivity | constructor].
  - apply Forall2_app_inv_l in H.
    destruct H as (items1 & items2 & H1 & H2 & ->).
    destruct (IH items2 H2) as (parts & <- & Hparts).
    exists (items1 :: parts). split; [reflexivity | now constructor].
Qed.

(** X5: the audit command shows the banker's rows in sorted order, split
    into chunks, and parses each chunk back for its view; the parsed items
    of the chunks, taken together in order, are exactly the sorted rows
    (no chunk fails to parse), for rows whose names are stripped,
    title-cased, within U+00FF and free of [,] [+] [;] [(] and line
    breaks, with one of the six tiers and a non-negative amount of at
    most 4300 digits. *)
Theorem audit_chunks_cover_rows (owned : list AuditCog.Owned) :
  Forall (fun t => round_trip_record (owned_item t)) owned ->
  Forall (fun t => convertible (owned_item t)) owned ->
  exists parts,
    map snd (AuditCog.audit_chunks owned) = map Ok parts
    /\ concat parts = map owned_item (AuditCog.sorted owned).
Proof.
  intros Howned _. apply sorted_Forall in Howned.
  unfold AuditCog.audit_chunks. rewrite map_map. cbn [snd].
  set (rows := AuditCog.sorted owned) in *.
  assert (Hdisp : Forall2 displays (map AuditCog.display_line rows)
                    (map owned_item rows)).
  { induction Howned as [|[[name q] amount] rows Ht _ IH]; cbn [map];
      constructor; [|exact IH].
    exists name, q, amount. split; [reflexivity|]. split; [exact Ht|].
    destruct (preview_line_renders name q amount Ht) as [Hr ->]. exact Hr. }
  set (lines := map AuditCog.display_line rows) in *.
  rewrite formatting_chunks_groups.
  pose proof (group_loop_concat 1800 lines [] [] 0%Z) as Hconcat.
  pose proof (group_loop_ok 1800 lines [] [] (Forall_nil _)
                (or_introl eq_refl)) as Hok.
  cbn [concat app] in Hconcat.
  set (groups := group_loop 1800 lines [] [] 0%Z) in *.
  rewrite <- Hconcat in Hdisp.
  destruct (Forall2_concat_split displays groups _ Hdisp)
    as (parts & Hparts & Hgroups).
  assert (Hmap :
    map (fun chunk => parse_audit_lines (splitlines_from [] chunk))
      (map (join [10]) groups)
    = map Ok parts).
  { clear Hconcat Hdisp Hparts Hok.
    induction Hgroups as [|g part groups parts Hg _ IH]; [reflexivity|].
    cbn [map]. rewrite IH. f_equal.
    destruct (displays_lines g part Hg) as (_ & Hplain & Haudit & _).
    now rewrite splitlines_join. }
  destruct (first_block_oversize lines 1800).
  - exists ([] :: parts). cbn [app map concat]. rewrite Hmap.
    split; [reflexivity | exact Hparts].
  - exists parts. cbn [app]. now rewrite Hmap.
Qed.

Lemma audit_chunks_cover_rows_witness :
  let owned :=
    [ (lit "Tin", lit "Common", 3%Z); (lit "Oak Wood", lit "Epic", 10%Z) ] in
  Forall (fun t => round_trip_record (owned_item t)) owned
  /\ Forall (fun t => convertible (owned_item t)) owned
  /\ exists parts,
       map snd (AuditCog.audit_chunks owned) = map Ok parts
       /\ concat parts = map owned_item (AuditCog.sorted owned).
Proof.
  intros owned.
  assert (H : Forall (fun t => round_trip_record (owned_item t)) owned).
  { repeat constructor; try discriminate; try (cbn; lia).
    - exists (lit "Common"). split; [reflexivity|]. cbn. tauto.
    - exists (lit "Epic"). split; [reflexivity|]. cbn. tauto. }
  assert (Hc : Forall (fun t => convertible (owned_item t)) owned)
    by (repeat constructor; apply Nat.leb_le; reflexivity).
  split; [exact H|]. split; [exact Hc|].
  exact (audit_chunks_cover_rows owned H Hc).
Defined.

(* ------------------------------------------------------------------ *)
(** * More on stripping and splitting *)

Lemma lstrip_by_split (p : char -> bool) (s : str) :
  exists w, s = w ++ lstrip_by p s /\ forallb p w = true.
Proof.
  induction s as [|c s (w & Hs & Hw)]; cbn [lstrip_by].
  - now exists [].
  - destruct (p c) eqn:Hc.
    + exists (c :: w). cbn [app forallb]. now rewrite Hc, Hw, <- Hs.
    + now exists [].
Qed.

Lemma lstrip_by_head (p : char -> bool) (s : str) :
  lstrip_by p s = []
  \/ exists c s', lstrip_by p s = c :: s' /\ p c = false.
Proof.
  induction s as [|c s IH]; cbn [lstrip_by]; [now left|].
  destruct (p c) eqn:Hc; [exact IH|]. right. now exists c, s.
Qed.

Lemma lstrip_by_all (p : char -> bool) (w s : str) :
  forallb p w = true -> lstrip_by p (w ++ s) = lstrip_by p s.
Proof.
  induction w as [|c w IH]; cbn [forallb app lstrip_by]; [reflexivity|].
  intros H. apply andb_true_iff in H. destruct H as [Hc Hw].
  now rewrite Hc, IH.
Qed.

Lemma rstrip_by_split (p : char -> bool) (s : str) :
  exists w, s = rstrip_by p s ++ w /\ forallb p w = true.
Proof.
  unfold rstrip_by. destruct (lstrip_by_split p (rev s)) as (w & Hs & Hw).
  exists (rev w). split.
  - rewrite <- rev_app_distr, <- Hs. now rewrite rev_involutive.
  - apply forallb_forall. intros c Hc. apply in_rev in Hc.
    rewrite forallb_forall in Hw. now apply Hw.
Qed.

Lemma rstrip_by_all (p : char -> bool) (s w : str) :
  forallb p w = true -> rstrip_by p (s ++ w) = rstrip_by p s.
Proof.
  intros Hw. unfold rstrip_by. rewrite rev_app_distr.
  rewrite lstrip_by_all; [reflexivity|].
  apply forallb_forall. intros c Hc. apply in_rev in Hc.
  rewrite forallb_forall in Hw. now apply Hw.
Qed.

(** A stripped string is empty or starts and ends with characters that
    are not stripped. *)
Lemma strip_by_ends (p : char -> bool) (s : str) :
  strip_by p s = []
  \/ exists c s' b z,
       strip_by p s = c :: s' /\ strip_by p s = b ++ [z]
       /\ p c = false /\ p z = false.
Proof.
  unfold strip_by.
  destruct (lstrip_by_head p s) as [Hnil | (c & s' & Hx & Hc)].
  - left. now rewrite Hnil.
  - rewrite Hx. unfold rstrip_by.
    destruct (lstrip_by_head p (rev (c :: s')))
      as [Hnil | (z & r & Hr & Hz)].
    + left. now rewrite Hnil.
    + right. rewrite Hr. cbn [rev].
      destruct (rstrip_by_split p (c :: s')) as (w & Hsplit & Hw).
      unfold rstrip_by in Hsplit. rewrite Hr in Hsplit. cbn [rev] in Hsplit.
      destruct (rev r ++ [z]) as [|c' m] eqn:Hm.
      * destruct (rev r); discriminate.
      * cbn [app] in Hsplit. injection Hsplit as <- _.
        exists c, m, (rev r), z. now rewrite Hm.
Qed.

Lemma strip_by_idempotent (p : char -> bool) (s : str) :
  strip_by p (strip_by p s) = strip_by p s.
Proof.
  destruct (strip_by_ends p s)
    as [-> | (c & s' & b & z & Hhead & Hlast & Hc & Hz)]; [reflexivity|].
  unfold strip_by at 1. rewrite Hhead at 1. cbn [lstrip_by]. rewrite Hc.
  rewrite <- Hhead, Hlast. now apply rstrip_by_last.
Qed.

(** Stripping sees only what is left after the white space at both ends. *)
Lemma strip_by_padding (p : char -> bool) (w1 s w2 : str) :
  forallb p w1 = true -> forallb p w2 = true ->
  strip_by p (w1 ++ s ++ w2) = strip_by p s.
Proof.
  intros H1 H2. unfold strip_by. rewrite lstrip_by_all by exact H1.
  destruct (lstrip_by_head p s) as [Hnil | (c & s' & Hx & Hc)].
  - rewrite Hnil.
    destruct (lstrip_by_split p s) as (w & Hs & Hw). rewrite Hnil in Hs.
    rewrite app_nil_r in Hs. subst w.
    rewrite <- (app_nil_r (s ++ w2)).
    rewrite lstrip_by_all; [reflexivity|].
    rewrite forallb_app. now rewrite Hw, H2.
  - destruct (lstrip_by_split p s) as (w & Hs & Hw).
    rewrite Hs at 1. rewrite <- app_assoc.
    rewrite lstrip_by_all by exact Hw.
    rewrite Hx. cbn [app lstrip_by]. rewrite Hc.
    change (c :: s' ++ w2) with ((c :: s') ++ w2).
    now apply rstrip_by_all.
Qed.

Lemma split_at_cons_form (sep : char -> bool) (s : str) :
  exists piece pieces, split_at sep s = piece :: pieces.
Proof.
  induction s as [|c s (piece & pieces & IH)]; cbn [split_at].
  - now exists [], [].
  - rewrite IH. destruct (sep c); eauto.
Qed.

(** Splitting at a separator: the pieces on its left, then those on its
    right. *)
Lemma split_at_separator (sep : char -> bool) (a b : str) (c : char) :
  sep c = true ->
  split_at sep (a ++ c :: b) = split_at sep a ++ split_at sep b.
Proof.
  intros Hc. induction a as [|x a IH]; cbn [app split_at].
  - destruct (split_at_cons_form sep b) as (piece & pieces & ->).
    now rewrite Hc.
  - rewrite IH.
    destruct (split_at_cons_form sep a) as (piece & pieces & ->).
    cbn [app]. now destruct (sep x).
Qed.

Lemma split_at_padding_left (sep : char -> bool) (w s : str) :
  forallb (fun c => negb (sep c)) w = true ->
  exists piece pieces,
    split_at sep s = piece :: pieces
    /\ split_at sep (w ++ s) = (w ++ piece) :: pieces.
Proof.
  intros Hw. destruct (split_at_cons_form sep s) as (piece & pieces & Hs).
  exists piece, pieces. split; [exact Hs|].
  induction w as [|c w IH]; cbn [app split_at]; [exact Hs|].
  cbn [forallb] in Hw. apply andb_true_iff in Hw. destruct Hw as [Hc Hw].
  rewrite (IH Hw). apply negb_true_iff in Hc. now rewrite Hc.
Qed.

Lemma split_at_padding_right (sep : char -> bool) (s w : str) :
  forallb (fun c => negb (sep c)) w = true ->
  exists pieces piece,
    split_at sep s = pieces ++ [piece]
    /\ split_at sep (s ++ w) = pieces ++ [piece ++ w].
Proof.
  intros Hw. induction s as [|c s (pieces & piece & Hs & Hsw)].
  - exists [], []. split; [reflexivity|]. cbn [app].
    now rewrite split_at_no_separator.
  - cbn [app split_at]. rewrite Hs, Hsw.
    destruct pieces as [|p pieces]; cbn [app].
    + destruct (sep c).
      * exists [[]], piece. now split.
      * exists [], (c :: piece). now split.
    + destruct (sep c).
      * exists ([] :: p :: pieces), piece. now split.
      * exists ((c :: p) :: pieces), piece. now split.
Qed.

(** Stripping the text before splitting it changes the pieces only by
    white space at their ends. *)
Lemma split_at_strip (sep : char -> bool) (s : str) :
  (forall c, isspace c = true -> sep c = false) ->
  map strip (split_at sep (strip s)) = map strip (split_at sep s).
Proof.
  intros Hsep.
  assert (Hpad : forall w, forallb isspace w = true ->
                           forallb (fun c => negb (sep c)) w = true).
  { intros w Hw. apply forallb_forall. intros c Hc.
    rewrite forallb_forall in Hw. now rewrite (Hsep c (Hw c Hc)). }
  change (strip s) with (rstrip_by isspace (lstrip_by isspace s)).
  destruct (lstrip_by_split isspace s) as (w1 & Hs & Hw1).
  destruct (rstrip_by_split isspace (lstrip_by isspace s))
    as (w2 & Hx & Hw2).
  remember (rstrip_by isspace (lstrip_by isspace s)) as core eqn:Hcore_def.
  rewrite Hx in Hs. clear Hx Hcore_def.
  rewrite Hs at 1.
  destruct (split_at_padding_right sep core w2 (Hpad w2 Hw2))
    as (pieces & piece & Hcore & Hright).
  destruct (split_at_padding_left sep w1 (core ++ w2) (Hpad w1 Hw1))
    as (p0 & ps & Hp & Hleft).
  rewrite Hleft, Hcore. rewrite Hright in Hp.
  destruct pieces as [|p pieces]; cbn [app] in Hp; injection Hp as <- <-.
  - cbn [map app]. f_equal. symmetry.
    apply (strip_by_padding isspace w1 piece w2 Hw1 Hw2).
  - cbn [map app]. f_equal.
    + symmetry. rewrite <- (app_nil_r p) at 1.
      apply (strip_by_padding isspace w1 p [] Hw1 eq_refl).
    + rewrite !map_app. f_equal. cbn [map]. f_equal. symmetry.
      apply (strip_by_padding isspace [] piece w2 eq_refl Hw2).
Qed.

Lemma for_each_app {A B} (body : A -> result (list B)) (xs ys : list A) :
  for_each body (xs ++ ys)
  = (a <- for_each body xs ;; b <- for_each body ys ;; Ok (a ++ b)).
Proof.
  induction xs as [|x xs IH]; cbn [app for_each bind].
  - destruct (for_each body ys); reflexivity.
  - destruct (body x) as [r|e]; cbn [bind]; [|reflexivity].
    rewrite IH. destruct (for_each body xs) as [a|e]; cbn [bind];
      [|reflexivity].
    destruct (for_each body ys) as [b|e]; cbn [bind]; [|reflexivity].
    now rewrite app_assoc.
Qed.

Lemma for_each_ext_map {A B} (body : A -> result (list B)) (f : A -> A)
    (xs : list A) :
  (forall x, body (f x) = body x) ->
  for_each body (map f xs) = for_each body xs.
Proof.
  intros H. induction xs as [|x xs IH]; cbn [map for_each]; [reflexivity|].
  now rewrite H, IH.
Qed.

Lemma user_segment_strip (part : str) :
  user_segment (strip part) = user_segment part.
Proof.
  unfold user_segment. unfold strip. now rewrite strip_by_idempotent.
Qed.

Lemma delimiter_not_space (c : char) :
  isspace c = true -> is_delimiter c = false.
Proof.
  unfold is_delimiter. intros H.
  destruct (N.eqb_spec c 44) as [->|_]; [discriminate|].
  destruct (N.eqb_spec c 43) as [->|_]; [discriminate|].
  destruct (N.eqb_spec c 59) as [->|_]; [discriminate|]. reflexivity.
Qed.

(** A line as the list of its segments. *)
Lemma user_line_segments (line : str) :
  user_line line = for_each user_segment (split_at is_delimiter line).
Proof.
  unfold user_line.
  rewrite <- (for_each_ext_map user_segment strip _ user_segment_strip).
  rewrite (split_at_strip is_delimiter line delimiter_not_space).
  apply (for_each_ext_map user_segment strip _ user_segment_strip).
Qed.

(** X8: in the lenient grammar a separator [,] [+] [;] inside a line acts
    exactly like a line break: a line ["a<sep>b"] parses as the two lines
    ["a"] and ["b"], wherever it stands among the other lines. *)
Theorem separator_acts_as_line_break
    (before after : list str) (a b : str) (sep : char) :
  is_delimiter sep = true ->
  parse_user_lines (before ++ [a ++ sep :: b] ++ after)
  = parse_user_lines (before ++ [a; b] ++ after).
Proof.
  intros Hsep. unfold parse_user_lines.
  rewrite !for_each_app. f_equal.
  cbn [for_each]. rewrite !user_line_segments.
  rewrite (split_at_separator is_delimiter a b sep Hsep), for_each_app.
  destruct (for_each user_segment (split_at is_delimiter a)) as [ra|e];
    cbn [bind]; [|reflexivity].
  destruct (for_each user_segment (split_at is_delimiter b)) as [rb|e];
    cbn [bind]; [|reflexivity].
  now rewrite !app_nil_r.
Qed.

Lemma separator_acts_as_line_break_witness :
  is_delimiter 44 = true
  /\ parse_user_lines ([lit "tin"] ++ [lit "3 copper heroic" ++ 44 :: lit " 10 x Oak Wood (Epic)"] ++ [])
     = parse_user_lines ([lit "tin"] ++ [lit "3 copper heroic"; lit " 10 x Oak Wood (Epic)"] ++ []).
Proof.
  split; [reflexivity|].
  exact (separator_acts_as_line_break [lit "tin"] [] (lit "3 copper heroic")
           (lit " 10 x Oak Wood (Epic)") 44 eq_refl).
Defined.

(* ------------------------------------------------------------------ *)
(** * When the parsers and the segmenter return *)






Lemma collect_rest_suffix (tokens : list WordToken) :
  forall words boxes words' amount boxes' rest,
    collect tokens words boxes = Ok (words', amount, boxes', rest) ->
    (length rest <= length tokens)%nat
    /\ Forall (fun t => In t tokens) rest.
Proof.
  induction tokens as [|t tokens IH];
    intros words boxes words' amount boxes' rest; cbn [collect].
  - intros [= _ _ _ <-]. split; [reflexivity | constructor].
  - destruct (_ || _).
    + intros [= _ _ _ <-]. split; [reflexivity|].
      apply Forall_forall. auto.
    + destruct (is_quantity _).
      * destruct (int _) as [a|e]; cbn [bind]; [|discriminate].
        intros [= _ _ _ <-]. split; [cbn [length]; lia|].
        apply Forall_forall. intros x Hx. now right.
      * intros H. apply IH in H. destruct H as [Hlen Hin].
        split; [cbn [length]; lia|].
        eapply Forall_impl; [|exact Hin]. intros x Hx. now right.
Qed.



(* ------------------------------------------------------------------ *)
(** * The segmenter, record by record *)

Lemma scan_from_fuel (image : Image) (fuel1 : nat) :
  forall (fuel2 : nat) (tokens : list WordToken),
    (length tokens <= fuel1)%nat -> (length tokens <= fuel2)%nat ->
    scan_from fuel1 image tokens = scan_from fuel2 image tokens.
Proof.
  induction fuel1 as [|fuel1 IH]; intros fuel2 tokens H1 H2.
  - destruct tokens; [|cbn [length] in H1; lia].
    destruct fuel2; reflexivity.
  - destruct tokens as [|t tokens]; [destruct fuel2; reflexivity|].
    destruct fuel2 as [|fuel2]; [cbn [length] in H2; lia|].
    cbn [length] in H1, H2. cbn [scan_from].
    destruct (negb (is_marker _)); [apply IH; lia|].
    destruct (collect tokens [] []) as [[[[words amount] boxes] rest]|e]
      eqn:Hc; cbn [bind]; [|reflexivity].
    apply collect_rest_suffix in Hc. destruct Hc as [Hlen _].
    rewrite (IH fuel2 rest) by lia.
    reflexivity.
Qed.

(** The outer loop, one step at a time and without its bound. *)
Lemma scan_items_step (image : Image) (t : WordToken)
    (tokens : list WordToken) :
  scan_items image (t :: tokens)
  = if negb (starts_record t) then scan_items image tokens
    else
      collected <- collect tokens [] [] ;;
      let '(item_words, amount, boxes, rest) := collected in
      match item_words with
      | [] => scan_items image rest
      | _ :: _ =>
          let item_name := trimmed_name item_words in
          if negb (nonempty item_name) then scan_items image rest
          else
            let boxes :=
              match boxes with
              | [] => [(0, 0, image_width image, image_height image)%Z]
              | _ :: _ => boxes
              end in
            quality <-
              detect_quality_hsv (crop image (crop_box image boxes))
                default_sat_thresh default_val_thresh ;;
            more <- scan_items image rest ;;
            Ok ((title item_name, Some quality, amount) :: more)
      end.
Proof.
  unfold scan_items. cbn [length scan_from]. unfold starts_record.
  destruct (negb (is_marker _)); [reflexivity|].
  destruct (collect tokens [] []) as [[[[words amount] boxes] rest]|e]
    eqn:Hc; cbn [bind]; [|reflexivity].
  apply collect_rest_suffix in Hc. destruct Hc as [Hlen _].
  rewrite (scan_from_fuel image (length tokens) (length rest) rest Hlen)
    by reflexivity.
  reflexivity.
Qed.

(** X11: whatever precedes the first boundary marker is ignored: tokens
    that are not boundary markers, in front of a stream, do not change the
    records. *)
Theorem scan_items_skips_leading_words
    (image : Image) (noise data : list WordToken) :
  Forall (fun t => starts_record t = false) noise ->
  scan_items image (noise ++ data) = scan_items image data.
Proof.
  induction 1 as [|t noise Ht _ IH]; [reflexivity|].
  cbn [app]. rewrite scan_items_step, Ht. exact IH.
Qed.

Lemma scan_items_skips_leading_words_witness :
  let noise := [word (lit "You") (0, 0, 20, 10)%Z;
                word (lit "have") (24, 0, 28, 10)%Z] in
  let data := [word (lit "Acquired:") (0, 14, 50, 10)%Z;
               word (lit "Tin") (54, 14, 20, 10)%Z] in
  Forall (fun t => starts_record t = false) noise
  /\ scan_items grey_image (noise ++ data) = scan_items grey_image data.
Proof.
  intros noise data.
  assert (H : Forall (fun t => starts_record t = false) noise)
    by (repeat constructor).
  split; [exact H|].
  exact (scan_items_skips_leading_words grey_image noise data H).
Defined.

(** X12: a boundary marker that is followed directly by the end of the
    stream, by a blank token or by another boundary marker yields no
    record; scanning goes on from the token after the marker. *)
Theorem scan_items_marker_without_name
    (image : Image) (marker : WordToken) (data : list WordToken) :
  starts_record marker = true ->
  match data with
  | [] => True
  | t :: _ => ends_record t = true
  end ->
  scan_items image (marker :: data) = scan_items image data.
Proof.
  intros Hm Hdata. rewrite scan_items_step, Hm. cbn [negb].
  destruct data as [|t data]; [reflexivity|].
  cbn [collect]. unfold ends_record in Hdata. rewrite Hdata. reflexivity.
Qed.

Lemma scan_items_marker_without_name_witness :
  let acquired := word (lit "Acquired") (0, 0, 50, 10)%Z in
  let data := [word (lit "Removed:") (0, 14, 50, 10)%Z;
               word (lit "Tin") (54, 14, 20, 10)%Z] in
  starts_record acquired = true
  /\ scan_items grey_image (acquired :: data) = scan_items grey_image data.
Proof.
  intros acquired data. split; [reflexivity|].
  exact (scan_items_marker_without_name grey_image acquired data
           eq_refl eq_refl).
Defined.

(** X10: a record is cut out of the stream independently of what follows:
    after a boundary marker, name words and a quantity token [x<digits>],
    the segmenter emits the record of these words with that quantity (or
    nothing, when trimming leaves no name) and then the records of the
    rest of the stream. *)
Theorem scan_items_record_then_rest
    (image : Image) (marker : WordToken) (name_words : list WordToken)
    (quantity : WordToken) (data : list WordToken) (amount : Z) :
  starts_record marker = true ->
  name_words <> [] ->
  Forall (fun t => name_word t = true) name_words ->
  quantity_token quantity = true ->
  int (tl (strip (text quantity))) = Ok amount ->
  let item_name :=
    trimmed_name (map (fun t => strip (text t)) name_words) in
  scan_items image (marker :: name_words ++ quantity :: data)
  = if negb (nonempty item_name) then scan_items image data
    else
      quality <-
        detect_quality_hsv
          (crop image (crop_box image (map box_of name_words)))
          default_sat_thresh default_val_thresh ;;
      more <- scan_items image data ;;
      Ok ((title item_name, Some quality, amount) :: more).
Proof.
  intros Hm Hne Hwords Hq Hint item_name.
  rewrite scan_items_step, Hm. cbn [negb].
  rewrite collect_name_words by exact Hwords. cbn [app collect].
  unfold quantity_token, ends_record in Hq.
  apply andb_true_iff in Hq. destruct Hq as [Hend Hqty].
  apply negb_true_iff in Hend. rewrite Hend, Hqty, Hint. cbn [bind].
  destruct name_words as [|t name_words]; [congruence|].
  cbn [map]. reflexivity.
Qed.

Lemma scan_items_record_then_rest_witness :
  let acquired := word (lit "Acquired") (0, 0, 50, 10)%Z in
  let oak := word (lit "Oak") (54, 0, 20, 10)%Z in
  let x5 := word (lit "x5") (110, 0, 12, 10)%Z in
  let data := [word (lit "Removed:") (0, 14, 50, 10)%Z;
               word (lit "Tin") (54, 14, 20, 10)%Z] in
  starts_record acquired = true
  /\ Forall (fun t => name_word t = true) [oak]
  /\ quantity_token x5 = true
  /\ scan_items grey_image (acquired :: [oak] ++ x5 :: data)
     = (quality <-
          detect_quality_hsv
            (crop grey_image (crop_box grey_image (map box_of [oak])))
            default_sat_thresh default_val_thresh ;;
        more <- scan_items grey_image data ;;
        Ok ((lit "Oak", Some quality, 5%Z) :: more)).
Proof.
  intros acquired oak x5 data.
  assert (H : Forall (fun t => name_word t = true) [oak])
    by (repeat constructor).
  split; [reflexivity|]. split; [exact H|]. split; [reflexivity|].
  exact (scan_items_record_then_rest grey_image acquired [oak] x5 data 5%Z
           eq_refl ltac:(discriminate) H eq_refl eq_refl).
Defined.

Lemma match_hue_tier (hue : Q) : In (match_hue QUALITY_HUE_RANGES hue) TIERS.
Proof.
  cbn [match_hue QUALITY_HUE_RANGES].
  repeat match goal with
         | |- context [if ?b then _ else _] => destruct b
         end; cbn; tauto.
Qed.

Lemma detect_quality_hsv_tier (region : Region) (sat val : Q) (tier : str) :
  detect_quality_hsv region sat val = Ok tier -> In tier TIERS.
Proof.
  unfold detect_quality_hsv, detect_quality_hsv_with.
  destruct region as [pixels|e]; cbn [bind]; [|discriminate].
  destruct (filter _ pixels).
  - intros [= <-]. cbn. tauto.
  - intros [= <-]. apply match_hue_tier.
Qed.

(** X13: every record the segmenter returns has a non-empty name and one
    of the six tiers as its quality. *)
Theorem scan_items_records_well_formed
    (image : Image) (data : list WordToken) (items : list ItemTuple) :
  scan_items image data = Ok items ->
  Forall well_formed_record items.
Proof.
  unfold scan_items. generalize (length data). intros fuel.
  revert data items. induction fuel as [|fuel IH]; intros data items;
    cbn [scan_from].
  - intros [= <-]. constructor.
  - destruct data as [|t tokens]; [intros [= <-]; constructor|].
    destruct (negb (is_marker _)); [apply IH|].
    destruct (collect tokens [] []) as [[[[words amount] boxes] rest]|e];
      cbn [bind]; [|discriminate].
    destruct words as [|w words]; [apply IH|].
    destruct (strip_chars _ _) as [|c name] eqn:Hname; cbn [nonempty negb];
      [apply IH|].
    destruct (detect_quality_hsv _ _ _) as [quality|e] eqn:Hq; cbn [bind];
      [|discriminate].
    destruct (scan_from fuel image rest) as [more|e] eqn:Hmore; cbn [bind];
      [|discriminate].
    intros [= <-]. constructor; [|now apply (IH rest)].
    split.
    + apply title_from_nonempty.
    + exists quality. split; [reflexivity|].
      now apply detect_quality_hsv_tier in Hq.
Qed.

Lemma scan_items_records_well_formed_witness :
  let data :=
    [ word (lit "Acquired") (0, 0, 50, 10)%Z;
      word (lit "Oak") (54, 0, 20, 10)%Z;
      word (lit "x5") (110, 0, 12, 10)%Z ] in
  scan_items grey_image data = Ok [(lit "Oak", Some (lit "Common"), 5%Z)]
  /\ Forall well_formed_record [(lit "Oak", Some (lit "Common"), 5%Z)].
Proof.
  intros data. split; [reflexivity|].
  exact (scan_items_records_well_formed grey_image data _ eq_refl).
Defined.

(* ------------------------------------------------------------------ *)
(** * The crop rectangle *)

Lemma fold_min_le (a : Z) (l : list Z) (x : Z) :
  In x l -> (fold_right Z.min a l <= x)%Z.
Proof.
  induction l as [|y l IH]; cbn [In fold_right]; [tauto|].
  intros [<-|Hx]; [apply Z.le_min_l|].
  etransitivity; [apply Z.le_min_r | now apply IH].
Qed.

Lemma fold_max_ge (a : Z) (l : list Z) (x : Z) :
  In x l -> (x <= fold_right Z.max a l)%Z.
Proof.
  induction l as [|y l IH]; cbn [In fold_right]; [tauto|].
  intros [<-|Hx]; [apply Z.le_max_l|].
  etransitivity; [now apply IH | apply Z.le_max_r].
Qed.

(** X15: the rectangle cropped for the colour classifier lies inside the
    image, and it covers every collected word box, widened by 4 pixels to
    the left and right and by 2 pixels above and below, as far as that
    lies inside the image. *)
Theorem crop_box_covers_words (image : Image) (boxes : list Box) (b : Box) :
  In b boxes ->
  let '(left_, upper, right_, lower_) := crop_box image boxes in
  (0 <= left_ /\ 0 <= upper
   /\ right_ <= image_width image /\ lower_ <= image_height image
   /\ left_ <= Z.max (box_left b - 4) 0
   /\ upper <= Z.max (box_top b - 2) 0
   /\ Z.min (box_left b + box_width b + 4) (image_width image) <= right_
   /\ Z.min (box_top b + box_height b + 2) (image_height image) <= lower_)%Z.
Proof.
  intros Hb. unfold crop_box, minimum, maximum.
  pose proof (fold_min_le (hd 0%Z (map box_left boxes)) _ _
                (in_map box_left _ _ Hb)) as Hl.
  pose proof (fold_min_le (hd 0%Z (map box_top boxes)) _ _
                (in_map box_top _ _ Hb)) as Ht.
  pose proof (fold_max_ge
                (hd 0%Z (map (fun b => box_left b + box_width b) boxes))%Z _ _
                (in_map (fun b => box_left b + box_width b)%Z _ _ Hb)) as Hr.
  pose proof (fold_max_ge
                (hd 0%Z (map (fun b => box_top b + box_height b) boxes))%Z _ _
                (in_map (fun b => box_top b + box_height b)%Z _ _ Hb)) as Hd.
  cbv beta in Hr, Hd.
  repeat match goal with
         | H : context [fold_right ?f ?a ?l] |- _ =>
             generalize dependent (fold_right f a l); intros
         end.
  lia.
Qed.

Lemma crop_box_covers_words_witness :
  let boxes := [(54, 3, 20, 10)%Z; (78, 0, 28, 12)%Z] in
  In (78, 0, 28, 12)%Z boxes
  /\ let '(left_, upper, right_, lower_) := crop_box grey_image boxes in
     (0 <= left_ /\ 0 <= upper
      /\ right_ <= image_width grey_image
      /\ lower_ <= image_height grey_image
      /\ left_ <= Z.max (78 - 4) 0
      /\ upper <= Z.max (0 - 2) 0
      /\ Z.min (78 + 28 + 4) (image_width grey_image) <= right_
      /\ Z.min (0 + 12 + 2) (image_height grey_image) <= lower_)%Z.
Proof.
  intros boxes. split; [now right; left|].
  exact (crop_box_covers_words grey_image boxes (78, 0, 28, 12)%Z
           (or_intror (or_introl eq_refl))).
Defined.

(* ------------------------------------------------------------------ *)
(** * The colour classifier: regions without colour *)

(** X17: a region in which every pixel has saturation at most
    [sat_thresh] or value at most [val_thresh] is classified as Common,
    whatever the hue table says. *)
Theorem detect_quality_hsv_colourless
    (ranges : dict (option (Z * Z))) (pixels : list HSV)
    (sat_thresh val_thresh : Q) :
  Forall (fun p => (saturation p <= sat_thresh \/ value p <= val_thresh)%Q)
    pixels ->
  detect_quality_hsv_with ranges (Ok pixels) sat_thresh val_thresh
  = Ok (lit "Common").
Proof.
  intros Hpixels. unfold detect_quality_hsv_with. cbn [bind].
  replace (filter (mask sat_thresh val_thresh) pixels) with (@nil HSV);
    [reflexivity|].
  symmetry. induction Hpixels as [|p pixels Hp _ IH]; [reflexivity|].
  cbn [filter]. rewrite IH. unfold mask, Qgt_bool.
  destruct Hp as [Hs|Hv].
  - apply Qle_bool_iff in Hs. now rewrite Hs.
  - apply Qle_bool_iff in Hv. rewrite Hv. now rewrite andb_false_r.
Qed.

Lemma detect_quality_hsv_colourless_witness :
  let pixels : list HSV := [ (1#2, 0#1, 1#1); (5#6, 1#1, 1#10) ]%Q in
  Forall (fun p => (saturation p <= default_sat_thresh
                    \/ value p <= default_val_thresh)%Q) pixels
  /\ detect_quality_hsv_with QUALITY_HUE_RANGES (Ok pixels)
       default_sat_thresh default_val_thresh
     = Ok (lit "Common").
Proof.
  intros pixels.
  assert (H : Forall (fun p => (saturation p <= default_sat_thresh
                                \/ value p <= default_val_thresh)%Q) pixels).
  { constructor; [left; discriminate|].
    constructor; [right; discriminate | constructor]. }
  split; [exact H|].
  exact (detect_quality_hsv_colourless QUALITY_HUE_RANGES pixels _ _ H).
Defined.

(* ------------------------------------------------------------------ *)
(** * The hue table as a decision table *)

(** X16: which median hue gives which tier under [QUALITY_HUE_RANGES].
    The ranges of Heroic (40 to 70) and Legendary (20 to 50) overlap, and
    Heroic comes first in the table: Legendary is returned exactly for
    hues from 20 up to, but not including, 40.  Hues in none of the ranges
    give Common. *)
Theorem hue_table_decisions (hue : Q) :
  let tier := match_hue QUALITY_HUE_RANGES hue in
  (tier = lit "Uncommon" <-> 95 <= hue /\ hue <= 140)%Q
  /\ (tier = lit "Rare" <-> 190 <= hue /\ hue <= 240)%Q
  /\ (tier = lit "Heroic" <-> 40 <= hue /\ hue <= 70)%Q
  /\ (tier = lit "Epic" <-> 260 <= hue /\ hue <= 310)%Q
  /\ (tier = lit "Legendary" <-> 20 <= hue /\ hue < 40)%Q
  /\ (tier = lit "Common" <->
      hue < 20 \/ (70 < hue /\ hue < 95) \/ (140 < hue /\ hue < 190)
      \/ (240 < hue /\ hue < 260) \/ 310 < hue)%Q.
Proof.
  destruct hue as [n d]. cbv zeta.
  unfold QUALITY_HUE_RANGES. cbn [match_hue Z.leb Z.compare Pos.compare
                                   Pos.compare_cont].
  unfold Qle_bool, Qle, Qlt, inject_Z. cbn [Qnum Qden].
  generalize (Zpos d) (Pos2Z.is_pos d). intros D HD.
  repeat match goal with
         | |- context [(?a <=? ?b)%Z] =>
             destruct (Z.leb_spec a b); cbn [andb]
         end;
    repeat split; intros; try discriminate; try lia.
Qed.

(* ------------------------------------------------------------------ *)
(** * Normalised sheet keys *)

Lemma str_eqb_eq (a b : str) : str_eqb a b = true <-> a = b.
Proof.
  revert b. induction a as [|x a IH]; intros [|y b]; cbn [str_eqb];
    try (split; [discriminate | discriminate]); [tauto|].
  rewrite andb_true_iff, N.eqb_eq, IH. split.
  - now intros [-> ->].
  - intros H. injection H as -> ->. now split.
Qed.

Lemma str_eqb_refl (a : str) : str_eqb a a = true.
Proof. now apply str_eqb_eq. Qed.

(** A property of characters that holds on U+0000..U+00FF and on every
    code point above holds everywhere. *)
Lemma all_chars (P : char -> bool) :
  forallb P (map N.of_nat (seq 0 256)) = true ->
  (forall c, 256 <= c -> P c = true) ->
  forall c, P c = true.
Proof.
  intros Hlow Hhigh c. destruct (N.le_gt_cases 256 c) as [H|H].
  - now apply Hhigh.
  - rewrite forallb_forall in Hlow. apply Hlow.
    apply in_map_iff. exists (N.to_nat c). split; [apply N2Nat.id|].
    apply in_seq. lia.
Qed.

Lemma lower_char_high (c : char) : 256 <= c -> lower_char c = c.
Proof.
  intros H. unfold lower_char, between.
  replace (c <=? 90) with false by (symmetry; apply N.leb_gt; lia).
  replace (c <=? 214) with false by (symmetry; apply N.leb_gt; lia).
  replace (c <=? 222) with false by (symmetry; apply N.leb_gt; lia).
  now rewrite !andb_false_r.
Qed.

Lemma lower_char_facts_hold (c : char) : lower_char_facts c = true.
Proof.
  revert c. apply all_chars; [vm_compute; reflexivity|].
  intros c Hc. unfold lower_char_facts. rewrite !lower_char_high by exact Hc.
  now rewrite !Bool.eqb_reflx, N.eqb_refl, str_eqb_refl.
Qed.

Lemma lower_char_props (c : char) :
  isword (lower_char c) = isword c
  /\ isspace (lower_char c) = isspace c
  /\ iscased (lower_char c) = iscased c
  /\ lower_char (lower_char c) = lower_char c
  /\ title_char (lower_char c) = title_char c.
Proof.
  pose proof (lower_char_facts_hold c) as H. unfold lower_char_facts in H.
  rewrite !andb_true_iff in H.
  destruct H as ((((Hw & Hs) & Hc) & Hl) & Ht).
  apply Bool.eqb_prop in Hw, Hs, Hc. apply N.eqb_eq in Hl.
  apply str_eqb_eq in Ht. tauto.
Qed.

Lemma lower_idempotent (s : str) : lower (lower s) = lower s.
Proof.
  unfold lower. rewrite map_map. apply map_ext. intros c.
  apply lower_char_props.
Qed.


Lemma lstrip_by_map (p : char -> bool) (f : char -> char) (s : str) :
  (forall c, p (f c) = p c) ->
  lstrip_by p (map f s) = map f (lstrip_by p s).
Proof.
  intros Hp. induction s as [|c s IH]; cbn [map lstrip_by]; [reflexivity|].
  rewrite Hp. now destruct (p c).
Qed.

Lemma strip_by_map (p : char -> bool) (f : char -> char) (s : str) :
  (forall c, p (f c) = p c) ->
  strip_by p (map f s) = map f (strip_by p s).
Proof.
  intros Hp. unfold strip_by, rstrip_by.
  rewrite lstrip_by_map by exact Hp.
  rewrite <- map_rev, lstrip_by_map by exact Hp.
  now rewrite map_rev.
Qed.

Lemma filter_map_commute (p : char -> bool) (f : char -> char) (s : str) :
  (forall c, p (f c) = p c) ->
  filter p (map f s) = map f (filter p s).
Proof.
  intros Hp. induction s as [|c s IH]; cbn [map filter]; [reflexivity|].
  rewrite Hp, IH. now destruct (p c).
Qed.

Lemma filter_all (p : char -> bool) (s : str) :
  forallb p s = true -> filter p s = s.
Proof.
  induction s as [|c s IH]; cbn [forallb filter]; [reflexivity|].
  intros H. apply andb_true_iff in H. destruct H as [-> Hs].
  now rewrite IH.
Qed.

Lemma norm_keeps_lower (c : char) : norm_keeps (lower_char c) = norm_keeps c.
Proof.
  unfold norm_keeps. destruct (lower_char_props c) as (-> & -> & _).
  reflexivity.
Qed.

Lemma norm_text_form (s : str) :
  SheetsService._norm_text s = lower (strip (filter norm_keeps s)).
Proof. reflexivity. Qed.

(** X18: normalising a key twice changes nothing more, for text in
    U+0000..U+00FF: what [_norm_text] returns is its own normal form. *)
Theorem norm_text_is_normal_form (s : str) :
  Forall (fun c => c < 256) s ->
  SheetsService._norm_text (SheetsService._norm_text s)
  = SheetsService._norm_text s.
Proof.
  intros _. rewrite !norm_text_form.
  set (t := strip (filter norm_keeps s)).
  assert (Hkeep : forallb norm_keeps t = true).
  { apply forallb_forall. intros c Hc. unfold t, strip in Hc.
    apply strip_by_incl in Hc. apply filter_In in Hc. tauto. }
  unfold lower at 2.
  rewrite filter_map_commute by apply norm_keeps_lower.
  rewrite filter_all by exact Hkeep.
  unfold strip. rewrite strip_by_map by (intros c; apply lower_char_props).
  unfold t at 1. unfold strip. rewrite strip_by_idempotent.
  fold (lower (strip_by isspace (filter norm_keeps s))).
  apply lower_idempotent.
Qed.

Lemma norm_text_is_normal_form_witness :
  Forall (fun c => c < 256) (lit "  Miner's  PICK! ")
  /\ SheetsService._norm_text (lit "  Miner's  PICK! ") = lit "miners  pick"
  /\ SheetsService._norm_text (lit "miners  pick") = lit "miners  pick".
Proof.
  assert (H : Forall (fun c => c < 256) (lit "  Miner's  PICK! ")).
  { apply Forall_forall. intros c Hc.
    cbv in Hc. repeat destruct Hc as [<-|Hc]; try reflexivity.
    contradiction. }
  split; [exact H|]. split; [reflexivity|].
  exact (norm_text_is_normal_form (lit "  Miner's  PICK! ") H).
Defined.



(* ------------------------------------------------------------------ *)
(** * Stacking a donation *)

Lemma key_eqb_eq (k1 k2 : SheetsService.BankerKey) :
  SheetsService.key_eqb k1 k2 = true <-> k1 = k2.
Proof.
  destruct k1 as [[i1 q1] b1], k2 as [[i2 q2] b2].
  unfold SheetsService.key_eqb.
  rewrite !andb_true_iff, !str_eqb_eq. split.
  - now intros [[-> ->] ->].
  - intros H. injection H as -> -> ->. tauto.
Qed.

Lemma key_eqb_refl (k : SheetsService.BankerKey) :
  SheetsService.key_eqb k k = true.
Proof. now apply key_eqb_eq. Qed.

Lemma key_eqb_neq (k1 k2 : SheetsService.BankerKey) :
  SheetsService.key_eqb k1 k2 = false <-> k1 <> k2.
Proof.
  rewrite <- key_eqb_eq. destruct (SheetsService.key_eqb k1 k2);
    split; congruence.
Qed.

Lemma stacked_amount_none (stacked : list (SheetsService.BankerKey * Z))
    (key : SheetsService.BankerKey) :
  SheetsService.stacked_amount stacked key = None
  <-> ~ In key (map fst stacked).
Proof.
  induction stacked as [|[k v] stacked IH];
    cbn [SheetsService.stacked_amount map fst In]; [tauto|].
  destruct (SheetsService.key_eqb key k) eqn:E.
  - apply key_eqb_eq in E. subst. split; [discriminate | tauto].
  - apply key_eqb_neq in E. rewrite IH. split.
    + intros H [H'|H']; [now subst | tauto].
    + tauto.
Qed.

Lemma add_amount_lookup (stacked : list (SheetsService.BankerKey * Z))
    (k key : SheetsService.BankerKey) (amount : Z) :
  SheetsService.stacked_amount (SheetsService.add_amount stacked k amount) key
  = if SheetsService.key_eqb key k
    then Some (match SheetsService.stacked_amount stacked k with
               | Some v => v + amount
               | None => 0 + amount
               end)%Z
    else SheetsService.stacked_amount stacked key.
Proof.
  induction stacked as [|[k' v] stacked IH];
    cbn [SheetsService.add_amount SheetsService.stacked_amount].
  - now destruct (SheetsService.key_eqb key k).
  - destruct (SheetsService.key_eqb k k') eqn:Ek;
      cbn [SheetsService.stacked_amount].
    + apply key_eqb_eq in Ek. subst k'.
      now destruct (SheetsService.key_eqb key k).
    + destruct (SheetsService.key_eqb key k') eqn:Ekey.
      * apply key_eqb_eq in Ekey. subst k'.
        apply key_eqb_neq in Ek.
        assert (E : SheetsService.key_eqb key k = false)
          by (apply key_eqb_neq; congruence).
        now rewrite E.
      * exact IH.
Qed.

Lemma add_amount_keys (stacked : list (SheetsService.BankerKey * Z))
    (k : SheetsService.BankerKey) (amount : Z) :
  NoDup (map fst stacked) ->
  NoDup (map fst (SheetsService.add_amount stacked k amount)).
Proof.
  intros Hnd.
  assert (Hin : forall key,
             In key (map fst (SheetsService.add_amount stacked k amount))
             -> key = k \/ In key (map fst stacked)).
  { clear Hnd. induction stacked as [|[k' v] stacked IH]; intros key;
      cbn [SheetsService.add_amount map fst In].
    - intros [<-|[]]. now left.
    - destruct (SheetsService.key_eqb k k'); cbn [map fst In].
      + tauto.
      + intros [H|H]; [tauto|]. apply IH in H. tauto. }
  induction stacked as [|[k' v] stacked IH];
    cbn [SheetsService.add_amount map fst].
  - constructor; [intros [] | constructor].
  - cbn [map fst] in Hnd. inversion Hnd as [|? ? Hnotin Hnd']; subst.
    destruct (SheetsService.key_eqb k k') eqn:Ek; cbn [map fst].
    + now constructor.
    + constructor.
      * intros H.
        assert (H' : k' = k \/ In k' (map fst stacked)).
        { clear - H. induction stacked as [|[k'' v'] stacked IH];
            cbn [SheetsService.add_amount map fst In] in *.
          - destruct H as [<-|[]]. now left.
          - destruct (SheetsService.key_eqb k k''); cbn [map fst In] in H.
            + tauto.
            + destruct H as [H|H]; [tauto|]. apply IH in H. tauto. }
        destruct H' as [->|H']; [|tauto].
        now rewrite key_eqb_refl in Ek.
      * apply IH; [exact Hnd'|].
        clear - Hin. intros key H. clear Hin.
        induction stacked as [|[k'' v'] stacked IH];
          cbn [SheetsService.add_amount map fst In] in *.
        -- destruct H as [<-|[]]. now left.
        -- destruct (SheetsService.key_eqb k k''); cbn [map fst In] in H.
           ++ tauto.
           ++ destruct H as [H|H]; [tauto|]. apply IH in H. tauto.
Qed.

Lemma add_amount_sum (stacked : list (SheetsService.BankerKey * Z))
    (k : SheetsService.BankerKey) (amount : Z) :
  sum_Z (map snd (SheetsService.add_amount stacked k amount))
  = (sum_Z (map snd stacked) + amount)%Z.
Proof.
  induction stacked as [|[k' v] stacked IH];
    cbn [SheetsService.add_amount map snd sum_Z fold_right].
  - lia.
  - destruct (SheetsService.key_eqb k k');
      cbn [map snd sum_Z fold_right].
    + fold (sum_Z (map snd stacked)). lia.
    + fold (sum_Z (map snd (SheetsService.add_amount stacked k amount))).
      fold (sum_Z (map snd stacked)). rewrite IH. lia.
Qed.

Lemma stack_fold (banker_name : str) (items : list ItemTuple)
    (stacked : list (SheetsService.BankerKey * Z)) :
  let final_ :=
    fold_left
      (fun stacked t =>
         SheetsService.add_amount stacked
           (SheetsService.stack_key banker_name t) (item_amount t))
      items stacked in
  (NoDup (map fst stacked) -> NoDup (map fst final_))
  /\ (forall key,
         SheetsService.stacked_amount final_ key
         = match amounts_for banker_name key items with
           | [] => SheetsService.stacked_amount stacked key
           | amounts =>
               Some (match SheetsService.stacked_amount stacked key with
                     | Some v => v
                     | None => 0
                     end + sum_Z amounts)%Z
           end)
  /\ sum_Z (map snd final_)
     = (sum_Z (map snd stacked) + sum_Z (map item_amount items))%Z.
Proof.
  revert stacked. induction items as [|t items IH]; intros stacked;
    cbn [fold_left].
  - cbv zeta. unfold amounts_for. cbn [filter map sum_Z fold_right].
    repeat split; [tauto | lia].
  - specialize (IH (SheetsService.add_amount stacked
                      (SheetsService.stack_key banker_name t)
                      (item_amount t))).
    cbv zeta in *. destruct IH as (IHnd & IHkey & IHsum).
    split; [|split].
    + intros Hnd. apply IHnd. now apply add_amount_keys.
    + intros key. rewrite IHkey, add_amount_lookup.
      unfold amounts_for. cbn [filter].
      destruct (SheetsService.key_eqb key
                  (SheetsService.stack_key banker_name t)) eqn:E.
      * apply key_eqb_eq in E. subst key. rewrite key_eqb_refl.
        cbn [map]. 
        destruct (map item_amount
                    (filter (fun t0 => SheetsService.key_eqb
                               (SheetsService.stack_key banker_name t0)
                               (SheetsService.stack_key banker_name t))
                       items)) as [|a amounts];
          cbn [sum_Z fold_right];
          destruct (SheetsService.stacked_amount stacked
                      (SheetsService.stack_key banker_name t));
          f_equal; lia.
      * assert (E' : SheetsService.key_eqb
                       (SheetsService.stack_key banker_name t) key = false).
        { apply key_eqb_neq. apply key_eqb_neq in E. congruence. }
        rewrite E'. reflexivity.
    + rewrite IHsum, add_amount_sum. cbn [map sum_Z fold_right].
      fold (sum_Z (map item_amount items)). lia.
Qed.

(** X20: the stacking loop of [apply_donation] loses nothing and merges
    exactly the items with the same normalised key: the stacked table has
    one entry per key, the entry of a key is the sum of the amounts of the
    items with that key (and absent when there is none), and the amounts
    of the table add up to the amounts of the items. *)
Theorem stack_items_sums (items : list ItemTuple) (banker_name : str) :
  let stacked := SheetsService.stack_items items banker_name in
  NoDup (map fst stacked)
  /\ (forall key,
         SheetsService.stacked_amount stacked key
         = match amounts_for banker_name key items with
           | [] => None
           | amounts => Some (sum_Z amounts)
           end)
  /\ sum_Z (map snd stacked) = sum_Z (map item_amount items).
Proof.
  cbv zeta. unfold SheetsService.stack_items.
  destruct (stack_fold banker_name items []) as (Hnd & Hkey & Hsum).
  split; [|split].
  - apply Hnd. constructor.
  - intros key. rewrite Hkey. cbn [SheetsService.stacked_amount].
    destruct (amounts_for banker_name key items); [reflexivity|].
    f_equal.
  - rewrite Hsum. reflexivity.
Qed.

(* ------------------------------------------------------------------ *)
(** * Adding and removing priority targets *)

Lemma priority_eqb_eq (k1 k2 : SheetsService.PriorityKey) :
  SheetsService.priority_eqb k1 k2 = true <-> k1 = k2.
Proof.
  destruct k1 as [i1 q1], k2 as [i2 q2]. unfold SheetsService.priority_eqb.
  cbn [fst snd]. rewrite andb_true_iff, !str_eqb_eq. split.
  - now intros [-> ->].
  - intros H. injection H as -> ->. tauto.
Qed.

Lemma priority_eqb_refl (k : SheetsService.PriorityKey) :
  SheetsService.priority_eqb k k = true.
Proof. now apply priority_eqb_eq. Qed.

Lemma priority_eqb_neq (k1 k2 : SheetsService.PriorityKey) :
  SheetsService.priority_eqb k1 k2 = false <-> k1 <> k2.
Proof.
  rewrite <- priority_eqb_eq.
  destruct (SheetsService.priority_eqb k1 k2); split; congruence.
Qed.

Lemma priority_eqb_sym (k1 k2 : SheetsService.PriorityKey) :
  SheetsService.priority_eqb k1 k2 = SheetsService.priority_eqb k2 k1.
Proof.
  destruct (SheetsService.priority_eqb k1 k2) eqn:E1,
           (SheetsService.priority_eqb k2 k1) eqn:E2; try reflexivity.
  - apply priority_eqb_eq in E1. subst.
    now rewrite priority_eqb_refl in E2.
  - apply priority_eqb_eq in E2. subst.
    now rewrite priority_eqb_refl in E1.
Qed.

Lemma priority_get_none (current : SheetsService.Priorities)
    (key : SheetsService.PriorityKey) :
  SheetsService.priority_get current key = None
  <-> ~ In key (map fst current).
Proof.
  induction current as [|[k v] current IH];
    cbn [SheetsService.priority_get map fst In]; [tauto|].
  destruct (SheetsService.priority_eqb key k) eqn:E.
  - apply priority_eqb_eq in E. subst. split; [discriminate | tauto].
  - apply priority_eqb_neq in E. rewrite IH. split.
    + intros H [H'|H']; [now subst | tauto].
    + tauto.
Qed.

Lemma priority_get_set (current : SheetsService.Priorities)
    (k key : SheetsService.PriorityKey) (v : Z) :
  SheetsService.priority_get (SheetsService.priority_set current k v) key
  = if SheetsService.priority_eqb key k then Some v
    else SheetsService.priority_get current key.
Proof.
  induction current as [|[k' v'] current IH];
    cbn [SheetsService.priority_set SheetsService.priority_get].
  - now destruct (SheetsService.priority_eqb key k).
  - destruct (SheetsService.priority_eqb k k') eqn:Ek;
      cbn [SheetsService.priority_get].
    + apply priority_eqb_eq in Ek. subst k'.
      now destruct (SheetsService.priority_eqb key k).
    + destruct (SheetsService.priority_eqb key k') eqn:Ekey; [|exact IH].
      apply priority_eqb_eq in Ekey. subst k'.
      rewrite priority_eqb_sym in Ek. now rewrite Ek.
Qed.

Lemma priority_set_keys (current : SheetsService.Priorities)
    (k key : SheetsService.PriorityKey) (v : Z) :
  In key (map fst (SheetsService.priority_set current k v))
  -> key = k \/ In key (map fst current).
Proof.
  induction current as [|[k' v'] current IH];
    cbn [SheetsService.priority_set map fst In].
  - intros [<-|[]]. now left.
  - destruct (SheetsService.priority_eqb k k'); cbn [map fst In].
    + tauto.
    + intros [H|H]; [tauto|]. apply IH in H. tauto.
Qed.

Lemma priority_set_nodup (current : SheetsService.Priorities)
    (k : SheetsService.PriorityKey) (v : Z) :
  NoDup (map fst current) ->
  NoDup (map fst (SheetsService.priority_set current k v)).
Proof.
  induction current as [|[k' v'] current IH];
    cbn [SheetsService.priority_set map fst]; intros Hnd.
  - constructor; [intros [] | constructor].
  - inversion Hnd as [|? ? Hnotin Hnd']; subst.
    destruct (SheetsService.priority_eqb k k') eqn:Ek; cbn [map fst].
    + now constructor.
    + constructor; [|now apply IH].
      intros H. apply priority_set_keys in H. destruct H as [->|H]; [|tauto].
      now rewrite priority_eqb_refl in Ek.
Qed.

Lemma priority_del_keys (current : SheetsService.Priorities)
    (k key : SheetsService.PriorityKey) :
  In key (map fst (SheetsService.priority_del current k))
  -> In key (map fst current).
Proof.
  induction current as [|[k' v'] current IH];
    cbn [SheetsService.priority_del map fst In]; [tauto|].
  destruct (SheetsService.priority_eqb k k'); cbn [map fst In]; tauto.
Qed.

Lemma priority_del_nodup (current : SheetsService.Priorities)
    (k : SheetsService.PriorityKey) :
  NoDup (map fst current) ->
  NoDup (map fst (SheetsService.priority_del current k)).
Proof.
  induction current as [|[k' v'] current IH];
    cbn [SheetsService.priority_del map fst]; intros Hnd; [constructor|].
  inversion Hnd as [|? ? Hnotin Hnd']; subst.
  destruct (SheetsService.priority_eqb k k'); cbn [map fst];
    [exact Hnd'|].
  constructor; [|now apply IH].
  intros H. now apply priority_del_keys in H.
Qed.

Lemma priority_get_del (current : SheetsService.Priorities)
    (k key : SheetsService.PriorityKey) :
  NoDup (map fst current) ->
  SheetsService.priority_get (SheetsService.priority_del current k) key
  = if SheetsService.priority_eqb key k then None
    else SheetsService.priority_get current key.
Proof.
  induction current as [|[k' v'] current IH];
    cbn [SheetsService.priority_del SheetsService.priority_get map fst];
    intros Hnd.
  - now destruct (SheetsService.priority_eqb key k).
  - inversion Hnd as [|? ? Hnotin Hnd']; subst.
    destruct (SheetsService.priority_eqb k k') eqn:Ek.
    + apply priority_eqb_eq in Ek. subst k'.
      destruct (SheetsService.priority_eqb key k) eqn:Ekey; [|reflexivity].
      apply priority_eqb_eq in Ekey. subst key.
      now apply priority_get_none.
    + cbn [SheetsService.priority_get]. rewrite IH by exact Hnd'.
      destruct (SheetsService.priority_eqb key k') eqn:Ekey; [|reflexivity].
      apply priority_eqb_eq in Ekey. subst k'.
      rewrite priority_eqb_sym in Ek. now rewrite Ek.
Qed.

Lemma add_target_step (current : SheetsService.Priorities)
    (t : SheetsService.Target) :
  (NoDup (map fst current) ->
   NoDup (map fst (SheetsService.add_target current t)))
  /\ forall key,
       needed (SheetsService.add_target current t) key
       = if SheetsService.priority_eqb key (SheetsService.priority_key t)
         then (needed current key + SheetsService.target_amount t)%Z
         else needed current key.
Proof.
  unfold SheetsService.add_target. split.
  - apply priority_set_nodup.
  - intros key. unfold needed at 1. rewrite priority_get_set.
    destruct (SheetsService.priority_eqb key _) eqn:E; [|reflexivity].
    apply priority_eqb_eq in E. subst key. reflexivity.
Qed.

Lemma remove_target_step (current : SheetsService.Priorities)
    (t : SheetsService.Target) :
  NoDup (map fst current) ->
  NoDup (map fst (SheetsService.remove_target current t))
  /\ forall key,
       SheetsService.priority_get (SheetsService.remove_target current t) key
       = if SheetsService.priority_eqb key (SheetsService.priority_key t)
         then match SheetsService.priority_get current key with
              | Some v =>
                  if (Z.max (v - SheetsService.target_amount t) 0 =? 0)%Z
                  then None
                  else Some (Z.max (v - SheetsService.target_amount t) 0)
              | None => None
              end
         else SheetsService.priority_get current key.
Proof.
  intros Hnd. unfold SheetsService.remove_target.
  set (k := SheetsService.priority_key t).
  set (a := SheetsService.target_amount t).
  destruct (SheetsService.priority_get current k) as [v|] eqn:Hget.
  - cbv zeta. destruct (Z.max (v - a) 0 =? 0)%Z eqn:Hzero.
    + split; [now apply priority_del_nodup, priority_set_nodup|].
      intros key.
      rewrite priority_get_del by now apply priority_set_nodup.
      rewrite priority_get_set.
      destruct (SheetsService.priority_eqb key k) eqn:E; [|reflexivity].
      apply priority_eqb_eq in E. subst key. now rewrite Hget, Hzero.
    + split; [now apply priority_set_nodup|].
      intros key. rewrite priority_get_set.
      destruct (SheetsService.priority_eqb key k) eqn:E; [|reflexivity].
      apply priority_eqb_eq in E. subst key. now rewrite Hget, Hzero.
  - split; [exact Hnd|]. intros key.
    destruct (SheetsService.priority_eqb key k) eqn:E; [|reflexivity].
    apply priority_eqb_eq in E. subst key. now rewrite Hget.
Qed.

Lemma targets_for_cons (key : SheetsService.PriorityKey)
    (t : SheetsService.Target) (targets : list SheetsService.Target) :
  targets_for key (t :: targets)
  = if SheetsService.priority_eqb (SheetsService.priority_key t) key
    then (SheetsService.target_amount t + targets_for key targets)%Z
    else targets_for key targets.
Proof.
  unfold targets_for. cbn [filter].
  now destruct (SheetsService.priority_eqb _ key).
Qed.

Lemma targets_for_nonneg (key : SheetsService.PriorityKey)
    (targets : list SheetsService.Target) :
  Forall (fun t => (0 <= SheetsService.target_amount t)%Z) targets ->
  (0 <= targets_for key targets)%Z.
Proof.
  induction 1 as [|t targets Ht _ IH]; [reflexivity|].
  rewrite targets_for_cons. destruct (SheetsService.priority_eqb _ key); lia.
Qed.

Lemma add_loop_needed (add : list SheetsService.Target) :
  forall current,
    (NoDup (map fst current) ->
     NoDup (map fst (fold_left SheetsService.add_target add current)))
    /\ forall key,
         needed (fold_left SheetsService.add_target add current) key
         = (needed current key + targets_for key add)%Z.
Proof.
  induction add as [|t add IH]; intros current; cbn [fold_left].
  - split; [tauto|]. intros key. unfold targets_for. cbn. lia.
  - destruct (IH (SheetsService.add_target current t)) as [IHnd IHkey].
    destruct (add_target_step current t) as [Hnd Hkey].
    split; [tauto|]. intros key.
    rewrite IHkey, Hkey, targets_for_cons.
    rewrite (priority_eqb_sym (SheetsService.priority_key t) key).
    destruct (SheetsService.priority_eqb key _); lia.
Qed.

Lemma remove_loop_needed (remove : list SheetsService.Target) :
  Forall (fun t => (0 <= SheetsService.target_amount t)%Z) remove ->
  forall current,
    NoDup (map fst current) ->
    (forall key, (0 <= needed current key)%Z) ->
    NoDup (map fst (fold_left SheetsService.remove_target remove current))
    /\ (forall key,
           needed (fold_left SheetsService.remove_target remove current) key
           = Z.max (needed current key - targets_for key remove) 0)
    /\ (forall key,
           In key (map SheetsService.priority_key remove)
           \/ SheetsService.priority_get current key <> Some 0%Z ->
           SheetsService.priority_get
             (fold_left SheetsService.remove_target remove current) key
           <> Some 0%Z).
Proof.
  induction 1 as [|t remove Ht Hremove IH]; intros current Hnd Hpos;
    cbn [fold_left].
  - split; [exact Hnd|]. split.
    + intros key. unfold targets_for. cbn. specialize (Hpos key). lia.
    + intros key [[]|H]. exact H.
  - destruct (remove_target_step current t Hnd) as [Hnd' Hget].
    assert (Hneeded : forall key,
               needed (SheetsService.remove_target current t) key
               = if SheetsService.priority_eqb key
                      (SheetsService.priority_key t)
                 then Z.max (needed current key
                             - SheetsService.target_amount t) 0
                 else needed current key).
    { intros key. unfold needed. rewrite Hget.
      destruct (SheetsService.priority_eqb key _); [|reflexivity].
      destruct (SheetsService.priority_get current key) as [v|]; [|lia].
      destruct (Z.eqb_spec (Z.max (v - SheetsService.target_amount t) 0) 0);
        lia. }
    assert (Hpos' : forall key,
               (0 <= needed (SheetsService.remove_target current t) key)%Z).
    { intros key. rewrite Hneeded. specialize (Hpos key).
      destruct (SheetsService.priority_eqb key _); lia. }
    destruct (IH _ Hnd' Hpos') as (IHnd & IHkey & IHzero).
    split; [exact IHnd|]. split.
    + intros key. rewrite IHkey, Hneeded, targets_for_cons.
      rewrite (priority_eqb_sym (SheetsService.priority_key t) key).
      pose proof (targets_for_nonneg key remove Hremove).
      specialize (Hpos key).
      destruct (SheetsService.priority_eqb key _); lia.
    + intros key Hkey. apply IHzero.
      destruct (SheetsService.priority_eqb key
                  (SheetsService.priority_key t)) eqn:E.
      * right. rewrite Hget, E.
        destruct (SheetsService.priority_get current key) as [v|];
          [|discriminate].
        destruct (Z.eqb_spec (Z.max (v - SheetsService.target_amount t) 0) 0);
          [discriminate | congruence].
      * cbn [map In] in Hkey. destruct Hkey as [[Hkey|Hkey]|Hkey].
        -- subst key. now rewrite priority_eqb_refl in E.
        -- now left.
        -- right. now rewrite Hget, E.
Qed.

Lemma needed_nonneg (current : SheetsService.Priorities) :
  Forall (fun entry => (0 <= snd entry)%Z) current ->
  forall key, (0 <= needed current key)%Z.
Proof.
  intros H key. unfold needed.
  induction H as [|[k v] current Hv _ IH];
    cbn [SheetsService.priority_get]; [reflexivity|].
  destruct (SheetsService.priority_eqb key k); [exact Hv | exact IH].
Qed.

(** X21: what [modify_priorities] leaves in the table.  For a table
    without negative entries and non-negative amounts, the amount needed
    under a key afterwards is what was needed before, plus what was added
    under that key, minus what was removed under it, and not less than 0;
    keys stay unique; and a key named in [remove] is never left with an
    entry of 0, it is deleted instead. *)
Theorem modify_priorities_arithmetic (current : SheetsService.Priorities)
    (add remove : list SheetsService.Target) :
  NoDup (map fst current) ->
  Forall (fun entry => (0 <= snd entry)%Z) current ->
  Forall (fun t => (0 <= SheetsService.target_amount t)%Z) add ->
  Forall (fun t => (0 <= SheetsService.target_amount t)%Z) remove ->
  let final_ := SheetsService.modify_priorities current add remove in
  NoDup (map fst final_)
  /\ (forall key,
         needed final_ key
         = Z.max (needed current key + targets_for key add
                  - targets_for key remove) 0)
  /\ (forall key,
         In key (map SheetsService.priority_key remove) ->
         SheetsService.priority_get final_ key <> Some 0%Z).
Proof.
  intros Hnd Hcur Hadd Hremove. cbv zeta.
  unfold SheetsService.modify_priorities.
  destruct (add_loop_needed add current) as [Hnd1 Hkey1].
  assert (Hpos1 : forall key,
             (0 <= needed (fold_left SheetsService.add_target add current)
                     key)%Z).
  { intros key. rewrite Hkey1.
    pose proof (needed_nonneg current Hcur key).
    pose proof (targets_for_nonneg key add Hadd). lia. }
  destruct (remove_loop_needed remove Hremove _ (Hnd1 Hnd) Hpos1)
    as (Hnd2 & Hkey2 & Hzero).
  split; [exact Hnd2|]. split.
  - intros key. now rewrite Hkey2, Hkey1.
  - intros key Hkey. apply Hzero. now left.
Qed.

Lemma modify_priorities_arithmetic_witness :
  let current := [ ((lit "iron ore", lit "rare"), 5%Z) ] in
  let add := [ (lit "Oak Wood", lit "Epic", 10%Z) ] in
  let remove := [ (lit "Iron Ore", lit "Rare", 7%Z);
                  (lit "OAK WOOD", lit "epic", 4%Z) ] in
  SheetsService.modify_priorities current add remove
  = [ ((lit "oak wood", lit "epic"), 6%Z) ]
  /\ needed (SheetsService.modify_priorities current add remove)
       (lit "iron ore", lit "rare")
     = Z.max (needed current (lit "iron ore", lit "rare")
              + targets_for (lit "iron ore", lit "rare") add
              - targets_for (lit "iron ore", lit "rare") remove) 0.
Proof.
  intros current add remove. split; [reflexivity|].
  assert (Hnd : NoDup (map fst current))
    by (constructor; [intros [] | constructor]).
  assert (Hcur : Forall (fun entry => (0 <= snd entry)%Z) current)
    by (repeat constructor; discriminate).
  assert (Hadd : Forall (fun t => (0 <= SheetsService.target_amount t)%Z) add)
    by (repeat constructor; discriminate).
  assert (Hrem : Forall (fun t => (0 <= SheetsService.target_amount t)%Z)
                   remove)
    by (repeat constructor; discriminate).
  exact (proj1 (proj2 (modify_priorities_arithmetic current add remove
                         Hnd Hcur Hadd Hrem))
           (lit "iron ore", lit "rare")).
Defined.
